(** * The per-cell ionization core and the parallel estimator exchange

    A shallow embedding of [src/ionization.c] and [src/source/para_update.c]
    and the properties of the two files.

    Conventions of the embedding.
    - A C [double] is a real number ([R]) wherever the property at hand
      turns neither on rounding nor on values that are not finite: finite
      values, exact arithmetic. Three places need more.
      The candidate weight handed to [sane_check], the one value the code
      itself tests for finiteness, is an [option R] ([None] is a non-finite
      double).
      The product the bracket-widening loop of mode 5 tests is a [dbl]: a
      real number, an infinity or not a number, computed with the overflow
      and underflow thresholds of the type and the IEEE 754 rules for
      divisors that are 0 and for operands that are not finite, because
      such a product decides when the loop is left.
      The estimators of the spectral exchange are of any arithmetic with a
      zero, a sum, a quotient and the conversion of an [int] ([Arith]): the
      real numbers, or the binary64 numbers with round to nearest, ties to
      even ([b64]), which decide what comes back exactly.
    - A C [int] is an integer ([Z]); loop counters and array indices that
      start at 0 and only grow are natural numbers.
    - A C array is a list, read with [!!!] and written with [<[i:=x]>].
    - [Error] and [Log] write messages only and are left out, except in
      [check_convergence], whose whole result is the logged summary. *)

From Stdlib Require Import Reals Lra Lia ZArith List.
From stdpp Require Import base list.

#[global] Instance R_inhabited : Inhabited R := populate 0%R.

(** [for (i = 0; i < n; i++) s = body i s] *)
Definition for_loop {S : Type} (n : nat) (body : nat -> S -> S) (s : S) : S :=
  fold_left (fun acc i => body i acc) (seq 0 n) s.

(** ** src/source/para_update.c *)

Module ParaUpdate.

(** The two process-wide MPI globals the file reads. *)
Record mpi_globals := {
  rank_global : Z;
  np_mpi_global : Z
}.

(** What [get_parallel_nrange] hands back: the return value and the two
    out-parameters. *)
Record nrange := {
  ndo : Z;
  my_nmin : Z;
  my_nmax : Z
}.

Section partition.
Local Open Scope Z_scope.

(** [floor ((double) a / b)] and [ceil ((double) a / b)] on [int] operands:
    both operands are below 2^31, so the double quotient is within 2^-22 / b
    of the exact one, which is either an integer or at least 1 / b away from
    one; the rounding never crosses an integer. *)
Definition floor_quot (a b : Z) : Z := a / b.
Definition ceil_quot (a b : Z) : Z := - ((- a) / b).

Definition get_parallel_nrange (g : mpi_globals) (rank ntotal nproc : Z) : nrange :=
  let num_mpi_cells := floor_quot ntotal nproc in
  let num_mpi_extra := ntotal - nproc * num_mpi_cells in
  let '(nmin, nmax) :=
    if rank <? num_mpi_extra
    then (rank_global g * (num_mpi_cells + 1),
          (rank_global g + 1) * (num_mpi_cells + 1))
    else (num_mpi_extra * (num_mpi_cells + 1) + (rank - num_mpi_extra) * num_mpi_cells,
          num_mpi_extra * (num_mpi_cells + 1) + (rank - num_mpi_extra + 1) * num_mpi_cells) in
  {| ndo := nmax - nmin; my_nmin := nmin; my_nmax := nmax |}.

Definition get_max_cells_per_rank (g : mpi_globals) (n_total : Z) : Z :=
  ceil_quot n_total (np_mpi_global g).

(** The range rank [r] of [nproc] computes for itself: on rank [r] the
    global [rank_global] is [r] and [np_mpi_global] is [nproc]. *)
Definition on_rank (r nproc : Z) : mpi_globals :=
  {| rank_global := r; np_mpi_global := nproc |}.

Definition own_range (ntotal nproc r : Z) : nrange :=
  get_parallel_nrange (on_rank r nproc) r ntotal nproc.

End partition.

(** *** The arithmetic of the estimators

    The exchange moves doubles around, divides each by the number of ranks
    and adds them up; it does nothing else with them. It is written once,
    over any carrier [T] with these operations: the real numbers, where a
    property does not depend on rounding, and the binary64 numbers of the
    machine, where it does. *)
Class Arith (T : Type) := {
  d_zero : T;
  d_add : T -> T -> T;
  d_div : T -> T -> T;
  d_of_nat : nat -> T
}.

#[global] Instance R_arith : Arith R :=
  {| d_zero := 0%R; d_add := Rplus; d_div := Rdiv; d_of_nat := INR |}.

(** A binary64 number: a zero or an infinity with its sign, not a number,
    or [(-1)^s * m * 2^e] with [m < 2^53] and [-1074 <= e <= 971], where
    [2^52 <= m] unless [e = -1074]. *)
Inductive b64 : Type :=
  | B_zero (s : bool)
  | B_inf (s : bool)
  | B_nan
  | B_fin (s : bool) (m : positive) (e : Z).

#[global] Instance b64_inhabited : Inhabited b64 := populate (B_zero false).

Section binary64.
Local Open Scope Z_scope.

(** The integer nearest to [n / d], the even one of two that are equally
    near. *)
Definition nearest_even (n d : Z) : Z :=
  let q := n / d in
  match 2 * (n mod d) ?= d with
  | Lt => q
  | Gt => q + 1
  | Eq => if Z.even q then q else q + 1
  end.

(** The binary64 number nearest to [(-1)^s * n / d * 2^e], for positive [n]
    and [d]: the exponent is the one at which the quotient has 53 bits, or
    -1074 if that is larger; the quotient is rounded to the nearest integer,
    ties to even; a result beyond the largest exponent is an infinity. *)
Definition b64_round (s : bool) (n d e : Z) : b64 :=
  let scaled E :=
    if e - E >=? 0 then (n * 2 ^ (e - E), d) else (n, d * 2 ^ (E - e)) in
  let e0 := e + Z.log2 n - Z.log2 d - 52 in
  let e1 := if fst (scaled e0) / snd (scaled e0) <? 2 ^ 52 then e0 - 1 else e0 in
  let E := Z.max e1 (-1074) in
  let m := nearest_even (fst (scaled E)) (snd (scaled E)) in
  let '(m, E) := if m =? 2 ^ 53 then (2 ^ 52, E + 1) else (m, E) in
  if m =? 0 then B_zero s
  else if 971 <? E then B_inf s
  else B_fin s (Z.to_pos m) E.

Definition signed (s : bool) (v : Z) : Z := if s then - v else v.

(** [x + y] *)
Definition b64_add (x y : b64) : b64 :=
  match x, y with
  | B_nan, _ | _, B_nan => B_nan
  | B_inf s, B_inf t => if eqb s t then B_inf s else B_nan
  | B_inf s, _ | _, B_inf s => B_inf s
  | B_zero s, B_zero t => B_zero (s && t)
  | B_zero _, v | v, B_zero _ => v
  | B_fin s m e, B_fin t k g =>
      let E := Z.min e g in
      let v := signed s (Zpos m * 2 ^ (e - E)) + signed t (Zpos k * 2 ^ (g - E)) in
      if v =? 0 then B_zero false else b64_round (v <? 0) (Z.abs v) 1 E
  end.

(** [x / y] *)
Definition b64_div (x y : b64) : b64 :=
  match x, y with
  | B_nan, _ | _, B_nan => B_nan
  | B_inf _, B_inf _ => B_nan
  | B_zero _, B_zero _ => B_nan
  | B_inf s, B_zero t | B_inf s, B_fin t _ _ => B_inf (xorb s t)
  | B_zero s, B_inf t | B_fin s _ _, B_inf t => B_zero (xorb s t)
  | B_zero s, B_fin t _ _ => B_zero (xorb s t)
  | B_fin s _ _, B_zero t => B_inf (xorb s t)
  | B_fin s m e, B_fin t k g => b64_round (xorb s t) (Zpos m) (Zpos k) (e - g)
  end.

(** [(double) n] for an [int] that is not negative. *)
Definition b64_of_nat (n : nat) : b64 :=
  match n with
  | O => B_zero false
  | _ => b64_round false (Z.of_nat n) 1 0
  end.

End binary64.

#[global] Instance b64_arith : Arith b64 :=
  {| d_zero := B_zero false; d_add := b64_add; d_div := b64_div;
     d_of_nat := b64_of_nat |}.

(** One ray-traced spectrum: linear and logarithmic, total and wind-only. *)
Record spectrum_of (T : Type) := {
  f : list T;
  lf : list T;
  f_wind : list T;
  lf_wind : list T
}.

Arguments f {T} _.
Arguments lf {T} _.
Arguments f_wind {T} _.
Arguments lf_wind {T} _.
Arguments Build_spectrum_of {T} _ _ _ _.

(** The spectra of exact arithmetic. *)
Abbreviation spectrum := (spectrum_of R).

#[global] Instance spectrum_inhabited {T : Type} : Inhabited (spectrum_of T) :=
  populate {| f := []; lf := []; f_wind := []; lf_wind := [] |}.

Definition set_f {T : Type} (v : list T) (s : spectrum_of T) : spectrum_of T :=
  {| f := v; lf := lf s; f_wind := f_wind s; lf_wind := lf_wind s |}.
Definition set_lf {T : Type} (v : list T) (s : spectrum_of T) : spectrum_of T :=
  {| f := f s; lf := v; f_wind := f_wind s; lf_wind := lf_wind s |}.
Definition set_f_wind {T : Type} (v : list T) (s : spectrum_of T) : spectrum_of T :=
  {| f := f s; lf := lf s; f_wind := v; lf_wind := lf_wind s |}.
Definition set_lf_wind {T : Type} (v : list T) (s : spectrum_of T) : spectrum_of T :=
  {| f := f s; lf := lf s; f_wind := f_wind s; lf_wind := v |}.

(** The constants and the fields of [geo] that size the exchange. *)
Record extract_env := {
  MPI_ON : bool;
  MSPEC : nat;
  NWAVE_MAX : nat;
  CYCLE_EXTRACT : Z;
  geo_ioniz_or_extract : Z;
  geo_nangles : nat
}.

Section exchange.
Context {T : Type} {T_inhabited : Inhabited T} {T_arith : Arith T}.
Variable e : extract_env.

Definition nspec_of : nat :=
  if Z.eqb (geo_ioniz_or_extract e) (CYCLE_EXTRACT e)
  then (MSPEC e + geo_nangles e)%nat
  else MSPEC e.

(** [calloc (sizeof (double), n)] *)
Definition calloc (n : nat) : list T := replicate n d_zero.

(** The body of the first pair of loops, at [(mpi_i, mpi_j)]. *)
Definition pack_at (nspec : nat) (np : T) (xxspec : list (spectrum_of T))
    (mpi_i mpi_j : nat) (redhelper : list T) : list T :=
  let r1 := <[(mpi_i * nspec + mpi_j)%nat :=
               d_div (f (xxspec !!! mpi_j) !!! mpi_i) np]> redhelper in
  let r2 := <[(mpi_i * nspec + mpi_j + (NWAVE_MAX e * nspec))%nat :=
               d_div (lf (xxspec !!! mpi_j) !!! mpi_i) np]> r1 in
  let r3 := <[(mpi_i * nspec + mpi_j + (2 * NWAVE_MAX e * nspec))%nat :=
               d_div (f_wind (xxspec !!! mpi_j) !!! mpi_i) np]> r2 in
  <[(mpi_i * nspec + mpi_j + (3 * NWAVE_MAX e * nspec))%nat :=
     d_div (lf_wind (xxspec !!! mpi_j) !!! mpi_i) np]> r3.

Definition pack (nspec : nat) (np : T) (xxspec : list (spectrum_of T))
    (redhelper : list T) : list T :=
  for_loop (NWAVE_MAX e) (fun mpi_i =>
    for_loop nspec (fun mpi_j => pack_at nspec np xxspec mpi_i mpi_j)) redhelper.

(** [xxspec[mpi_j].fld[mpi_i] = v] *)
Definition write_spec (get : spectrum_of T -> list T)
    (set : list T -> spectrum_of T -> spectrum_of T)
    (mpi_i mpi_j : nat) (v : T) (xxspec : list (spectrum_of T))
    : list (spectrum_of T) :=
  <[mpi_j := set (<[mpi_i := v]> (get (xxspec !!! mpi_j))) (xxspec !!! mpi_j)]> xxspec.

(** The body of the second pair of loops, at [(mpi_i, mpi_j)]. *)
Definition unpack_at (nspec : nat) (redhelper2 : list T)
    (mpi_i mpi_j : nat) (xxspec : list (spectrum_of T)) : list (spectrum_of T) :=
  let x1 := write_spec f set_f mpi_i mpi_j
              (redhelper2 !!! (mpi_i * nspec + mpi_j)%nat) xxspec in
  let x2 := write_spec lf set_lf mpi_i mpi_j
              (redhelper2 !!! (mpi_i * nspec + mpi_j + (NWAVE_MAX e * nspec))%nat) x1 in
  let x3 := write_spec f_wind set_f_wind mpi_i mpi_j
              (redhelper2 !!! (mpi_i * nspec + mpi_j + (2 * NWAVE_MAX e * nspec))%nat) x2 in
  write_spec lf_wind set_lf_wind mpi_i mpi_j
    (redhelper2 !!! (mpi_i * nspec + mpi_j + (3 * NWAVE_MAX e * nspec))%nat) x3.

Definition unpack (nspec : nat) (redhelper2 : list T)
    (xxspec : list (spectrum_of T)) : list (spectrum_of T) :=
  for_loop (NWAVE_MAX e) (fun mpi_i =>
    for_loop nspec (fun mpi_j => unpack_at nspec redhelper2 mpi_i mpi_j)) xxspec.

(** [MPI_Reduce (send, recv, count, MPI_DOUBLE, MPI_SUM, root, ...)] over the
    whole group: the receive buffer of [root] gets the element-wise sum of
    all send buffers, the other receive buffers stay as they are. MPI leaves
    the order of the additions to the implementation; here the buffers are
    added in rank order, from the last rank down, onto the zeros of the
    receive buffer. *)
Definition MPI_Reduce_sum (count root : nat) (send recv : list (list T))
    : list (list T) :=
  <[root := fold_right (zip_with d_add) (replicate count d_zero) send]> recv.

(** [MPI_Bcast (buf, count, MPI_DOUBLE, root, ...)]: every rank gets the
    buffer of [root]. *)
Definition MPI_Bcast (root : nat) (bufs : list (list T)) : list (list T) :=
  (fun _ => bufs !!! root) <$> bufs.

(** The collective as the whole group runs it: [world] holds the [xxspec]
    of every rank, in rank order, and [np_mpi_global] is the size of the
    group, converted to a double where it divides one. The result is the
    return value (the same on every rank) and the [xxspec] of every rank
    afterwards. *)
Definition gather_extracted_spectrum (world : list (list (spectrum_of T)))
    : Z * list (list (spectrum_of T)) :=
  if MPI_ON e then
    let np_mpi_global := d_of_nat (length world) in
    let nspec := nspec_of in
    let size_of_commbuffer := (4 * nspec * NWAVE_MAX e)%nat in
    let redhelper :=
      (fun xxspec => pack nspec np_mpi_global xxspec (calloc size_of_commbuffer))
        <$> world in
    let redhelper2 := (fun _ => calloc size_of_commbuffer) <$> world in
    let redhelper2 := MPI_Reduce_sum size_of_commbuffer 0 redhelper redhelper2 in
    let redhelper2 := MPI_Bcast 0 redhelper2 in
    (0%Z, zip_with (unpack nspec) redhelper2 world)
  else (0%Z, world).

End exchange.

End ParaUpdate.

(** ** src/ionization.c *)

Module Ionization.
Local Open Scope R_scope.

(** [x < y] and [x > y] on doubles, as the conditions of [if] and [while]. *)
Definition Rltb (x y : R) : bool := if Rlt_dec x y then true else false.
Definition Rgtb (x y : R) : bool := Rltb y x.

Infix "<?" := Rltb : R_scope.
Infix ">?" := Rgtb (at level 70) : R_scope.

(** [fabs] and, for a positive base, [pow] of math.h. *)
Definition fabs (x : R) : R := Rabs x.
Definition pow (x y : R) : R := Rpower x y.

(** *** Results that need not be finite

    A [double] that the code multiplies or compares without a guard can be
    infinite or not a number: after a division by zero, or when [pow] leaves
    the range of the type. Such a result is a [dbl]. Its finite values are
    real numbers, as everywhere else (rounding is not modelled); an
    operation whose exact result is at or beyond the overflow threshold of
    the type gives an infinity, one whose exact result is at most half the
    smallest positive double gives zero, and the values that are not finite
    combine as in IEEE 754. Zero has no sign: the zero divisors that occur
    are sums and differences, which give +0. *)
Inductive dbl : Type :=
  | Fin (x : R)
  | PInf
  | NInf
  | NaN.

(** [2^1024 - 2^970], from which on a result rounds to infinity, and
    [2^-1075], up to which it rounds to zero. *)
Definition DBL_OVERFLOW : R := (2 - Rpower 2 (-53)) * Rpower 2 1023.
Definition DBL_UNDERFLOW : R := Rpower 2 (-1075).

(** The double an exact result becomes. *)
Definition fl (x : R) : dbl :=
  if Rle_dec DBL_OVERFLOW x then PInf
  else if Rle_dec x (- DBL_OVERFLOW) then NInf
  else if Rle_dec (Rabs x) DBL_UNDERFLOW then Fin 0
  else Fin x.

(** The infinity, or not a number, that a finite [x] times an infinity of
    sign [s] is. *)
Definition scaled_infinity (x : R) (s : dbl) (minus_s : dbl) : dbl :=
  if Rlt_dec 0 x then s else if Rlt_dec x 0 then minus_s else NaN.

Definition dopp (a : dbl) : dbl :=
  match a with
  | Fin x => Fin (- x)
  | PInf => NInf
  | NInf => PInf
  | NaN => NaN
  end.

Definition dadd (a b : dbl) : dbl :=
  match a, b with
  | NaN, _ | _, NaN => NaN
  | PInf, NInf | NInf, PInf => NaN
  | PInf, _ | _, PInf => PInf
  | NInf, _ | _, NInf => NInf
  | Fin x, Fin y => fl (x + y)
  end.

Definition dsub (a b : dbl) : dbl := dadd a (dopp b).

Definition dmul (a b : dbl) : dbl :=
  match a, b with
  | NaN, _ | _, NaN => NaN
  | Fin x, Fin y => fl (x * y)
  | Fin x, PInf | PInf, Fin x => scaled_infinity x PInf NInf
  | Fin x, NInf | NInf, Fin x => scaled_infinity x NInf PInf
  | PInf, PInf | NInf, NInf => PInf
  | PInf, NInf | NInf, PInf => NInf
  end.

Definition ddiv (a b : dbl) : dbl :=
  match a, b with
  | NaN, _ | _, NaN => NaN
  | Fin x, Fin y =>
      if Req_dec_T y 0 then scaled_infinity x PInf NInf else fl (x / y)
  | Fin _, PInf | Fin _, NInf => Fin 0
  | PInf, Fin y => if Rlt_dec y 0 then NInf else PInf
  | NInf, Fin y => if Rlt_dec y 0 then PInf else NInf
  | PInf, PInf | PInf, NInf | NInf, PInf | NInf, NInf => NaN
  end.

(** [pow (x, y)] of math.h on finite arguments: 1 for [y = 0]; the power
    for a positive base; 0 or infinity for base 0; for a negative base the
    signed power when [y] is an integer and not a number when it is not. *)
Definition dpow (x y : R) : dbl :=
  if Req_dec_T y 0 then Fin 1
  else if Rlt_dec 0 x then fl (Rpower x y)
  else if Req_dec_T x 0 then (if Rlt_dec 0 y then Fin 0 else PInf)
  else if Req_dec_T (IZR (Int_part y)) y then
    (if Z.even (Int_part y) then fl (Rpower (- x) y)
     else fl (- Rpower (- x) y))
  else NaN.

(** [a > y] and [a <= y] as the machine decides them: both are false for
    not a number. *)
Definition dgt (a : dbl) (y : R) : bool :=
  match a with
  | Fin x => x >? y
  | PInf => true
  | NInf | NaN => false
  end.


(** *** The cell

    The fields of the plasma structure that [ionization.c] reads or writes
    (fields that only appear in messages are left out). *)

Record plasma := {
  t_e : R;
  t_r : R;
  t_e_old : R;
  t_r_old : R;
  dt_e : R;
  dt_e_old : R;
  gain : R;
  heat_tot : R;
  heat_lines : R;
  heat_lines_macro : R;
  heat_photo : R;
  heat_photo_macro : R;
  lum_rad : R;
  lum_rad_old : R;
  lum_adiabatic : R;
  lum_dr : R;
  lum_comp : R;
  ave_freq : R;
  ne : R;
  xj : list R;
  xave_freq : list R;
  nxtot : list Z;
  sim_alpha : list R;
  sim_w : list R;
  converge_t_r : R;
  converge_t_e : R;
  converge_hc : R;
  trcheck : Z;
  techeck : Z;
  hccheck : Z;
  converge_whole : Z;
  converging : Z;
  nwind : Z
}.

Definition set_t_e (v : R) (c : plasma) : plasma :=
  {| t_e := v; t_r := t_r c; t_e_old := t_e_old c; t_r_old := t_r_old c;
     dt_e := dt_e c; dt_e_old := dt_e_old c; gain := gain c;
     heat_tot := heat_tot c; heat_lines := heat_lines c;
     heat_lines_macro := heat_lines_macro c; heat_photo := heat_photo c;
     heat_photo_macro := heat_photo_macro c; lum_rad := lum_rad c;
     lum_rad_old := lum_rad_old c; lum_adiabatic := lum_adiabatic c;
     lum_dr := lum_dr c; lum_comp := lum_comp c; ave_freq := ave_freq c;
     ne := ne c; xj := xj c; xave_freq := xave_freq c; nxtot := nxtot c;
     sim_alpha := sim_alpha c; sim_w := sim_w c;
     converge_t_r := converge_t_r c; converge_t_e := converge_t_e c;
     converge_hc := converge_hc c; trcheck := trcheck c;
     techeck := techeck c; hccheck := hccheck c;
     converge_whole := converge_whole c; converging := converging c;
     nwind := nwind c |}.
Definition set_t_e_old (v : R) (c : plasma) : plasma :=
  {| t_e := t_e c; t_r := t_r c; t_e_old := v; t_r_old := t_r_old c;
     dt_e := dt_e c; dt_e_old := dt_e_old c; gain := gain c;
     heat_tot := heat_tot c; heat_lines := heat_lines c;
     heat_lines_macro := heat_lines_macro c; heat_photo := heat_photo c;
     heat_photo_macro := heat_photo_macro c; lum_rad := lum_rad c;
     lum_rad_old := lum_rad_old c; lum_adiabatic := lum_adiabatic c;
     lum_dr := lum_dr c; lum_comp := lum_comp c; ave_freq := ave_freq c;
     ne := ne c; xj := xj c; xave_freq := xave_freq c; nxtot := nxtot c;
     sim_alpha := sim_alpha c; sim_w := sim_w c;
     converge_t_r := converge_t_r c; converge_t_e := converge_t_e c;
     converge_hc := converge_hc c; trcheck := trcheck c;
     techeck := techeck c; hccheck := hccheck c;
     converge_whole := converge_whole c; converging := converging c;
     nwind := nwind c |}.
Definition set_t_r_old (v : R) (c : plasma) : plasma :=
  {| t_e := t_e c; t_r := t_r c; t_e_old := t_e_old c; t_r_old := v;
     dt_e := dt_e c; dt_e_old := dt_e_old c; gain := gain c;
     heat_tot := heat_tot c; heat_lines := heat_lines c;
     heat_lines_macro := heat_lines_macro c; heat_photo := heat_photo c;
     heat_photo_macro := heat_photo_macro c; lum_rad := lum_rad c;
     lum_rad_old := lum_rad_old c; lum_adiabatic := lum_adiabatic c;
     lum_dr := lum_dr c; lum_comp := lum_comp c; ave_freq := ave_freq c;
     ne := ne c; xj := xj c; xave_freq := xave_freq c; nxtot := nxtot c;
     sim_alpha := sim_alpha c; sim_w := sim_w c;
     converge_t_r := converge_t_r c; converge_t_e := converge_t_e c;
     converge_hc := converge_hc c; trcheck := trcheck c;
     techeck := techeck c; hccheck := hccheck c;
     converge_whole := converge_whole c; converging := converging c;
     nwind := nwind c |}.
Definition set_dt_e (v : R) (c : plasma) : plasma :=
  {| t_e := t_e c; t_r := t_r c; t_e_old := t_e_old c; t_r_old := t_r_old c;
     dt_e := v; dt_e_old := dt_e_old c; gain := gain c;
     heat_tot := heat_tot c; heat_lines := heat_lines c;
     heat_lines_macro := heat_lines_macro c; heat_photo := heat_photo c;
     heat_photo_macro := heat_photo_macro c; lum_rad := lum_rad c;
     lum_rad_old := lum_rad_old c; lum_adiabatic := lum_adiabatic c;
     lum_dr := lum_dr c; lum_comp := lum_comp c; ave_freq := ave_freq c;
     ne := ne c; xj := xj c; xave_freq := xave_freq c; nxtot := nxtot c;
     sim_alpha := sim_alpha c; sim_w := sim_w c;
     converge_t_r := converge_t_r c; converge_t_e := converge_t_e c;
     converge_hc := converge_hc c; trcheck := trcheck c;
     techeck := techeck c; hccheck := hccheck c;
     converge_whole := converge_whole c; converging := converging c;
     nwind := nwind c |}.
Definition set_dt_e_old (v : R) (c : plasma) : plasma :=
  {| t_e := t_e c; t_r := t_r c; t_e_old := t_e_old c; t_r_old := t_r_old c;
     dt_e := dt_e c; dt_e_old := v; gain := gain c; heat_tot := heat_tot c;
     heat_lines := heat_lines c; heat_lines_macro := heat_lines_macro c;
     heat_photo := heat_photo c; heat_photo_macro := heat_photo_macro c;
     lum_rad := lum_rad c; lum_rad_old := lum_rad_old c;
     lum_adiabatic := lum_adiabatic c; lum_dr := lum_dr c;
     lum_comp := lum_comp c; ave_freq := ave_freq c; ne := ne c; xj := xj c;
     xave_freq := xave_freq c; nxtot := nxtot c; sim_alpha := sim_alpha c;
     sim_w := sim_w c; converge_t_r := converge_t_r c;
     converge_t_e := converge_t_e c; converge_hc := converge_hc c;
     trcheck := trcheck c; techeck := techeck c; hccheck := hccheck c;
     converge_whole := converge_whole c; converging := converging c;
     nwind := nwind c |}.
Definition set_gain (v : R) (c : plasma) : plasma :=
  {| t_e := t_e c; t_r := t_r c; t_e_old := t_e_old c; t_r_old := t_r_old c;
     dt_e := dt_e c; dt_e_old := dt_e_old c; gain := v;
     heat_tot := heat_tot c; heat_lines := heat_lines c;
     heat_lines_macro := heat_lines_macro c; heat_photo := heat_photo c;
     heat_photo_macro := heat_photo_macro c; lum_rad := lum_rad c;
     lum_rad_old := lum_rad_old c; lum_adiabatic := lum_adiabatic c;
     lum_dr := lum_dr c; lum_comp := lum_comp c; ave_freq := ave_freq c;
     ne := ne c; xj := xj c; xave_freq := xave_freq c; nxtot := nxtot c;
     sim_alpha := sim_alpha c; sim_w := sim_w c;
     converge_t_r := converge_t_r c; converge_t_e := converge_t_e c;
     converge_hc := converge_hc c; trcheck := trcheck c;
     techeck := techeck c; hccheck := hccheck c;
     converge_whole := converge_whole c; converging := converging c;
     nwind := nwind c |}.
Definition set_heat_tot (v : R) (c : plasma) : plasma :=
  {| t_e := t_e c; t_r := t_r c; t_e_old := t_e_old c; t_r_old := t_r_old c;
     dt_e := dt_e c; dt_e_old := dt_e_old c; gain := gain c; heat_tot := v;
     heat_lines := heat_lines c; heat_lines_macro := heat_lines_macro c;
     heat_photo := heat_photo c; heat_photo_macro := heat_photo_macro c;
     lum_rad := lum_rad c; lum_rad_old := lum_rad_old c;
     lum_adiabatic := lum_adiabatic c; lum_dr := lum_dr c;
     lum_comp := lum_comp c; ave_freq := ave_freq c; ne := ne c; xj := xj c;
     xave_freq := xave_freq c; nxtot := nxtot c; sim_alpha := sim_alpha c;
     sim_w := sim_w c; converge_t_r := converge_t_r c;
     converge_t_e := converge_t_e c; converge_hc := converge_hc c;
     trcheck := trcheck c; techeck := techeck c; hccheck := hccheck c;
     converge_whole := converge_whole c; converging := converging c;
     nwind := nwind c |}.
Definition set_heat_lines (v : R) (c : plasma) : plasma :=
  {| t_e := t_e c; t_r := t_r c; t_e_old := t_e_old c; t_r_old := t_r_old c;
     dt_e := dt_e c; dt_e_old := dt_e_old c; gain := gain c;
     heat_tot := heat_tot c; heat_lines := v;
     heat_lines_macro := heat_lines_macro c; heat_photo := heat_photo c;
     heat_photo_macro := heat_photo_macro c; lum_rad := lum_rad c;
     lum_rad_old := lum_rad_old c; lum_adiabatic := lum_adiabatic c;
     lum_dr := lum_dr c; lum_comp := lum_comp c; ave_freq := ave_freq c;
     ne := ne c; xj := xj c; xave_freq := xave_freq c; nxtot := nxtot c;
     sim_alpha := sim_alpha c; sim_w := sim_w c;
     converge_t_r := converge_t_r c; converge_t_e := converge_t_e c;
     converge_hc := converge_hc c; trcheck := trcheck c;
     techeck := techeck c; hccheck := hccheck c;
     converge_whole := converge_whole c; converging := converging c;
     nwind := nwind c |}.
Definition set_heat_lines_macro (v : R) (c : plasma) : plasma :=
  {| t_e := t_e c; t_r := t_r c; t_e_old := t_e_old c; t_r_old := t_r_old c;
     dt_e := dt_e c; dt_e_old := dt_e_old c; gain := gain c;
     heat_tot := heat_tot c; heat_lines := heat_lines c;
     heat_lines_macro := v; heat_photo := heat_photo c;
     heat_photo_macro := heat_photo_macro c; lum_rad := lum_rad c;
     lum_rad_old := lum_rad_old c; lum_adiabatic := lum_adiabatic c;
     lum_dr := lum_dr c; lum_comp := lum_comp c; ave_freq := ave_freq c;
     ne := ne c; xj := xj c; xave_freq := xave_freq c; nxtot := nxtot c;
     sim_alpha := sim_alpha c; sim_w := sim_w c;
     converge_t_r := converge_t_r c; converge_t_e := converge_t_e c;
     converge_hc := converge_hc c; trcheck := trcheck c;
     techeck := techeck c; hccheck := hccheck c;
     converge_whole := converge_whole c; converging := converging c;
     nwind := nwind c |}.
Definition set_heat_photo (v : R) (c : plasma) : plasma :=
  {| t_e := t_e c; t_r := t_r c; t_e_old := t_e_old c; t_r_old := t_r_old c;
     dt_e := dt_e c; dt_e_old := dt_e_old c; gain := gain c;
     heat_tot := heat_tot c; heat_lines := heat_lines c;
     heat_lines_macro := heat_lines_macro c; heat_photo := v;
     heat_photo_macro := heat_photo_macro c; lum_rad := lum_rad c;
     lum_rad_old := lum_rad_old c; lum_adiabatic := lum_adiabatic c;
     lum_dr := lum_dr c; lum_comp := lum_comp c; ave_freq := ave_freq c;
     ne := ne c; xj := xj c; xave_freq := xave_freq c; nxtot := nxtot c;
     sim_alpha := sim_alpha c; sim_w := sim_w c;
     converge_t_r := converge_t_r c; converge_t_e := converge_t_e c;
     converge_hc := converge_hc c; trcheck := trcheck c;
     techeck := techeck c; hccheck := hccheck c;
     converge_whole := converge_whole c; converging := converging c;
     nwind := nwind c |}.
Definition set_heat_photo_macro (v : R) (c : plasma) : plasma :=
  {| t_e := t_e c; t_r := t_r c; t_e_old := t_e_old c; t_r_old := t_r_old c;
     dt_e := dt_e c; dt_e_old := dt_e_old c; gain := gain c;
     heat_tot := heat_tot c; heat_lines := heat_lines c;
     heat_lines_macro := heat_lines_macro c; heat_photo := heat_photo c;
     heat_photo_macro := v; lum_rad := lum_rad c;
     lum_rad_old := lum_rad_old c; lum_adiabatic := lum_adiabatic c;
     lum_dr := lum_dr c; lum_comp := lum_comp c; ave_freq := ave_freq c;
     ne := ne c; xj := xj c; xave_freq := xave_freq c; nxtot := nxtot c;
     sim_alpha := sim_alpha c; sim_w := sim_w c;
     converge_t_r := converge_t_r c; converge_t_e := converge_t_e c;
     converge_hc := converge_hc c; trcheck := trcheck c;
     techeck := techeck c; hccheck := hccheck c;
     converge_whole := converge_whole c; converging := converging c;
     nwind := nwind c |}.
Definition set_lum_rad_old (v : R) (c : plasma) : plasma :=
  {| t_e := t_e c; t_r := t_r c; t_e_old := t_e_old c; t_r_old := t_r_old c;
     dt_e := dt_e c; dt_e_old := dt_e_old c; gain := gain c;
     heat_tot := heat_tot c; heat_lines := heat_lines c;
     heat_lines_macro := heat_lines_macro c; heat_photo := heat_photo c;
     heat_photo_macro := heat_photo_macro c; lum_rad := lum_rad c;
     lum_rad_old := v; lum_adiabatic := lum_adiabatic c; lum_dr := lum_dr c;
     lum_comp := lum_comp c; ave_freq := ave_freq c; ne := ne c; xj := xj c;
     xave_freq := xave_freq c; nxtot := nxtot c; sim_alpha := sim_alpha c;
     sim_w := sim_w c; converge_t_r := converge_t_r c;
     converge_t_e := converge_t_e c; converge_hc := converge_hc c;
     trcheck := trcheck c; techeck := techeck c; hccheck := hccheck c;
     converge_whole := converge_whole c; converging := converging c;
     nwind := nwind c |}.
Definition set_lum_adiabatic (v : R) (c : plasma) : plasma :=
  {| t_e := t_e c; t_r := t_r c; t_e_old := t_e_old c; t_r_old := t_r_old c;
     dt_e := dt_e c; dt_e_old := dt_e_old c; gain := gain c;
     heat_tot := heat_tot c; heat_lines := heat_lines c;
     heat_lines_macro := heat_lines_macro c; heat_photo := heat_photo c;
     heat_photo_macro := heat_photo_macro c; lum_rad := lum_rad c;
     lum_rad_old := lum_rad_old c; lum_adiabatic := v; lum_dr := lum_dr c;
     lum_comp := lum_comp c; ave_freq := ave_freq c; ne := ne c; xj := xj c;
     xave_freq := xave_freq c; nxtot := nxtot c; sim_alpha := sim_alpha c;
     sim_w := sim_w c; converge_t_r := converge_t_r c;
     converge_t_e := converge_t_e c; converge_hc := converge_hc c;
     trcheck := trcheck c; techeck := techeck c; hccheck := hccheck c;
     converge_whole := converge_whole c; converging := converging c;
     nwind := nwind c |}.
Definition set_lum_dr (v : R) (c : plasma) : plasma :=
  {| t_e := t_e c; t_r := t_r c; t_e_old := t_e_old c; t_r_old := t_r_old c;
     dt_e := dt_e c; dt_e_old := dt_e_old c; gain := gain c;
     heat_tot := heat_tot c; heat_lines := heat_lines c;
     heat_lines_macro := heat_lines_macro c; heat_photo := heat_photo c;
     heat_photo_macro := heat_photo_macro c; lum_rad := lum_rad c;
     lum_rad_old := lum_rad_old c; lum_adiabatic := lum_adiabatic c;
     lum_dr := v; lum_comp := lum_comp c; ave_freq := ave_freq c; ne := ne c;
     xj := xj c; xave_freq := xave_freq c; nxtot := nxtot c;
     sim_alpha := sim_alpha c; sim_w := sim_w c;
     converge_t_r := converge_t_r c; converge_t_e := converge_t_e c;
     converge_hc := converge_hc c; trcheck := trcheck c;
     techeck := techeck c; hccheck := hccheck c;
     converge_whole := converge_whole c; converging := converging c;
     nwind := nwind c |}.
Definition set_lum_comp (v : R) (c : plasma) : plasma :=
  {| t_e := t_e c; t_r := t_r c; t_e_old := t_e_old c; t_r_old := t_r_old c;
     dt_e := dt_e c; dt_e_old := dt_e_old c; gain := gain c;
     heat_tot := heat_tot c; heat_lines := heat_lines c;
     heat_lines_macro := heat_lines_macro c; heat_photo := heat_photo c;
     heat_photo_macro := heat_photo_macro c; lum_rad := lum_rad c;
     lum_rad_old := lum_rad_old c; lum_adiabatic := lum_adiabatic c;
     lum_dr := lum_dr c; lum_comp := v; ave_freq := ave_freq c; ne := ne c;
     xj := xj c; xave_freq := xave_freq c; nxtot := nxtot c;
     sim_alpha := sim_alpha c; sim_w := sim_w c;
     converge_t_r := converge_t_r c; converge_t_e := converge_t_e c;
     converge_hc := converge_hc c; trcheck := trcheck c;
     techeck := techeck c; hccheck := hccheck c;
     converge_whole := converge_whole c; converging := converging c;
     nwind := nwind c |}.
Definition set_sim_alpha (v : list R) (c : plasma) : plasma :=
  {| t_e := t_e c; t_r := t_r c; t_e_old := t_e_old c; t_r_old := t_r_old c;
     dt_e := dt_e c; dt_e_old := dt_e_old c; gain := gain c;
     heat_tot := heat_tot c; heat_lines := heat_lines c;
     heat_lines_macro := heat_lines_macro c; heat_photo := heat_photo c;
     heat_photo_macro := heat_photo_macro c; lum_rad := lum_rad c;
     lum_rad_old := lum_rad_old c; lum_adiabatic := lum_adiabatic c;
     lum_dr := lum_dr c; lum_comp := lum_comp c; ave_freq := ave_freq c;
     ne := ne c; xj := xj c; xave_freq := xave_freq c; nxtot := nxtot c;
     sim_alpha := v; sim_w := sim_w c; converge_t_r := converge_t_r c;
     converge_t_e := converge_t_e c; converge_hc := converge_hc c;
     trcheck := trcheck c; techeck := techeck c; hccheck := hccheck c;
     converge_whole := converge_whole c; converging := converging c;
     nwind := nwind c |}.
Definition set_sim_w (v : list R) (c : plasma) : plasma :=
  {| t_e := t_e c; t_r := t_r c; t_e_old := t_e_old c; t_r_old := t_r_old c;
     dt_e := dt_e c; dt_e_old := dt_e_old c; gain := gain c;
     heat_tot := heat_tot c; heat_lines := heat_lines c;
     heat_lines_macro := heat_lines_macro c; heat_photo := heat_photo c;
     heat_photo_macro := heat_photo_macro c; lum_rad := lum_rad c;
     lum_rad_old := lum_rad_old c; lum_adiabatic := lum_adiabatic c;
     lum_dr := lum_dr c; lum_comp := lum_comp c; ave_freq := ave_freq c;
     ne := ne c; xj := xj c; xave_freq := xave_freq c; nxtot := nxtot c;
     sim_alpha := sim_alpha c; sim_w := v; converge_t_r := converge_t_r c;
     converge_t_e := converge_t_e c; converge_hc := converge_hc c;
     trcheck := trcheck c; techeck := techeck c; hccheck := hccheck c;
     converge_whole := converge_whole c; converging := converging c;
     nwind := nwind c |}.
Definition set_converge_t_r (v : R) (c : plasma) : plasma :=
  {| t_e := t_e c; t_r := t_r c; t_e_old := t_e_old c; t_r_old := t_r_old c;
     dt_e := dt_e c; dt_e_old := dt_e_old c; gain := gain c;
     heat_tot := heat_tot c; heat_lines := heat_lines c;
     heat_lines_macro := heat_lines_macro c; heat_photo := heat_photo c;
     heat_photo_macro := heat_photo_macro c; lum_rad := lum_rad c;
     lum_rad_old := lum_rad_old c; lum_adiabatic := lum_adiabatic c;
     lum_dr := lum_dr c; lum_comp := lum_comp c; ave_freq := ave_freq c;
     ne := ne c; xj := xj c; xave_freq := xave_freq c; nxtot := nxtot c;
     sim_alpha := sim_alpha c; sim_w := sim_w c; converge_t_r := v;
     converge_t_e := converge_t_e c; converge_hc := converge_hc c;
     trcheck := trcheck c; techeck := techeck c; hccheck := hccheck c;
     converge_whole := converge_whole c; converging := converging c;
     nwind := nwind c |}.
Definition set_converge_t_e (v : R) (c : plasma) : plasma :=
  {| t_e := t_e c; t_r := t_r c; t_e_old := t_e_old c; t_r_old := t_r_old c;
     dt_e := dt_e c; dt_e_old := dt_e_old c; gain := gain c;
     heat_tot := heat_tot c; heat_lines := heat_lines c;
     heat_lines_macro := heat_lines_macro c; heat_photo := heat_photo c;
     heat_photo_macro := heat_photo_macro c; lum_rad := lum_rad c;
     lum_rad_old := lum_rad_old c; lum_adiabatic := lum_adiabatic c;
     lum_dr := lum_dr c; lum_comp := lum_comp c; ave_freq := ave_freq c;
     ne := ne c; xj := xj c; xave_freq := xave_freq c; nxtot := nxtot c;
     sim_alpha := sim_alpha c; sim_w := sim_w c;
     converge_t_r := converge_t_r c; converge_t_e := v;
     converge_hc := converge_hc c; trcheck := trcheck c;
     techeck := techeck c; hccheck := hccheck c;
     converge_whole := converge_whole c; converging := converging c;
     nwind := nwind c |}.
Definition set_converge_hc (v : R) (c : plasma) : plasma :=
  {| t_e := t_e c; t_r := t_r c; t_e_old := t_e_old c; t_r_old := t_r_old c;
     dt_e := dt_e c; dt_e_old := dt_e_old c; gain := gain c;
     heat_tot := heat_tot c; heat_lines := heat_lines c;
     heat_lines_macro := heat_lines_macro c; heat_photo := heat_photo c;
     heat_photo_macro := heat_photo_macro c; lum_rad := lum_rad c;
     lum_rad_old := lum_rad_old c; lum_adiabatic := lum_adiabatic c;
     lum_dr := lum_dr c; lum_comp := lum_comp c; ave_freq := ave_freq c;
     ne := ne c; xj := xj c; xave_freq := xave_freq c; nxtot := nxtot c;
     sim_alpha := sim_alpha c; sim_w := sim_w c;
     converge_t_r := converge_t_r c; converge_t_e := converge_t_e c;
     converge_hc := v; trcheck := trcheck c; techeck := techeck c;
     hccheck := hccheck c; converge_whole := converge_whole c;
     converging := converging c; nwind := nwind c |}.
Definition set_trcheck (v : Z) (c : plasma) : plasma :=
  {| t_e := t_e c; t_r := t_r c; t_e_old := t_e_old c; t_r_old := t_r_old c;
     dt_e := dt_e c; dt_e_old := dt_e_old c; gain := gain c;
     heat_tot := heat_tot c; heat_lines := heat_lines c;
     heat_lines_macro := heat_lines_macro c; heat_photo := heat_photo c;
     heat_photo_macro := heat_photo_macro c; lum_rad := lum_rad c;
     lum_rad_old := lum_rad_old c; lum_adiabatic := lum_adiabatic c;
     lum_dr := lum_dr c; lum_comp := lum_comp c; ave_freq := ave_freq c;
     ne := ne c; xj := xj c; xave_freq := xave_freq c; nxtot := nxtot c;
     sim_alpha := sim_alpha c; sim_w := sim_w c;
     converge_t_r := converge_t_r c; converge_t_e := converge_t_e c;
     converge_hc := converge_hc c; trcheck := v; techeck := techeck c;
     hccheck := hccheck c; converge_whole := converge_whole c;
     converging := converging c; nwind := nwind c |}.
Definition set_techeck (v : Z) (c : plasma) : plasma :=
  {| t_e := t_e c; t_r := t_r c; t_e_old := t_e_old c; t_r_old := t_r_old c;
     dt_e := dt_e c; dt_e_old := dt_e_old c; gain := gain c;
     heat_tot := heat_tot c; heat_lines := heat_lines c;
     heat_lines_macro := heat_lines_macro c; heat_photo := heat_photo c;
     heat_photo_macro := heat_photo_macro c; lum_rad := lum_rad c;
     lum_rad_old := lum_rad_old c; lum_adiabatic := lum_adiabatic c;
     lum_dr := lum_dr c; lum_comp := lum_comp c; ave_freq := ave_freq c;
     ne := ne c; xj := xj c; xave_freq := xave_freq c; nxtot := nxtot c;
     sim_alpha := sim_alpha c; sim_w := sim_w c;
     converge_t_r := converge_t_r c; converge_t_e := converge_t_e c;
     converge_hc := converge_hc c; trcheck := trcheck c; techeck := v;
     hccheck := hccheck c; converge_whole := converge_whole c;
     converging := converging c; nwind := nwind c |}.
Definition set_hccheck (v : Z) (c : plasma) : plasma :=
  {| t_e := t_e c; t_r := t_r c; t_e_old := t_e_old c; t_r_old := t_r_old c;
     dt_e := dt_e c; dt_e_old := dt_e_old c; gain := gain c;
     heat_tot := heat_tot c; heat_lines := heat_lines c;
     heat_lines_macro := heat_lines_macro c; heat_photo := heat_photo c;
     heat_photo_macro := heat_photo_macro c; lum_rad := lum_rad c;
     lum_rad_old := lum_rad_old c; lum_adiabatic := lum_adiabatic c;
     lum_dr := lum_dr c; lum_comp := lum_comp c; ave_freq := ave_freq c;
     ne := ne c; xj := xj c; xave_freq := xave_freq c; nxtot := nxtot c;
     sim_alpha := sim_alpha c; sim_w := sim_w c;
     converge_t_r := converge_t_r c; converge_t_e := converge_t_e c;
     converge_hc := converge_hc c; trcheck := trcheck c;
     techeck := techeck c; hccheck := v; converge_whole := converge_whole c;
     converging := converging c; nwind := nwind c |}.
Definition set_converge_whole (v : Z) (c : plasma) : plasma :=
  {| t_e := t_e c; t_r := t_r c; t_e_old := t_e_old c; t_r_old := t_r_old c;
     dt_e := dt_e c; dt_e_old := dt_e_old c; gain := gain c;
     heat_tot := heat_tot c; heat_lines := heat_lines c;
     heat_lines_macro := heat_lines_macro c; heat_photo := heat_photo c;
     heat_photo_macro := heat_photo_macro c; lum_rad := lum_rad c;
     lum_rad_old := lum_rad_old c; lum_adiabatic := lum_adiabatic c;
     lum_dr := lum_dr c; lum_comp := lum_comp c; ave_freq := ave_freq c;
     ne := ne c; xj := xj c; xave_freq := xave_freq c; nxtot := nxtot c;
     sim_alpha := sim_alpha c; sim_w := sim_w c;
     converge_t_r := converge_t_r c; converge_t_e := converge_t_e c;
     converge_hc := converge_hc c; trcheck := trcheck c;
     techeck := techeck c; hccheck := hccheck c; converge_whole := v;
     converging := converging c; nwind := nwind c |}.
Definition set_converging (v : Z) (c : plasma) : plasma :=
  {| t_e := t_e c; t_r := t_r c; t_e_old := t_e_old c; t_r_old := t_r_old c;
     dt_e := dt_e c; dt_e_old := dt_e_old c; gain := gain c;
     heat_tot := heat_tot c; heat_lines := heat_lines c;
     heat_lines_macro := heat_lines_macro c; heat_photo := heat_photo c;
     heat_photo_macro := heat_photo_macro c; lum_rad := lum_rad c;
     lum_rad_old := lum_rad_old c; lum_adiabatic := lum_adiabatic c;
     lum_dr := lum_dr c; lum_comp := lum_comp c; ave_freq := ave_freq c;
     ne := ne c; xj := xj c; xave_freq := xave_freq c; nxtot := nxtot c;
     sim_alpha := sim_alpha c; sim_w := sim_w c;
     converge_t_r := converge_t_r c; converge_t_e := converge_t_e c;
     converge_hc := converge_hc c; trcheck := trcheck c;
     techeck := techeck c; hccheck := hccheck c;
     converge_whole := converge_whole c; converging := v; nwind := nwind c |}.

(** A cell whose every field is zero, as [calloc] leaves it. *)
Definition zero_cell : plasma :=
  {| t_e := 0; t_r := 0; t_e_old := 0; t_r_old := 0; dt_e := 0; dt_e_old := 0;
     gain := 0; heat_tot := 0; heat_lines := 0; heat_lines_macro := 0;
     heat_photo := 0; heat_photo_macro := 0; lum_rad := 0; lum_rad_old := 0;
     lum_adiabatic := 0; lum_dr := 0; lum_comp := 0; ave_freq := 0; ne := 0;
     xj := []; xave_freq := []; nxtot := []; sim_alpha := []; sim_w := [];
     converge_t_r := 0; converge_t_e := 0; converge_hc := 0;
     trcheck := 0; techeck := 0; hccheck := 0; converge_whole := 0;
     converging := 0; nwind := 0 |}.

#[global] Instance plasma_inhabited : Inhabited plasma := populate zero_cell.

(** *** The process-wide state

    [plasmamain] is the array of cells; a [PlasmaPtr] is an index into it.
    [xxxplasma] is the file's scratch pointer through which [zero_emit]
    reaches the cell [calc_te] works on. [sim_numin], [sim_numax] and
    [sim_meanfreq] are the file's three globals read by [sim_alpha_func].
    [dr_coeffs] stands for the table [compute_dr_coeffs] fills: it records
    the temperature the table was last prepared for. *)
Record mem := {
  plasmamain : list plasma;
  xxxplasma : nat;
  sim_numin : R;
  sim_numax : R;
  sim_meanfreq : R;
  dr_coeffs : R
}.

Definition set_plasmamain (v : list plasma) (m : mem) : mem :=
  {| plasmamain := v; xxxplasma := xxxplasma m; sim_numin := sim_numin m;
     sim_numax := sim_numax m; sim_meanfreq := sim_meanfreq m;
     dr_coeffs := dr_coeffs m |}.
Definition set_xxxplasma (v : nat) (m : mem) : mem :=
  {| plasmamain := plasmamain m; xxxplasma := v; sim_numin := sim_numin m;
     sim_numax := sim_numax m; sim_meanfreq := sim_meanfreq m;
     dr_coeffs := dr_coeffs m |}.
Definition set_sim_numin (v : R) (m : mem) : mem :=
  {| plasmamain := plasmamain m; xxxplasma := xxxplasma m; sim_numin := v;
     sim_numax := sim_numax m; sim_meanfreq := sim_meanfreq m;
     dr_coeffs := dr_coeffs m |}.
Definition set_sim_numax (v : R) (m : mem) : mem :=
  {| plasmamain := plasmamain m; xxxplasma := xxxplasma m; sim_numin := sim_numin m;
     sim_numax := v; sim_meanfreq := sim_meanfreq m; dr_coeffs := dr_coeffs m |}.
Definition set_sim_meanfreq (v : R) (m : mem) : mem :=
  {| plasmamain := plasmamain m; xxxplasma := xxxplasma m; sim_numin := sim_numin m;
     sim_numax := sim_numax m; sim_meanfreq := v; dr_coeffs := dr_coeffs m |}.
Definition set_dr_coeffs (v : R) (m : mem) : mem :=
  {| plasmamain := plasmamain m; xxxplasma := xxxplasma m; sim_numin := sim_numin m;
     sim_numax := sim_numax m; sim_meanfreq := sim_meanfreq m; dr_coeffs := v |}.

(** [*p], [*p = c] and an assignment to a field of [*p]. *)
Definition cell (m : mem) (p : nat) : plasma := plasmamain m !!! p.
Definition store (p : nat) (c : plasma) (m : mem) : mem :=
  set_plasmamain (<[p := c]> (plasmamain m)) m.
Definition modify (p : nat) (upd : plasma -> plasma) (m : mem) : mem :=
  store p (upd (cell m p)) m.

Definition NPLASMA (m : mem) : nat := length (plasmamain m).

(** *** Results

    A call either returns, leaves the process through [exit], or is still
    in the bracket-widening loop when the fuel of the model runs out. *)
Inductive outcome (A : Type) : Type :=
  | Done (a : A)
  | Exit
  | Diverge.
Arguments Done {A} a.
Arguments Exit {A}.
Arguments Diverge {A}.

#[global] Instance outcome_ret : MRet outcome := fun A a => Done a.
#[global] Instance outcome_bind : MBind outcome := fun A B k o =>
  match o with
  | Done a => k a
  | Exit => Exit
  | Diverge => Diverge
  end.

(** *** The root finder

    [zbrent (func, x1, x2, tol)] only learns about [func] by calling it, so
    a root finder is the strategy it follows: which point it asks for next,
    given the values it has seen, and what it returns in the end. Running
    a strategy against a callback threads the state the callback changes. *)
Inductive solver : Type :=
  | Ret (x : R)
  | Ask (t : R) (k : R -> solver).

Fixpoint run {S : Type} (sv : solver) (func : R -> S -> R * S) (s : S) : R * S :=
  match sv with
  | Ret x => (x, s)
  | Ask t k => let '(y, s') := func t s in run (k y) func s'
  end.

(** *** What the file consumes from the rest of the program

    The band table, a field of [geo], a constant, and the callables.
    A callable that takes a cell pointer and returns a double reads the
    cell; one that updates the cell returns the new cell as well. The
    cooling routines take the wind cell [&wmain[nwind]], which leads back to
    the plasma cell, so they read the plasma cell too. *)
Class Physics := {
  xband_f1 : list R;
  xband_f2 : list R;
  xband_nbands : nat;
  xfreq : list R;
  nxfreq : nat;
  geo_auger_ionization : Z;
  VERY_BIG : R;
  nebular_concentrations : plasma -> Z -> Z * plasma;
  fix_concentrations : plasma -> Z -> Z * plasma;
  auger_ionization : plasma -> plasma;
  macro_bb_heating : plasma -> R -> R;
  macro_bf_heating : plasma -> R -> R;
  adiabatic_cooling : plasma -> R -> R;
  total_dr : R -> plasma -> R -> R;
  total_comp : plasma -> R -> R;
  total_emission : plasma -> R -> R -> R;
  zbrent : R -> R -> R -> solver;
  sim_w_func : R -> R -> R -> R -> R -> R -> option R
}.

(** Modelled from the spec: [sane_check] is not in the two files; it
    "returns true iff x is non-finite or otherwise unusable". *)
Definition sane_check (x : option R) : Z :=
  match x with
  | Some _ => 0%Z
  | None => (-1)%Z
  end.

Section code.
Context {phys : Physics}.

(** [compute_dr_coeffs (t)] fills the table [total_dr] reads. *)
Definition compute_dr_coeffs (t : R) (m : mem) : mem := set_dr_coeffs t m.

(** [sim_alpha_func] twice: the value of its expression over the real
    numbers, which is what the machine computes, up to rounding, whenever
    every intermediate result is an ordinary number; and the result of the
    machine, [sim_alpha_func_fp], which also covers the slopes -1 and -2,
    where a divisor is 0, and the slopes at which [pow] overflows or
    underflows. The root finder is handed the former, the test of the
    [while] loop is made on the latter. *)
Definition sim_alpha_func (m : mem) (alpha : R) : R :=
  let answer :=
    ((alpha + 1) / (alpha + 2)) *
    ((pow (sim_numax m) (alpha + 2) - pow (sim_numin m) (alpha + 2)) /
     (pow (sim_numax m) (alpha + 1) - pow (sim_numin m) (alpha + 1))) in
  answer - sim_meanfreq m.

Definition sim_alpha_func_fp (m : mem) (alpha : R) : dbl :=
  let answer :=
    dmul (ddiv (fl (alpha + 1)) (fl (alpha + 2)))
         (ddiv (dsub (dpow (sim_numax m) (alpha + 2))
                     (dpow (sim_numin m) (alpha + 2)))
               (dsub (dpow (sim_numax m) (alpha + 1))
                     (dpow (sim_numin m) (alpha + 1)))) in
  dsub answer (Fin (sim_meanfreq m)).

Definition zero_emit (t : R) (m : mem) : R * mem :=
  let xp := xxxplasma m in
  let m := modify xp (set_t_e t) m in
  let m := modify xp (fun c => set_heat_tot (heat_tot c - heat_lines_macro c) c) m in
  let m := modify xp (fun c => set_heat_lines (heat_lines c - heat_lines_macro c) c) m in
  let m := modify xp (fun c => set_heat_lines_macro (macro_bb_heating c t) c) m in
  let m := modify xp (fun c => set_heat_tot (heat_tot c + heat_lines_macro c) c) m in
  let m := modify xp (fun c => set_heat_lines (heat_lines c + heat_lines_macro c) c) m in
  let m := modify xp (fun c => set_heat_tot (heat_tot c - heat_photo_macro c) c) m in
  let m := modify xp (fun c => set_heat_photo (heat_photo c - heat_photo_macro c) c) m in
  let m := modify xp (fun c => set_heat_photo_macro (macro_bf_heating c t) c) m in
  let m := modify xp (fun c => set_heat_tot (heat_tot c + heat_photo_macro c) c) m in
  let m := modify xp (fun c => set_heat_photo (heat_photo c + heat_photo_macro c) c) m in
  let m := modify xp (fun c => set_lum_adiabatic (adiabatic_cooling c t) c) m in
  let m := compute_dr_coeffs t m in
  let m := modify xp (fun c => set_lum_dr (total_dr (dr_coeffs m) c t) c) m in
  let m := modify xp (fun c => set_lum_comp (total_comp c t) c) m in
  let c := cell m xp in
  let difference :=
    heat_tot c - lum_adiabatic c - lum_dr c - lum_comp c
    - total_emission c 0 VERY_BIG in
  (difference, m).

Definition calc_te (xplasma : nat) (tmin tmax : R) (m : mem) : R * mem :=
  let m := set_xxxplasma xplasma m in
  let m := modify xplasma (set_t_e tmin) m in
  let '(z1, m) := zero_emit tmin m in
  let m := modify xplasma (set_t_e tmax) m in
  let '(z2, m) := zero_emit tmax m in
  let m :=
    if z1 * z2 <? 0 then
      let '(root, m) := run (zbrent tmin tmax 50) zero_emit m in
      modify xplasma (set_t_e root) m
    else if fabs z1 <? fabs z2 then modify xplasma (set_t_e tmin) m
    else modify xplasma (set_t_e tmax) m in
  let m := modify xplasma (fun c => set_heat_tot (heat_tot c - heat_lines_macro c) c) m in
  let m := modify xplasma (fun c => set_heat_lines (heat_lines c - heat_lines_macro c) c) m in
  let m := modify xplasma (fun c => set_heat_lines_macro (macro_bb_heating c (t_e c)) c) m in
  let m := modify xplasma (fun c => set_heat_tot (heat_tot c + heat_lines_macro c) c) m in
  let m := modify xplasma (fun c => set_heat_lines (heat_lines c + heat_lines_macro c) c) m in
  let m := modify xplasma (fun c => set_heat_tot (heat_tot c - heat_photo_macro c) c) m in
  let m := modify xplasma (fun c => set_heat_photo (heat_photo c - heat_photo_macro c) c) m in
  let m := modify xplasma (fun c => set_heat_photo_macro (macro_bf_heating c (t_e c)) c) m in
  let m := modify xplasma (fun c => set_heat_tot (heat_tot c + heat_photo_macro c) c) m in
  let m := modify xplasma (fun c => set_heat_photo (heat_photo c + heat_photo_macro c) c) m in
  (t_e (cell m xplasma), m).

(** [one_shot]: the two [exit (0)] are [Exit]; a call that returns,
    returns 0. *)
Definition one_shot (xplasma : nat) (mode : Z) (m : mem) : outcome (Z * mem) :=
  let gain := gain (cell m xplasma) in
  let te_old := t_e (cell m xplasma) in
  let '(te_new, m) := calc_te xplasma (0.7 * te_old) (1.3 * te_old) m in
  let m := modify xplasma (set_t_e ((1 - gain) * te_old + gain * te_new)) m in
  mode ← (if (mode =? 3)%Z then Done 2%Z
          else if ((mode <=? 1) || (mode >=? 6))%Z then Exit
          else Done mode);
  if t_r (cell m xplasma) >? 10 then
    let '(_, c) := nebular_concentrations (cell m xplasma) mode in
    let m := store xplasma c m in
    Done (0%Z, m)
  else Exit.

(** [convergence] only touches the cell it is given. Each residual is a
    quotient of two doubles, taken as a real number: this is the stored
    value as long as the divisor, a sum of two temperatures or of the
    heating and cooling rates, is not 0. With a divisor of 0 the code stores
    an infinity or not a number, which this quotient does not show; what is
    proved about the residuals and the flags read from them is stated for
    divisors that are not 0. *)
Definition convergence (c : plasma) : Z * plasma :=
  let c := set_hccheck 0 c in
  let c := set_techeck 0 c in
  let c := set_trcheck 0 c in
  let epsilon := 0.05 in
  let c := set_converge_t_r (fabs (t_r_old c - t_r c) / (t_r_old c + t_r c)) c in
  let '(trcheck, c) :=
    if converge_t_r c >? epsilon then (1%Z, set_trcheck 1 c) else (0%Z, c) in
  let c := set_converge_t_e (fabs (t_e_old c - t_e c) / (t_e_old c + t_e c)) c in
  let '(techeck, c) :=
    if converge_t_e c >? epsilon then (1%Z, set_techeck 1 c) else (0%Z, c) in
  let c := set_converge_hc
             (fabs (heat_tot c - (lum_rad c + lum_adiabatic c))
              / (heat_tot c + lum_rad c + lum_adiabatic c)) c in
  let '(hccheck, c) :=
    if converge_hc c >? epsilon then (1%Z, set_hccheck 1 c) else (0%Z, c) in
  let whole_check := (trcheck + techeck + hccheck)%Z in
  let c := set_converge_whole whole_check c in
  let converging :=
    if (dt_e_old c * dt_e c <? 0) && (fabs (dt_e c) >? fabs (dt_e_old c))
    then 1%Z else 0%Z in
  let c := set_converging converging c in
  let c :=
    if (converging =? 1)%Z then
      let c := set_gain (gain c * 0.7) c in
      if gain c <? 0.1 then set_gain 0.1 c else c
    else
      let c := set_gain (gain c * 1.1) c in
      if gain c >? 0.8 then set_gain 0.8 c else c in
  (whole_check, c).

(** The summary [check_convergence] logs. *)
Record convergence_summary := {
  log_nconverge : Z;
  log_xconverge : R;
  log_nconverging : Z;
  log_xconverging : R;
  log_ntot : Z;
  log_ntr : Z;
  log_nte : Z;
  log_nhc : Z
}.

(** The counters of [check_convergence]. *)
Record counters := {
  nconverge : Z;
  nconverging : Z;
  ntot : Z;
  nte : Z;
  ntr : Z;
  nhc : Z
}.

(** [check_convergence] initialises [nconverge], [nconverging] and [ntot];
    [nte], [ntr] and [nhc] are declared without a value, so they start from
    whatever the three locals hold on entry. *)
Definition check_convergence (nte0 ntr0 nhc0 : Z) (m : mem)
    : Z * convergence_summary :=
  let init := {| nconverge := 0; nconverging := 0; ntot := 0;
                 nte := nte0; ntr := ntr0; nhc := nhc0 |} in
  let k := for_loop (NPLASMA m) (fun n k =>
    let c := plasmamain m !!! n in
    let ntot := (ntot k + 1)%Z in
    let nconverge := if (converge_whole c =? 0)%Z then (nconverge k + 1)%Z else nconverge k in
    let ntr := if (trcheck c =? 0)%Z then (ntr k + 1)%Z else ntr k in
    let nte := if (techeck c =? 0)%Z then (nte k + 1)%Z else nte k in
    let nhc := if (hccheck c =? 0)%Z then (nhc k + 1)%Z else nhc k in
    let nconverging := if (converging c =? 0)%Z then (nconverging k + 1)%Z else nconverging k in
    {| nconverge := nconverge; nconverging := nconverging; ntot := ntot;
       nte := nte; ntr := ntr; nhc := nhc |}) init in
  let xconverge := IZR (nconverge k) / IZR (ntot k) in
  let xconverging := IZR (nconverging k) / IZR (ntot k) in
  (0%Z,
   {| log_nconverge := nconverge k; log_xconverge := xconverge;
      log_nconverging := nconverging k; log_xconverging := xconverging;
      log_ntot := ntot k; log_ntr := ntr k; log_nte := nte k;
      log_nhc := nhc k |}).

(** The [while] loop of mode 5 that widens the bracket; [fuel] bounds the
    number of times the condition is tested. The condition is tested on the
    product as the machine computes it: the loop goes on while the product
    is greater than 0 and is left when it is 0, negative or not a number.
    The two ends of the bracket are real numbers, moved by exactly 1 per
    turn. *)
Fixpoint widen (fuel : nat) (m : mem) (alphamin alphamax : R) : option (R * R) :=
  match fuel with
  | O => None
  | S fuel =>
      if dgt (dmul (sim_alpha_func_fp m alphamin) (sim_alpha_func_fp m alphamax)) 0.0
      then widen fuel m (alphamin - 1.0) (alphamax + 1.0)
      else Some (alphamin, alphamax)
  end.

(** The body of the loop over the bands in mode 5, in the four steps of
    the source.

    Lines 128-145: the band edges, the target mean frequency and [j]; an
    empty band takes the total band, [j = 0], and has its weight zeroed. *)
Definition band_setup (xplasma nx4power : nat) (m : mem) : R * mem :=
  if (nxtot (cell m xplasma) !!! nx4power =? 0)%Z then
    let m := set_sim_numin (xband_f1 !!! 0%nat) m in
    let m := set_sim_numax (xband_f2 !!! (xband_nbands - 1)%nat) m in
    let m := set_sim_meanfreq (ave_freq (cell m xplasma)) m in
    let j := 0 in
    let m := modify xplasma (fun c => set_sim_w (<[nx4power := 0]> (sim_w c)) c) m in
    (j, m)
  else
    let m := set_sim_numin (xfreq !!! nx4power) m in
    let m := set_sim_numax (xfreq !!! (nx4power + 1)%nat) m in
    let m := set_sim_meanfreq (xave_freq (cell m xplasma) !!! nx4power) m in
    let j := xj (cell m xplasma) !!! nx4power in
    (j, m).

(** Lines 150-157: the bracket around the current slope, widened until the
    condition of the [while] fails. *)
Definition band_bracket (fuel : nat) (xplasma nx4power : nat) (m : mem)
    : option (R * R) :=
  let alphamin := sim_alpha (cell m xplasma) !!! nx4power - 0.1 in
  let alphamax := sim_alpha (cell m xplasma) !!! nx4power + 0.1 in
  widen fuel m alphamin alphamax.

(** Lines 162-170: the candidate slope, clamped to [[-3, 3]], and the
    candidate weight. [sim_alpha_func] only reads the three globals. *)
Definition band_candidate (j alphamin alphamax : R) (m : mem) : R * option R :=
  let '(alphatemp, m) :=
    run (zbrent alphamin alphamax 0.00001)
        (fun alpha m => (sim_alpha_func m alpha, m)) m in
  let alphatemp := if alphatemp >? 3.0 then 3.0 else alphatemp in
  let alphatemp := if alphatemp <? -3.0 then -3.0 else alphatemp in
  let sim_w_temp :=
    sim_w_func (j * 4 * PI) 1 1 alphatemp (sim_numin m) (sim_numax m) in
  (alphatemp, sim_w_temp).

(** The real number a finite double stands for. *)
Definition finite_value (x : option R) : R := default 0 x.

(** Lines 173-181: the candidate is stored unless [sane_check] objects. *)
Definition band_commit (xplasma nx4power : nat) (alphatemp : R)
    (sim_w_temp : option R) (m : mem) : mem :=
  if negb (sane_check sim_w_temp =? 0)%Z then m
  else
    let m := modify xplasma
               (fun c => set_sim_alpha (<[nx4power := alphatemp]> (sim_alpha c)) c) m in
    modify xplasma
      (fun c => set_sim_w (<[nx4power := finite_value sim_w_temp]> (sim_w c)) c) m.

Definition fit_band (fuel : nat) (xplasma : nat) (nx4power : nat) (m : mem)
    : outcome mem :=
  let '(j, m) := band_setup xplasma nx4power m in
  match band_bracket fuel xplasma nx4power m with
  | None => Diverge
  | Some (alphamin, alphamax) =>
      let '(alphatemp, sim_w_temp) := band_candidate j alphamin alphamax m in
      Done (band_commit xplasma nx4power alphatemp sim_w_temp m)
  end.

(** [for (nx4power = 0; nx4power < nxfreq; nx4power++)] with a body that
    may not come back. *)
Fixpoint for_bands (bands : list nat) (body : nat -> mem -> outcome mem)
    (m : mem) : outcome mem :=
  match bands with
  | [] => Done m
  | nx4power :: rest => m ← body nx4power m; for_bands rest body m
  end.

Definition ion_abundances (fuel : nat) (xplasma : nat) (mode : Z) (m : mem)
    : outcome (Z * mem) :=
  '(ireturn, m) ←
    (if (mode =? 0)%Z then
       let '(ireturn, c) := nebular_concentrations (cell m xplasma) 2 in
       Done (ireturn, store xplasma c m)
     else if (mode =? 1)%Z then
       let '(ireturn, c) := nebular_concentrations (cell m xplasma) 1 in
       Done (ireturn, store xplasma c m)
     else if (mode =? 2)%Z then
       let '(ireturn, c) := fix_concentrations (cell m xplasma) 0 in
       Done (ireturn, store xplasma c m)
     else if (mode =? 3)%Z then
       let m := modify xplasma (fun c => set_dt_e_old (dt_e c) c) m in
       let m := modify xplasma (fun c => set_dt_e (t_e c - t_e_old c) c) m in
       let m := modify xplasma (fun c => set_t_e_old (t_e c) c) m in
       let m := modify xplasma (fun c => set_t_r_old (t_r c) c) m in
       let m := modify xplasma (fun c => set_lum_rad_old (lum_rad c) c) m in
       '(ireturn, m) ← one_shot xplasma mode m;
       let m := modify xplasma (fun c => snd (convergence c)) m in
       Done (ireturn, m)
     else if (mode =? 4)%Z then
       let '(ireturn, c) := nebular_concentrations (cell m xplasma) 5 in
       Done (ireturn, store xplasma c m)
     else if (mode =? 5)%Z then
       m ← for_bands (seq 0 nxfreq) (fit_band fuel xplasma) m;
       let m := modify xplasma (fun c => set_dt_e_old (dt_e c) c) m in
       let m := modify xplasma (fun c => set_dt_e (t_e c - t_e_old c) c) m in
       let m := modify xplasma (fun c => set_t_e_old (t_e c) c) m in
       let m := modify xplasma (fun c => set_t_r_old (t_r c) c) m in
       let m := modify xplasma (fun c => set_lum_rad_old (lum_rad c) c) m in
       '(ireturn, m) ← one_shot xplasma mode m;
       let m := modify xplasma (fun c => snd (convergence c)) m in
       Done (ireturn, m)
     else Exit);
  let m :=
    if (geo_auger_ionization =? 1)%Z then modify xplasma auger_ionization m
    else m in
  Done (ireturn, m).

End code.

End Ionization.

(** ** Notions used in the statements, and sample inputs *)

Module Notions.
Import Ionization.
Local Open Scope R_scope.

(** The four quantities of a spectrum, in the order of the buffer. *)
Definition quantity {T : Type} (k : nat) : ParaUpdate.spectrum_of T -> list T :=
  match k with
  | 0%nat => ParaUpdate.f
  | 1%nat => ParaUpdate.lf
  | 2%nat => ParaUpdate.f_wind
  | _ => ParaUpdate.lf_wind
  end.

(** Where quantity [k] of wavelength bin [i] of spectrum [j] sits in the
    buffer. *)
Definition slot (e : ParaUpdate.extract_env) (nspec k i j : nat) : nat :=
  (i * nspec + j + k * ParaUpdate.NWAVE_MAX e * nspec)%nat.

(** [written D b b0]: buffer [b] is [b0] with the slots of every pair
    (wavelength bin, spectrum) in [D] holding the estimators of [xxspec]
    divided by [np]. *)
Definition written {T : Type} `{Inhabited T} `{ParaUpdate.Arith T}
    (e : ParaUpdate.extract_env) (nspec : nat) (np : T)
    (xxspec : list (ParaUpdate.spectrum_of T))
    (D : nat -> nat -> Prop) (b b0 : list T) : Prop :=
  length b = length b0 /\
  (forall i j k, D i j -> (k < 4)%nat ->
     b !!! slot e nspec k i j
       = ParaUpdate.d_div (quantity k (xxspec !!! j) !!! i) np) /\
  (forall y, (forall i j k, D i j -> (k < 4)%nat -> y <> slot e nspec k i j) ->
     b !!! y = b0 !!! y).

(** How many cells have [fld] equal to 0. *)
Definition count_zero (fld : plasma -> Z) (cells : list plasma) : Z :=
  Z.of_nat (length (filter (fun c => fld c = 0%Z) cells)).

(** One turn of the loop of [check_convergence] on the counters. *)
Definition tally (c : plasma) (k : counters) : counters :=
  {| nconverge := if (converge_whole c =? 0)%Z then (nconverge k + 1)%Z else nconverge k;
     nconverging := if (converging c =? 0)%Z then (nconverging k + 1)%Z else nconverging k;
     ntot := (ntot k + 1)%Z;
     nte := if (techeck c =? 0)%Z then (nte k + 1)%Z else nte k;
     ntr := if (trcheck c =? 0)%Z then (ntr k + 1)%Z else ntr k;
     nhc := if (hccheck c =? 0)%Z then (nhc k + 1)%Z else nhc k |}.

(** The history shift of modes 3 and 5 as one simultaneous assignment:
    every right-hand side is a value from before the shift. *)
Definition history_shift (c : plasma) : plasma :=
  {| t_e := t_e c; t_r := t_r c; t_e_old := t_e c; t_r_old := t_r c;
     dt_e := t_e c - t_e_old c; dt_e_old := dt_e c; gain := gain c;
     heat_tot := heat_tot c; heat_lines := heat_lines c;
     heat_lines_macro := heat_lines_macro c; heat_photo := heat_photo c;
     heat_photo_macro := heat_photo_macro c; lum_rad := lum_rad c;
     lum_rad_old := lum_rad c; lum_adiabatic := lum_adiabatic c;
     lum_dr := lum_dr c; lum_comp := lum_comp c; ave_freq := ave_freq c;
     ne := ne c; xj := xj c; xave_freq := xave_freq c; nxtot := nxtot c;
     sim_alpha := sim_alpha c; sim_w := sim_w c;
     converge_t_r := converge_t_r c; converge_t_e := converge_t_e c;
     converge_hc := converge_hc c; trcheck := trcheck c;
     techeck := techeck c; hccheck := hccheck c;
     converge_whole := converge_whole c; converging := converging c;
     nwind := nwind c |}.

(** The last step of [ion_abundances]: the Auger pass, if switched on. *)
Definition auger_step `{Physics} (xplasma : nat) (m : mem) : mem :=
  if (geo_auger_ionization =? 1)%Z then modify xplasma auger_ionization m
  else m.


(** The translated mode of [one_shot], or [None] for a mode it refuses. *)
Definition one_shot_mode (mode : Z) : option Z :=
  if (mode =? 3)%Z then Some 2%Z
  else if ((mode <=? 1) || (mode >=? 6))%Z then None
  else Some mode.

(** The analytic mean frequency of a power law of slope [alpha] cut to
    [[numin, numax]]; [sim_alpha_func] is this minus the observed mean. *)
Definition power_law_mean (numin numax alpha : R) : R :=
  ((alpha + 1) / (alpha + 2)) *
  ((pow numax (alpha + 2) - pow numin (alpha + 2)) /
   (pow numax (alpha + 1) - pow numin (alpha + 1))).



(** Modelled from the spec: [sim_w] is not in the two files; section 4.2,
    step 6, "Compute the weight W by a closed-form normalisation of 4 pi j
    over [numin, numax] with the fitted slope". The weight is the energy
    density over the band integral of the power law, and is not finite when
    a divisor is 0. *)
Definition sim_w_model (en1 v dt alpha numin numax : R) : option R :=
  let volume := 4 * PI * v * dt in
  let band := pow numax (alpha + 1) - pow numin (alpha + 1) in
  if Req_dec_T volume 0 then None
  else if Req_dec_T band 0 then None
  else Some (en1 / volume * (alpha + 1) / band).

(** A weight routine whose result is never finite. *)
Definition sim_w_overflow (en1 v dt alpha numin numax : R) : option R := None.

(** A bracketed root finder by bisection: it asks for the two ends, returns
    an end that is a root, and otherwise halves the bracket [n] times. *)
Fixpoint bisect (n : nat) (a b fa : R) : solver :=
  match n with
  | O => Ret ((a + b) / 2)
  | S n =>
      Ask ((a + b) / 2) (fun fm =>
        if Req_dec_T fm 0 then Ret ((a + b) / 2)
        else if Rlt_dec (fa * fm) 0 then bisect n a ((a + b) / 2) fa
        else bisect n ((a + b) / 2) b fm)
  end.

Definition bisection (x1 x2 tol : R) : solver :=
  Ask x1 (fun fa => Ask x2 (fun fb =>
    if Req_dec_T fa 0 then Ret x1
    else if Req_dec_T fb 0 then Ret x2
    else bisect 64 x1 x2 fa)).

(** A small world: one band [[1, 2]], which is also the total band; no
    macro-atom heating; cooling that grows with the temperature; an
    abundance routine that reports [status] and leaves the cell alone. *)
Definition sample_physics (status : Z)
    (weight : R -> R -> R -> R -> R -> R -> option R) : Physics :=
  {| xband_f1 := [1];
     xband_f2 := [2];
     xband_nbands := 1;
     xfreq := [1; 2];
     nxfreq := 1;
     geo_auger_ionization := 0;
     VERY_BIG := 1e50;
     nebular_concentrations := fun c _ => (status, c);
     fix_concentrations := fun c _ => (status, c);
     auger_ionization := fun c => c;
     macro_bb_heating := fun _ _ => 0;
     macro_bf_heating := fun _ _ => 0;
     adiabatic_cooling := fun _ _ => 0;
     total_dr := fun _ _ _ => 0;
     total_comp := fun _ _ => 0;
     total_emission := fun c _ _ => t_e c;
     zbrent := bisection;
     sim_w_func := weight |}.

(** A cell with no photon in its only band, a previous fit of slope 0.1
    and weight 1, and a mean frequency of 1.5 over the total band. *)
Definition sample_cell : plasma :=
  {| t_e := 10000; t_r := 20000; t_e_old := 10000; t_r_old := 20000;
     dt_e := 0; dt_e_old := 0; gain := 0.5;
     heat_tot := 10000; heat_lines := 0; heat_lines_macro := 0;
     heat_photo := 0; heat_photo_macro := 0; lum_rad := 0; lum_rad_old := 0;
     lum_adiabatic := 0; lum_dr := 0; lum_comp := 0; ave_freq := 1.5; ne := 1;
     xj := [0]; xave_freq := [0]; nxtot := [0%Z];
     sim_alpha := [0.1]; sim_w := [1];
     converge_t_r := 0; converge_t_e := 0; converge_hc := 0;
     trcheck := 0; techeck := 0; hccheck := 0; converge_whole := 0;
     converging := 0; nwind := 0 |}.

Definition sample_mem : mem :=
  {| plasmamain := [sample_cell]; xxxplasma := 0;
     sim_numin := 0; sim_numax := 0; sim_meanfreq := 0; dr_coeffs := 0 |}.

(** A cell that not a single photon reached: its only band is empty and
    its mean frequency estimator is 0; the previous fit has slope 0. *)
Definition dark_cell : plasma :=
  {| t_e := 10000; t_r := 20000; t_e_old := 10000; t_r_old := 20000;
     dt_e := 0; dt_e_old := 0; gain := 0.5;
     heat_tot := 10000; heat_lines := 0; heat_lines_macro := 0;
     heat_photo := 0; heat_photo_macro := 0; lum_rad := 0; lum_rad_old := 0;
     lum_adiabatic := 0; lum_dr := 0; lum_comp := 0; ave_freq := 0; ne := 1;
     xj := [0]; xave_freq := [0]; nxtot := [0%Z];
     sim_alpha := [0]; sim_w := [0];
     converge_t_r := 0; converge_t_e := 0; converge_hc := 0;
     trcheck := 0; techeck := 0; hccheck := 0; converge_whole := 0;
     converging := 0; nwind := 0 |}.

Definition dark_mem : mem :=
  {| plasmamain := [dark_cell]; xxxplasma := 0;
     sim_numin := 0; sim_numax := 0; sim_meanfreq := 0; dr_coeffs := 0 |}.





End Notions.

(** ** Measures and relations used in the further properties *)

Module Measures.
Import Ionization Notions.
Local Open Scope R_scope.

(** The number of cells ranks [0 .. k-1] take together, each rank asking
    for its own range. *)
Definition cells_of_first (ntotal nproc : Z) (k : nat) : Z :=
  fold_right Z.add 0%Z
    ((fun r => ParaUpdate.ndo (ParaUpdate.own_range ntotal nproc (Z.of_nat r)))
       <$> seq 0 k).

(** What one turn of the second pair of loops of
    [gather_extracted_spectrum] does to spectrum [mpi_j]: bin [mpi_i] of
    each of its four arrays is read from the buffer. *)
Definition unpack_bin {T : Type} `{Inhabited T}
    (e : ParaUpdate.extract_env) (nspec : nat)
    (redhelper2 : list T) (mpi_i mpi_j : nat) (s : ParaUpdate.spectrum_of T)
    : ParaUpdate.spectrum_of T :=
  {| ParaUpdate.f :=
       <[mpi_i := redhelper2 !!! slot e nspec 0 mpi_i mpi_j]> (ParaUpdate.f s);
     ParaUpdate.lf :=
       <[mpi_i := redhelper2 !!! slot e nspec 1 mpi_i mpi_j]> (ParaUpdate.lf s);
     ParaUpdate.f_wind :=
       <[mpi_i := redhelper2 !!! slot e nspec 2 mpi_i mpi_j]> (ParaUpdate.f_wind s);
     ParaUpdate.lf_wind :=
       <[mpi_i := redhelper2 !!! slot e nspec 3 mpi_i mpi_j]> (ParaUpdate.lf_wind s) |}.

(** [unpacked b D x X]: the arrays [x] are [X] with the bins of every pair
    (wavelength bin, spectrum) in [D] read from buffer [b]. *)
Definition unpacked {T : Type} `{Inhabited T}
    (e : ParaUpdate.extract_env) (nspec : nat) (b : list T)
    (D : nat -> nat -> Prop) (x X : list (ParaUpdate.spectrum_of T)) : Prop :=
  length x = length X /\
  (forall j k, (k < 4)%nat ->
     length (quantity k (x !!! j)) = length (quantity k (X !!! j))) /\
  (forall i j k, (k < 4)%nat -> D i j ->
     (j < length X)%nat -> (i < length (quantity k (X !!! j)))%nat ->
     quantity k (x !!! j) !!! i = b !!! slot e nspec k i j) /\
  (forall i j k, (k < 4)%nat -> ~ D i j ->
     quantity k (x !!! j) !!! i = quantity k (X !!! j) !!! i).

(** Rank [s] holds bin [i] of quantity [k] of spectrum [j]. *)
Definition holds_bin {T : Type} (k i j : nat)
    (X : list (ParaUpdate.spectrum_of T)) : Prop :=
  (j < length X)%nat /\ (i < length (quantity k (X !!! j)))%nat.

(** The sum over the ranks of each rank's bin divided by the number of
    ranks. *)
Definition rank_mean {T : Type} `{Inhabited T} `{ParaUpdate.Arith T}
    (k i j : nat) (world : list (list (ParaUpdate.spectrum_of T))) : T :=
  fold_right
    (fun X acc =>
       ParaUpdate.d_add
         (ParaUpdate.d_div (quantity k (X !!! j) !!! i)
            (ParaUpdate.d_of_nat (length world)))
         acc)
    ParaUpdate.d_zero world.

(** What [P] ranks that all hold [v] in a bin get back in it: the sum of
    [P] copies of [v] divided by [P]. *)
Definition summed_back {T : Type} `{ParaUpdate.Arith T} (P : nat) (v : T) : T :=
  fold_right ParaUpdate.d_add ParaUpdate.d_zero
    (replicate P (ParaUpdate.d_div v (ParaUpdate.d_of_nat P))).

(** Over the binary64 numbers: one spectrum of one bin per array, and the
    double 0.9. *)
Definition one_bin_env : ParaUpdate.extract_env :=
  {| ParaUpdate.MPI_ON := true; ParaUpdate.MSPEC := 1; ParaUpdate.NWAVE_MAX := 1;
     ParaUpdate.CYCLE_EXTRACT := 1; ParaUpdate.geo_ioniz_or_extract := 0;
     ParaUpdate.geo_nangles := 0 |}.

Definition one_bin (v : ParaUpdate.b64) : list (ParaUpdate.spectrum_of ParaUpdate.b64) :=
  [ {| ParaUpdate.f := [v]; ParaUpdate.lf := [v];
       ParaUpdate.f_wind := [v]; ParaUpdate.lf_wind := [v] |} ].

Definition b64_0_9 : ParaUpdate.b64 := ParaUpdate.B_fin false 8106479329266893 (-53).

(** Two ranks of two spectra of two bins. *)
Definition sample_env : ParaUpdate.extract_env :=
  {| ParaUpdate.MPI_ON := true; ParaUpdate.MSPEC := 2; ParaUpdate.NWAVE_MAX := 2;
     ParaUpdate.CYCLE_EXTRACT := 1; ParaUpdate.geo_ioniz_or_extract := 0;
     ParaUpdate.geo_nangles := 1 |}.

Definition flat_spectrum (v : R) : ParaUpdate.spectrum :=
  {| ParaUpdate.f := [v; v]; ParaUpdate.lf := [v; v];
     ParaUpdate.f_wind := [v; v]; ParaUpdate.lf_wind := [v; v] |}.

Definition sample_world : list (list ParaUpdate.spectrum) :=
  [ [flat_spectrum 1; flat_spectrum 2]; [flat_spectrum 3; flat_spectrum 4] ].

(** [same_elsewhere p m m']: the grid [m'] has as many cells as [m], and
    every cell but the one at [p] is as it is in [m]. *)
Definition same_elsewhere (p : nat) (m m' : mem) : Prop :=
  NPLASMA m' = NPLASMA m /\ forall q, q <> p -> cell m' q = cell m q.

(** The heating of a cell without its macro-atom parts: in total, in
    lines and in photoionization. *)
Definition base_heating (c : plasma) : R * R * R :=
  (heat_tot c - heat_lines_macro c - heat_photo_macro c,
   heat_lines c - heat_lines_macro c,
   heat_photo c - heat_photo_macro c).

(** Whatever values the callback gives, the root finder returns a point of
    [[lo, hi]]. *)
Fixpoint returns_within (lo hi : R) (sv : solver) : Prop :=
  match sv with
  | Ret x => lo <= x <= hi
  | Ask _ k => forall y, returns_within lo hi (k y)
  end.

(** The spectral model of [c'] is that of [c] in every band but [b], with
    as many bands. *)
Definition same_other_bands (b : nat) (c c' : plasma) : Prop :=
  length (sim_alpha c') = length (sim_alpha c) /\
  length (sim_w c') = length (sim_w c) /\
  forall b', b' <> b ->
    sim_alpha c' !!! b' = sim_alpha c !!! b' /\ sim_w c' !!! b' = sim_w c !!! b'.

(** Every slope of the spectral model of the cell is in [[-3, 3]]. *)
Definition slopes_clamped (c : plasma) : Prop :=
  Forall (fun a => -3 <= a <= 3) (sim_alpha c).

(** [c'] is [c] up to the two arrays of the spectral model: putting the
    slopes and weights of [c] back into [c'] gives [c]. *)
Definition same_but_model (c c' : plasma) : Prop :=
  set_sim_alpha (sim_alpha c) (set_sim_w (sim_w c) c') = c.


(** The sum over the ranks of each rank's bin. *)
Definition rank_total (k i j : nat) (world : list (list ParaUpdate.spectrum)) : R :=
  fold_right (fun X acc => quantity k (X !!! j) !!! i + acc) 0 world.

End Measures.

(** * Properties *)

(** ** The partition of [get_parallel_nrange] *)

Section partition_facts.
Import ParaUpdate.
Local Open Scope Z_scope.

Variables ntotal nproc : Z.
Hypothesis Hntotal : 0 <= ntotal.
Hypothesis Hnproc : 1 <= nproc.

Let q := floor_quot ntotal nproc.
Let x := ntotal - nproc * q.

Lemma extra_bounds : 0 <= x < nproc /\ 0 <= q /\ ntotal = nproc * q + x.
Proof.
  unfold x, q, floor_quot.
  pose proof (Z.mod_pos_bound ntotal nproc ltac:(lia)) as Hm.
  pose proof (Z.div_mod ntotal nproc ltac:(lia)) as Hd.
  pose proof (Z.div_pos ntotal nproc Hntotal ltac:(lia)) as Hq.
  lia.
Qed.

(** Rank [r] starts at [r * q + min r x] and stops where rank [r + 1]
    starts. *)
Lemma own_range_closed_form r :
  0 <= r ->
  my_nmin (own_range ntotal nproc r) = r * q + Z.min r x /\
  my_nmax (own_range ntotal nproc r) = (r + 1) * q + Z.min (r + 1) x /\
  ndo (own_range ntotal nproc r) = (if r <? x then q + 1 else q).
Proof.
  intros Hr. unfold own_range, get_parallel_nrange. simpl rank_global.
  fold q. fold x.
  destruct (Z.ltb_spec r x) as [Hlt | Hge]; simpl; repeat split; lia.
Qed.

Lemma own_range_first : my_nmin (own_range ntotal nproc 0) = 0.
Proof.
  destruct (own_range_closed_form 0 ltac:(lia)) as (-> & _).
  pose proof extra_bounds. lia.
Qed.

Lemma own_range_adjacent r :
  0 <= r ->
  my_nmax (own_range ntotal nproc r) = my_nmin (own_range ntotal nproc (r + 1)).
Proof.
  intros Hr.
  destruct (own_range_closed_form r Hr) as (_ & -> & _).
  destruct (own_range_closed_form (r + 1) ltac:(lia)) as (-> & _).
  reflexivity.
Qed.

Lemma own_range_last : my_nmax (own_range ntotal nproc (nproc - 1)) = ntotal.
Proof.
  destruct (own_range_closed_form (nproc - 1) ltac:(lia)) as (_ & -> & _).
  pose proof extra_bounds. lia.
Qed.

Lemma own_range_start_mono r r' :
  0 <= r <= r' ->
  my_nmin (own_range ntotal nproc r) <= my_nmin (own_range ntotal nproc r').
Proof.
  intros Hr.
  destruct (own_range_closed_form r ltac:(lia)) as (-> & _).
  destruct (own_range_closed_form r' ltac:(lia)) as (-> & _).
  pose proof extra_bounds. nia.
Qed.

(** Two different ranks never share a cell. *)
Lemma own_ranges_disjoint r r' :
  0 <= r < r' ->
  my_nmax (own_range ntotal nproc r) <= my_nmin (own_range ntotal nproc r').
Proof.
  intros Hr. rewrite own_range_adjacent by lia.
  apply own_range_start_mono. lia.
Qed.

(** Every cell of [[0, ntotal)] belongs to some rank. *)
Lemma own_ranges_cover n :
  0 <= n < ntotal ->
  exists r, 0 <= r < nproc /\
    my_nmin (own_range ntotal nproc r) <= n < my_nmax (own_range ntotal nproc r).
Proof.
  intros Hn. pose proof extra_bounds as (Hx & Hq & HN).
  destruct (Z_lt_ge_dec n (x * (q + 1))) as [Hlo | Hhi].
  - exists (n / (q + 1)).
    pose proof (Z.div_pos n (q + 1) ltac:(lia) ltac:(lia)) as Hr0.
    pose proof (Z.div_lt_upper_bound n (q + 1) x ltac:(lia) ltac:(lia)) as Hrx.
    pose proof (Z.div_mod n (q + 1) ltac:(lia)) as Hd.
    pose proof (Z.mod_pos_bound n (q + 1) ltac:(lia)) as Hm.
    destruct (own_range_closed_form (n / (q + 1)) Hr0) as (-> & -> & _).
    split; [lia |]. rewrite !Z.min_l by lia. lia.
  - assert (0 < q) as Hq' by nia.
    set (d := (n - x * (q + 1)) / q).
    pose proof (Z.div_pos (n - x * (q + 1)) q ltac:(lia) Hq') as Hd0.
    pose proof (Z.div_lt_upper_bound (n - x * (q + 1)) q (nproc - x) Hq' ltac:(nia)) as Hdx.
    pose proof (Z.div_mod (n - x * (q + 1)) q ltac:(lia)) as Hd.
    pose proof (Z.mod_pos_bound (n - x * (q + 1)) q Hq') as Hm.
    fold d in Hd0, Hdx, Hd.
    exists (x + d).
    destruct (own_range_closed_form (x + d) ltac:(lia)) as (-> & -> & _).
    split; [lia |]. rewrite !Z.min_r by lia. nia.
Qed.

(** The sizes are [q] or [q + 1], so any two differ by at most one. *)
Lemma own_range_sizes r r' :
  0 <= r -> 0 <= r' ->
  Z.abs (ndo (own_range ntotal nproc r) - ndo (own_range ntotal nproc r')) <= 1.
Proof.
  intros Hr Hr'.
  destruct (own_range_closed_form r Hr) as (_ & _ & ->).
  destruct (own_range_closed_form r' Hr') as (_ & _ & ->).
  destruct (r <? x), (r' <? x); lia.
Qed.

(** No rank gets more than [get_max_cells_per_rank] cells. *)
Lemma own_range_size_le_max r :
  0 <= r ->
  ndo (own_range ntotal nproc r)
    <= get_max_cells_per_rank (on_rank r nproc) ntotal.
Proof.
  intros Hr. destruct (own_range_closed_form r Hr) as (_ & _ & ->).
  unfold get_max_cells_per_rank, ceil_quot. simpl np_mpi_global.
  pose proof extra_bounds as (Hx & Hq & HN).
  assert (- ((- ntotal) / nproc) = if x =? 0 then q else q + 1) as ->.
  { destruct (Z.eqb_spec x 0) as [H0 | H0].
    - replace (- ntotal) with ((- q) * nproc) by lia.
      rewrite Z.div_mul by lia. lia.
    - symmetry. apply Z.opp_inj. rewrite Z.opp_involutive.
      apply (Z.div_unique (- ntotal) nproc (- (q + 1)) (nproc - x)); lia. }
  destruct (Z.ltb_spec r x), (Z.eqb_spec x 0); lia.
Qed.

End partition_facts.

(** C7. On a process whose [rank_global] is 1, the ranges
    [get_parallel_nrange] computes for ranks 0, 1 and 2 of 3 over 10 cells
    are [[4, 8)], [[4, 7)] and [[7, 10)]: the first two overlap and cells 0
    to 3 belong to no rank. The range of a rank below the remainder is
    built from [rank_global], not from the argument [rank]. *)
Theorem get_parallel_nrange_foreign_rank :
  let g := {| ParaUpdate.rank_global := 1; ParaUpdate.np_mpi_global := 3 |} in
  ParaUpdate.get_parallel_nrange g 0 10 3
    = {| ParaUpdate.ndo := 4; ParaUpdate.my_nmin := 4; ParaUpdate.my_nmax := 8 |} /\
  ParaUpdate.get_parallel_nrange g 1 10 3
    = {| ParaUpdate.ndo := 3; ParaUpdate.my_nmin := 4; ParaUpdate.my_nmax := 7 |} /\
  ParaUpdate.get_parallel_nrange g 2 10 3
    = {| ParaUpdate.ndo := 3; ParaUpdate.my_nmin := 7; ParaUpdate.my_nmax := 10 |} /\
  ParaUpdate.get_max_cells_per_rank g 10 = 4%Z.
Proof.
  intros g. unfold ParaUpdate.get_parallel_nrange, ParaUpdate.get_max_cells_per_rank.
  repeat split.
Qed.

(** ** The spectral exchange *)

Lemma for_loop_S {S : Type} (n : nat) (body : nat -> S -> S) (s : S) :
  for_loop (Datatypes.S n) body s = body n (for_loop n body s).
Proof.
  unfold for_loop. rewrite seq_S, fold_left_app. reflexivity.
Qed.

(** Loop invariant rule for [for_loop]. *)
Lemma for_loop_invariant {S : Type} (P : nat -> S -> Prop) n body (s : S) :
  P 0%nat s ->
  (forall i t, (i < n)%nat -> P i t -> P (Datatypes.S i) (body i t)) ->
  P n (for_loop n body s).
Proof.
  intros H0 Hstep.
  assert (forall m, (m <= n)%nat -> P m (for_loop m body s)) as H.
  { induction m as [| m IH]; intros Hm; [exact H0 |].
    rewrite for_loop_S. apply Hstep; [lia | apply IH; lia]. }
  apply H. lia.
Qed.


Lemma slot_unique (n a j a' j' : nat) :
  (j < n)%nat -> (j' < n)%nat -> (a * n + j = a' * n + j')%nat -> a = a' /\ j = j'.
Proof.
  intros Hj Hj' Heq.
  assert (a = a') as -> by nia. split; [reflexivity | lia].
Qed.

Section exchange_facts.
Import ParaUpdate Notions.
Context {T : Type} {T_inhabited : Inhabited T} {T_arith : Arith T}.

Variable e : extract_env.
Variable nspec : nat.
Variable np : T.
Variable xxspec : list (spectrum_of T).

Let NW := NWAVE_MAX e.

Local Abbreviation slot := (Notions.slot e nspec).
Local Abbreviation written := (Notions.written e nspec np xxspec).

Lemma slot_inj k i j k' i' j' :
  (i < NW)%nat -> (j < nspec)%nat -> (i' < NW)%nat -> (j' < nspec)%nat ->
  slot k i j = slot k' i' j' -> k = k' /\ i = i' /\ j = j'.
Proof.
  unfold Notions.slot. intros Hi Hj Hi' Hj' Heq.
  destruct (slot_unique nspec (k * NW + i) j (k' * NW + i') j' Hj Hj') as [Ha Hjj]; [lia |].
  destruct (slot_unique NW k i k' i' Hi Hi') as [Hk Hii]; [lia |].
  auto.
Qed.

Lemma slot_lt k i j :
  (k < 4)%nat -> (i < NW)%nat -> (j < nspec)%nat -> (slot k i j < 4 * nspec * NW)%nat.
Proof. unfold Notions.slot. intros. nia. Qed.

Lemma pack_at_length i j b :
  length (pack_at e nspec np xxspec i j b) = length b.
Proof. unfold pack_at. rewrite !length_insert. reflexivity. Qed.

Lemma pack_at_slot i j b k :
  (4 * nspec * NW <= length b)%nat -> (i < NW)%nat -> (j < nspec)%nat ->
  (k < 4)%nat ->
  pack_at e nspec np xxspec i j b !!! slot k i j
    = d_div (quantity k (xxspec !!! j) !!! i) np.
Proof.
  intros Hlen Hi Hj Hk. unfold pack_at. fold NW.
  pose proof (slot_lt 3 i j ltac:(lia) Hi Hj) as H3.
  unfold Notions.slot in *. cbv zeta.
  rewrite !list_lookup_total_insert, !length_insert.
  assert (k = 0 \/ k = 1 \/ k = 2 \/ k = 3)%nat as [-> | [-> | [-> | ->]]] by lia;
    simpl quantity; repeat case_decide; try reflexivity; exfalso; nia.
Qed.

Lemma pack_at_other i j b y :
  (forall k, (k < 4)%nat -> y <> slot k i j) ->
  pack_at e nspec np xxspec i j b !!! y = b !!! y.
Proof.
  intros Hy. unfold pack_at. fold NW. cbv zeta.
  rewrite !list_lookup_total_insert, !length_insert.
  pose proof (Hy 0%nat ltac:(lia)). pose proof (Hy 1%nat ltac:(lia)).
  pose proof (Hy 2%nat ltac:(lia)). pose proof (Hy 3%nat ltac:(lia)).
  unfold Notions.slot in *.
  repeat case_decide; try reflexivity; exfalso; lia.
Qed.

Lemma written_step (D : nat -> nat -> Prop) i j b b0 :
  (4 * nspec * NW <= length b0)%nat -> (i < NW)%nat -> (j < nspec)%nat ->
  (forall i' j', D i' j' -> (i' < NW)%nat /\ (j' < nspec)%nat) ->
  written D b b0 ->
  written (fun i' j' => D i' j' \/ (i' = i /\ j' = j))
    (pack_at e nspec np xxspec i j b) b0.
Proof.
  intros Hlen Hi Hj HD (Hl & Hin & Hout).
  split; [| split].
  - rewrite pack_at_length. exact Hl.
  - intros i' j' k Hd Hk.
    destruct (decide (i' = i /\ j' = j)) as [[-> ->] | Hne].
    + apply pack_at_slot; [lia | assumption ..].
    + destruct Hd as [Hd | Heq]; [| contradiction].
      destruct (HD i' j' Hd) as [Hi' Hj'].
      rewrite pack_at_other; [apply Hin; assumption |].
      intros k' Hk' Heq.
      destruct (slot_inj k i' j' k' i j Hi' Hj' Hi Hj Heq) as (_ & -> & ->).
      apply Hne. auto.
  - intros y Hy. rewrite pack_at_other.
    + apply Hout. intros i' j' k Hd Hk. apply Hy; [left; exact Hd | exact Hk].
    + intros k Hk. apply Hy; [right; auto | exact Hk].
Qed.

Lemma pack_length b0 : length (pack e nspec np xxspec b0) = length b0.
Proof.
  unfold pack.
  apply (for_loop_invariant (fun _ b => length b = length b0)); [reflexivity |].
  intros i b _ Hb.
  apply (for_loop_invariant (fun _ b => length b = length b0)); [exact Hb |].
  intros j b' _ Hb'. rewrite pack_at_length. exact Hb'.
Qed.

(** After the two loops every slot of the buffer holds its estimator
    divided by the number of ranks. *)
Lemma pack_slot b0 k i j :
  (4 * nspec * NW <= length b0)%nat ->
  (k < 4)%nat -> (i < NW)%nat -> (j < nspec)%nat ->
  length (pack e nspec np xxspec b0) = length b0 /\
  pack e nspec np xxspec b0 !!! slot k i j
    = d_div (quantity k (xxspec !!! j) !!! i) np.
Proof.
  intros Hlen Hk Hi Hj.
  assert (written (fun i' j' => (i' < NW)%nat /\ (j' < nspec)%nat)
            (pack e nspec np xxspec b0) b0) as (Hl & Hin & _).
  { unfold pack. fold NW.
    apply (for_loop_invariant
             (fun m b => written (fun i' j' => (i' < m)%nat /\ (j' < nspec)%nat) b b0)).
    - split; [reflexivity | split]; [intros i' j' k' Hd Hk'; cbv beta in Hd; lia | intros; reflexivity].
    - intros m b Hm Hw.
      assert (written (fun i' j' =>
                (i' < m)%nat /\ (j' < nspec)%nat \/ i' = m /\ (j' < nspec)%nat)
                (for_loop nspec (fun mpi_j => pack_at e nspec np xxspec m mpi_j) b) b0)
        as (Hl' & Hin' & Hout').
      { apply (for_loop_invariant
                 (fun n b' => written (fun i' j' =>
                    (i' < m)%nat /\ (j' < nspec)%nat \/ i' = m /\ (j' < n)%nat) b' b0)).
        - destruct Hw as (Hl' & Hin' & Hout'). split; [exact Hl' | split].
          + intros i' j' k' [Hd | [_ Hd]] Hk'; [apply Hin'; assumption | lia].
          + intros y Hy. apply Hout'. intros i' j' k' Hd Hk'.
            apply Hy; [left; exact Hd | exact Hk'].
        - intros n b' Hn Hw'.
          apply (written_step _ m n b' b0 Hlen Hm Hn) in Hw';
            [| intros i' j' Hd; lia].
          destruct Hw' as (Hl' & Hin' & Hout').
          split; [exact Hl' | split].
          + intros i' j' k' Hd Hk'. apply Hin'; [| exact Hk'].
            destruct Hd as [Hd | [-> Hd]]; [left; left; exact Hd |].
            destruct (decide (j' = n)) as [-> | Hne]; [right; auto | left; right; split; [reflexivity | lia]].
          + intros y Hy. apply Hout'. intros i' j' k' Hd Hk'.
            apply Hy; [| exact Hk'].
            destruct Hd as [[Hd | [-> Hd]] | [-> ->]];
              [left; exact Hd | right; split; [reflexivity | lia] | right; split; [reflexivity | lia]]. }
      split; [exact Hl' | split].
      + intros i' j' k' [Hd1 Hd2] Hk'. apply Hin'; [| exact Hk'].
        destruct (decide (i' = m)) as [-> | Hne]; [right; auto | left; split; lia].
      + intros y Hy. apply Hout'. intros i' j' k' Hd Hk'.
        apply Hy; [| exact Hk']. destruct Hd as [[] | [-> ?]]; split; lia. }
  split; [exact Hl |]. apply Hin; [split; assumption | exact Hk].
Qed.

End exchange_facts.

Section reduce_facts.
Import ParaUpdate Notions Measures.
Context {T : Type} {T_inhabited : Inhabited T} {T_arith : Arith T}.



Variable e : extract_env.
Variable nspec : nat.



End reduce_facts.

(** In exact arithmetic the sum of [P] copies of [v / P] is [v]. *)
Lemma summed_back_exact (P : nat) (v : R) :
  (0 < P)%nat -> Measures.summed_back P v = v.
Proof.
  intros HP. unfold Measures.summed_back.
  cbn [ParaUpdate.d_add ParaUpdate.d_div ParaUpdate.d_zero ParaUpdate.d_of_nat
       ParaUpdate.R_arith].
  assert (forall n w, fold_right Rplus 0%R (replicate n w) = (INR n * w)%R) as Hsum.
  { induction n as [| n IH]; intros w.
    - cbn. lra.
    - cbn [replicate fold_right]. rewrite IH, S_INR. lra. }
  rewrite Hsum. field. apply not_0_INR. lia.
Qed.




(** ** The convergence monitor *)

Section ionization_basics.
Import Ionization.
Local Open Scope R_scope.

Lemma Rltb_spec (x y : R) : reflect (x < y) (x <? y).
Proof.
  unfold Rltb. destruct (Rlt_dec x y); constructor; assumption.
Qed.

Lemma Rgtb_spec (x y : R) : reflect (x > y) (x >? y).
Proof. unfold Rgtb. apply Rltb_spec. Qed.

Lemma Rltb_true (x y : R) : x < y -> (x <? y) = true.
Proof. intros H. destruct (Rltb_spec x y); [reflexivity | contradiction]. Qed.

Lemma Rltb_false (x y : R) : ~ x < y -> (x <? y) = false.
Proof. intros H. destruct (Rltb_spec x y); [contradiction | reflexivity]. Qed.

(** C3, as amended. After [convergence], [converging] is 1 exactly when
    the last two temperature steps have opposite signs and the newer one is
    larger in size; it is 0 otherwise. When it is 1 the gain is the old
    gain times 0.7, floored at 0.1; when it is 0 the gain is the old gain
    times 1.1, capped at 0.8. A gain that was in [[0.1, 0.8]] before the
    call is in [[0.1, 0.8]] after it. *)
Theorem convergence_oscillation_and_gain (c : plasma) :
  let c' := snd (convergence c) in
  (converging c' = 1%Z <->
     dt_e_old c * dt_e c < 0 /\ fabs (dt_e c) > fabs (dt_e_old c)) /\
  (converging c' = 1%Z \/ converging c' = 0%Z) /\
  (converging c' = 1%Z -> gain c' = Rmax 0.1 (gain c * 0.7)) /\
  (converging c' = 0%Z -> gain c' = Rmin 0.8 (gain c * 1.1)) /\
  (0.1 <= gain c <= 0.8 -> 0.1 <= gain c' <= 0.8).
Proof.
  intros c'. subst c'. unfold convergence. cbv zeta.
  destruct (converge_t_r _ >? _); destruct (converge_t_e _ >? _);
    destruct (converge_hc _ >? _); cbn -[Rltb Rgtb Rmult Rabs Rmax Rmin];
    (destruct (Rltb_spec (dt_e_old c * dt_e c) 0) as [Hs | Hs];
     [destruct (Rgtb_spec (fabs (dt_e c)) (fabs (dt_e_old c))) as [Hm | Hm] |];
     cbn -[Rltb Rgtb Rmult Rabs Rmax Rmin];
     [ destruct (Rltb_spec (gain c * 0.7) 0.1) as [Hg | Hg]
     | destruct (Rgtb_spec (gain c * 1.1) 0.8) as [Hg | Hg]
     | destruct (Rgtb_spec (gain c * 1.1) 0.8) as [Hg | Hg] ];
     cbn -[Rltb Rgtb Rmult Rabs Rmax Rmin];
     (split; [split; [intros Hc; first [discriminate Hc | auto] | intros [? ?]; first [reflexivity | contradiction]] |]);
     (split; [auto |]);
     (split; [intros Hc; first [discriminate Hc | unfold Rmax; destruct (Rle_dec 0.1 (gain c * 0.7)); lra] |]);
     (split; [intros Hc; first [discriminate Hc | unfold Rmin; destruct (Rle_dec 0.8 (gain c * 1.1)); lra] |]);
     intros Hb; lra).
Qed.

(** C3, as stated, fails on a cell whose gain is outside the band: on the
    all-zero cell the two steps are 0, so the gain is multiplied by 1.1 and
    stays 0. *)
Lemma convergence_gain_not_clamped_from_below :
  ~ (0.1 <= gain (snd (convergence zero_cell)) <= 0.8).
Proof.
  unfold convergence. cbv zeta.
  destruct (converge_t_r _ >? _); destruct (converge_t_e _ >? _);
    destruct (converge_hc _ >? _); cbn -[Rltb Rgtb Rmult Rabs];
    rewrite (Rltb_false (0 * 0) 0) by lra; cbn -[Rltb Rgtb Rmult Rabs];
    unfold Rgtb; rewrite (Rltb_false 0.8 (0 * 1.1)) by lra;
    cbn -[Rltb Rgtb Rmult Rabs]; lra.
Qed.

End ionization_basics.

(** ** The global convergence check *)

Section check_convergence_facts.
Import Ionization Notions.
Local Open Scope Z_scope.

Lemma count_zero_cons fld c cells :
  count_zero fld (c :: cells)
    = (if fld c =? 0 then 1 else 0) + count_zero fld cells.
Proof.
  unfold count_zero. rewrite filter_cons.
  destruct (Z.eqb_spec (fld c) 0) as [H0 | H0]; case_decide; try contradiction.
  - cbn [length]. lia.
  - lia.
Qed.

Lemma for_loop_ext {S : Type} (n : nat) (body body' : nat -> S -> S) (s : S) :
  (forall i t, (i < n)%nat -> body i t = body' i t) ->
  for_loop n body s = for_loop n body' s.
Proof.
  induction n as [| n IH]; intros Hb; [reflexivity |].
  rewrite !for_loop_S, IH by (intros; apply Hb; lia).
  apply Hb. lia.
Qed.

(** A loop over the indices of an array that only reads the current
    element is a fold over the array. *)
Lemma for_loop_over_array {A S : Type} `{Inhabited A}
    (l : list A) (step : A -> S -> S) (s : S) :
  for_loop (length l) (fun n k => step (l !!! n) k) s
    = fold_left (fun k c => step c k) l s.
Proof.
  induction l as [| x l IH] using rev_ind; [reflexivity |].
  rewrite length_app, Nat.add_1_r, for_loop_S, fold_left_app. cbn [fold_left].
  rewrite (lookup_total_app_r l [x]) by lia. rewrite Nat.sub_diag. cbn.
  f_equal. rewrite <- IH. apply for_loop_ext.
  intros i t Hi. rewrite lookup_total_app_l by lia. reflexivity.
Qed.

(** The loop of [check_convergence] adds, to each counter, the number of
    cells it counts. *)
Lemma tally_all cells k :
  let k' := fold_left (fun k c => tally c k) cells k in
  nconverge k' = nconverge k + count_zero converge_whole cells /\
  nconverging k' = nconverging k + count_zero converging cells /\
  ntot k' = ntot k + Z.of_nat (length cells) /\
  nte k' = nte k + count_zero techeck cells /\
  ntr k' = ntr k + count_zero trcheck cells /\
  nhc k' = nhc k + count_zero hccheck cells.
Proof.
  revert k. induction cells as [| c cells IH]; intros k.
  - unfold count_zero. cbn. lia.
  - cbn [fold_left]. cbv zeta.
    destruct (IH (tally c k)) as (H1 & H2 & H3 & H4 & H5 & H6).
    rewrite H1, H2, H3, H4, H5, H6, !count_zero_cons. cbn [tally nconverge nconverging ntot nte ntr nhc length].
    repeat split; try lia;
      match goal with |- context [if ?b then _ else _] => destruct b end; lia.
Qed.

(** What [check_convergence] logs: the exact counts of converged and of
    converging cells and the number of cells, but each per-criterion count
    on top of the value its counter had on entry. It returns 0. *)
Lemma check_convergence_logs (nte0 ntr0 nhc0 : Z) (m : mem) :
  let r := check_convergence nte0 ntr0 nhc0 m in
  fst r = 0 /\
  log_nconverge (snd r) = count_zero converge_whole (plasmamain m) /\
  log_nconverging (snd r) = count_zero converging (plasmamain m) /\
  log_ntot (snd r) = Z.of_nat (NPLASMA m) /\
  log_ntr (snd r) = ntr0 + count_zero trcheck (plasmamain m) /\
  log_nte (snd r) = nte0 + count_zero techeck (plasmamain m) /\
  log_nhc (snd r) = nhc0 + count_zero hccheck (plasmamain m).
Proof.
  unfold check_convergence, NPLASMA. cbv zeta.
  cbn [fst snd log_nconverge log_nconverging log_ntot log_ntr log_nte log_nhc].
  match goal with |- context [for_loop ?len ?body ?init] =>
    change (for_loop len body init)
      with (for_loop len (fun i k => tally (plasmamain m !!! i) k) init)
  end.
  rewrite (for_loop_over_array (plasmamain m) tally).
  pose proof (tally_all (plasmamain m)
    {| nconverge := 0; nconverging := 0; ntot := 0;
       nte := nte0; ntr := ntr0; nhc := nhc0 |}) as Ht.
  cbv zeta in Ht. cbn [nconverge nconverging ntot nte ntr nhc] in Ht.
  destruct Ht as (H1 & H2 & H3 & H4 & H5 & H6).
  rewrite H1, H2, H3, H4, H5, H6. repeat split; lia.
Qed.

End check_convergence_facts.

(** C9. On the one-cell sample, whose cell meets all three criteria, with
    3, 5 and 7 in the three uninitialised counters on entry,
    [check_convergence] returns 0 and logs the exact counts of converged
    and of converging cells, but logs 6, 4 and 8 as the numbers of cells
    that meet the [t_r], [t_e] and heating-cooling criteria, where the
    exact count is 1 each. *)
Theorem check_convergence_uninitialised_counters :
  let cells := Ionization.plasmamain Notions.sample_mem in
  let r := Ionization.check_convergence 3 5 7 Notions.sample_mem in
  (Notions.count_zero Ionization.trcheck cells = 1 /\
   Notions.count_zero Ionization.techeck cells = 1 /\
   Notions.count_zero Ionization.hccheck cells = 1)%Z /\
  (fst r = 0 /\
   Ionization.log_nconverge (snd r) = 1 /\
   Ionization.log_nconverging (snd r) = 1 /\
   Ionization.log_ntot (snd r) = 1 /\
   Ionization.log_ntr (snd r) = 6 /\
   Ionization.log_nte (snd r) = 4 /\
   Ionization.log_nhc (snd r) = 8)%Z.
Proof.
  intros cells r.
  assert (Notions.count_zero Ionization.trcheck cells = 1%Z) as Htr by reflexivity.
  assert (Notions.count_zero Ionization.techeck cells = 1%Z) as Hte by reflexivity.
  assert (Notions.count_zero Ionization.hccheck cells = 1%Z) as Hhc by reflexivity.
  split; [auto |].
  destruct (check_convergence_logs 3 5 7 Notions.sample_mem)
    as (H0 & H1 & H2 & H3 & H4 & H5 & H6).
  fold r in H0, H1, H2, H3, H4, H5, H6. fold cells in H1, H2, H4, H5, H6.
  rewrite H0, H1, H2, H3, H4, H5, H6, Htr, Hte, Hhc.
  repeat split.
Qed.

(** ** The store *)

Section store_facts.
Import Ionization.

Lemma NPLASMA_store p c m : NPLASMA (store p c m) = NPLASMA m.
Proof. unfold NPLASMA, store. cbn. apply length_insert. Qed.

Lemma NPLASMA_modify p upd m : NPLASMA (modify p upd m) = NPLASMA m.
Proof. apply NPLASMA_store. Qed.

Lemma xxxplasma_modify p upd m : xxxplasma (modify p upd m) = xxxplasma m.
Proof. reflexivity. Qed.

Lemma cell_store p c m : p < NPLASMA m -> cell (store p c m) p = c.
Proof.
  intros Hp. unfold cell, store. cbn.
  apply list_lookup_total_insert_eq. exact Hp.
Qed.

Lemma cell_store_other p q c m : p <> q -> cell (store p c m) q = cell m q.
Proof.
  intros Hp. unfold cell, store. cbn.
  apply list_lookup_total_insert_ne. exact Hp.
Qed.

Lemma cell_modify p upd m :
  p < NPLASMA m -> cell (modify p upd m) p = upd (cell m p).
Proof. apply cell_store. Qed.

(** A write through a dangling pointer changes nothing in the model. *)
Lemma store_out_of_range p c m : NPLASMA m <= p -> store p c m = m.
Proof.
  intros Hp. unfold store. rewrite list_insert_ge by exact Hp.
  destruct m; reflexivity.
Qed.

(** Running a root finder keeps whatever every call of the callback
    keeps. *)
Lemma run_invariant {S : Type} (I : S -> Prop) (func : R -> S -> R * S) :
  (forall t s, I s -> I (snd (func t s))) ->
  forall sv s, I s -> I (snd (run sv func s)).
Proof.
  intros Hf sv. induction sv as [x | t k IH]; intros s Hs; [exact Hs |].
  cbn [run]. specialize (Hf t s Hs). destruct (func t s) as [y s'].
  apply IH. exact Hf.
Qed.

(** A callback that only reads leaves the state alone. *)
Lemma run_pure {S : Type} (g : S -> R -> R) sv (s : S) :
  snd (run sv (fun x s => (g s x, s)) s) = s.
Proof.
  apply (run_invariant (fun s' => s' = s)); [| reflexivity].
  intros t s' Hs. exact Hs.
Qed.

End store_facts.

(** ** The temperature solver *)

Section calc_te_facts.
Import Ionization.
Local Open Scope R_scope.
Context {phys : Physics}.

Lemma NPLASMA_compute_dr_coeffs t m : NPLASMA (compute_dr_coeffs t m) = NPLASMA m.
Proof. reflexivity. Qed.

Lemma xxxplasma_compute_dr_coeffs t m :
  xxxplasma (compute_dr_coeffs t m) = xxxplasma m.
Proof. reflexivity. Qed.

Lemma cell_compute_dr_coeffs t m q : cell (compute_dr_coeffs t m) q = cell m q.
Proof. reflexivity. Qed.

(** A pointer that is valid stays valid along a chain of writes. *)
Ltac in_range :=
  rewrite ?NPLASMA_modify, ?NPLASMA_compute_dr_coeffs, ?NPLASMA_modify;
  assumption.

(** [zero_emit] leaves the size of the array and the pointer alone. *)
Lemma zero_emit_frame t m :
  NPLASMA (snd (zero_emit t m)) = NPLASMA m /\
  xxxplasma (snd (zero_emit t m)) = xxxplasma m.
Proof.
  unfold zero_emit. cbv zeta. cbn [snd]. split.
  - rewrite !NPLASMA_modify, NPLASMA_compute_dr_coeffs, !NPLASMA_modify.
    reflexivity.
  - rewrite !xxxplasma_modify, xxxplasma_compute_dr_coeffs, !xxxplasma_modify.
    reflexivity.
Qed.

(** The value of [zero_emit] at [t] is the heating minus the cooling of
    the cell [xxxplasma] points to, as [zero_emit] leaves it, with [t_e]
    set to [t]. *)
Lemma zero_emit_value t m :
  (xxxplasma m < NPLASMA m)%nat ->
  let c := cell (snd (zero_emit t m)) (xxxplasma m) in
  fst (zero_emit t m)
    = heat_tot c - lum_adiabatic c - lum_dr c - lum_comp c
      - total_emission c 0 VERY_BIG /\
  t_e c = t.
Proof.
  intros Hp c. subst c. unfold zero_emit. cbv zeta. cbn [fst snd].
  split; [reflexivity |].
  rewrite !cell_modify by in_range. rewrite cell_compute_dr_coeffs.
  rewrite !cell_modify by in_range. reflexivity.
Qed.

Lemma run_zero_emit_frame sv m :
  NPLASMA (snd (run sv zero_emit m)) = NPLASMA m.
Proof.
  apply (run_invariant (fun s => NPLASMA s = NPLASMA m)); [| reflexivity].
  intros t s Hs. destruct (zero_emit_frame t s) as [-> _]. exact Hs.
Qed.


End calc_te_facts.

(** ** The driver and the orchestrator *)

Section orchestrator_facts.
Import Ionization Notions.
Local Open Scope R_scope.
Context {phys : Physics}.

(** An update that keeps a field keeps it in every cell of the array,
    whether the pointer is valid or not. *)
Lemma field_modify {A : Type} (fld : plasma -> A) p q upd m :
  (forall c, fld (upd c) = fld c) ->
  fld (cell (modify p upd m) q) = fld (cell m q).
Proof.
  intros Hf. destruct (decide (p = q)) as [<- | Hne].
  - destruct (decide (p < NPLASMA m)%nat) as [Hp | Hp].
    + rewrite cell_modify by exact Hp. apply Hf.
    + unfold modify. rewrite store_out_of_range by lia. reflexivity.
  - unfold modify. rewrite cell_store_other by exact Hne. reflexivity.
Qed.

Lemma modify_modify p g h m :
  modify p g (modify p h m) = modify p (fun c => g (h c)) m.
Proof.
  destruct (decide (p < NPLASMA m)%nat) as [Hp | Hp].
  - unfold modify at 1. rewrite cell_modify by exact Hp.
    unfold modify, store. cbn. rewrite list_insert_insert_eq. reflexivity.
  - unfold modify. rewrite !(store_out_of_range p _ m) by lia. reflexivity.
Qed.

Lemma modify_ext p g h m :
  g (cell m p) = h (cell m p) -> modify p g m = modify p h m.
Proof. intros Heq. unfold modify. rewrite Heq. reflexivity. Qed.

(** [zero_emit], [zbrent] on [zero_emit] and [calc_te] keep [t_r]. *)
Lemma zero_emit_t_r t m q :
  t_r (cell (snd (zero_emit t m)) q) = t_r (cell m q).
Proof.
  unfold zero_emit. cbv zeta. cbn [snd].
  repeat (rewrite field_modify by reflexivity).
  rewrite cell_compute_dr_coeffs.
  repeat (rewrite field_modify by reflexivity).
  reflexivity.
Qed.

Lemma calc_te_t_r p tmin tmax m q :
  t_r (cell (snd (calc_te p tmin tmax m)) q) = t_r (cell m q).
Proof.
  unfold calc_te.
  set (m0 := modify p (set_t_e tmin) (set_xxxplasma p m)).
  assert (t_r (cell m0 q) = t_r (cell m q)) as H0.
  { subst m0. rewrite field_modify by reflexivity. reflexivity. }
  pose proof (zero_emit_t_r tmin m0 q) as H1.
  destruct (zero_emit tmin m0) as [z1 m1]. cbn [snd] in H1.
  pose proof (zero_emit_t_r tmax (modify p (set_t_e tmax) m1) q) as H2.
  rewrite field_modify in H2 by reflexivity.
  destruct (zero_emit tmax (modify p (set_t_e tmax) m1)) as [z2 m2].
  cbn [snd] in H2. cbn [snd].
  repeat (rewrite field_modify by reflexivity).
  destruct (z1 * z2 <? 0).
  - assert (t_r (cell (snd (run (zbrent tmin tmax 50) zero_emit m2)) q)
              = t_r (cell m2 q)) as H3.
    { apply (run_invariant (fun s => t_r (cell s q) = t_r (cell m2 q)));
        [| reflexivity].
      intros t s Hs. rewrite zero_emit_t_r. exact Hs. }
    destruct (run (zbrent tmin tmax 50) zero_emit m2) as [root m3].
    cbn [snd] in H3. rewrite field_modify by reflexivity. congruence.
  - destruct (fabs z1 <? fabs z2); rewrite field_modify by reflexivity; congruence.
Qed.

(** [one_shot] leaves the process for a mode it does not know and for a
    radiation temperature of at most 10; otherwise it returns 0, whatever
    [nebular_concentrations] reports. *)
Lemma one_shot_outcome p mode m :
  exists m',
    one_shot p mode m =
      match one_shot_mode mode with
      | None => Exit
      | Some _ => if t_r (cell m p) >? 10 then Done (0%Z, m') else Exit
      end.
Proof.
  unfold one_shot, one_shot_mode.
  pose proof (calc_te_t_r p (0.7 * t_e (cell m p)) (1.3 * t_e (cell m p)) m p) as Ht.
  destruct (calc_te p (0.7 * t_e (cell m p)) (1.3 * t_e (cell m p)) m) as [te_new m1].
  cbn [snd] in Ht. cbv zeta.
  rewrite field_modify by reflexivity. rewrite Ht.
  destruct (mode =? 3)%Z.
  - cbn. destruct (t_r (cell m p) >? 10); [| exists m; reflexivity].
    destruct (nebular_concentrations _ 2) as [status c]. eexists. reflexivity.
  - destruct ((mode <=? 1) || (mode >=? 6))%Z; [exists m; reflexivity |].
    cbn. destruct (t_r (cell m p) >? 10); [| exists m; reflexivity].
    destruct (nebular_concentrations _ mode) as [status c]. eexists. reflexivity.
Qed.

(** The five assignments of the history shift, in the order of the
    source, amount to the simultaneous shift. *)
Lemma history_shift_writes p m :
  modify p (fun c => set_lum_rad_old (lum_rad c) c)
    (modify p (fun c => set_t_r_old (t_r c) c)
       (modify p (fun c => set_t_e_old (t_e c) c)
          (modify p (fun c => set_dt_e (t_e c - t_e_old c) c)
             (modify p (fun c => set_dt_e_old (dt_e c) c) m))))
  = modify p history_shift m.
Proof.
  rewrite !modify_modify. apply modify_ext. reflexivity.
Qed.

Lemma ion_abundances_mode3 fuel p m :
  ion_abundances fuel p 3 m =
    ('(ireturn, m2) ← one_shot p 3 (modify p history_shift m);
     Done (ireturn, auger_step p (modify p (fun c => snd (convergence c)) m2))).
Proof.
  unfold ion_abundances. cbn [Z.eqb Pos.eqb]. rewrite history_shift_writes.
  destruct (one_shot p 3 (modify p history_shift m)) as [[ireturn m2] | |];
    reflexivity.
Qed.

Lemma ion_abundances_mode5 fuel p m :
  ion_abundances fuel p 5 m =
    (m0 ← for_bands (seq 0 nxfreq) (fit_band fuel p) m;
     '(ireturn, m2) ← one_shot p 5 (modify p history_shift m0);
     Done (ireturn, auger_step p (modify p (fun c => snd (convergence c)) m2))).
Proof.
  unfold ion_abundances. cbn [Z.eqb Pos.eqb].
  destruct (for_bands (seq 0 nxfreq) (fit_band fuel p) m) as [m0 | |];
    [| reflexivity | reflexivity].
  cbn [mbind outcome_bind]. rewrite history_shift_writes.
  destruct (one_shot p 5 (modify p history_shift m0)) as [[ireturn m2] | |];
    reflexivity.
Qed.

(** The band fit only writes [sim_alpha] and [sim_w] of the cell. *)
Lemma fit_band_keeps {A : Type} (fld : plasma -> A) fuel p b m m' q :
  (forall v c, fld (set_sim_w v c) = fld c) ->
  (forall v c, fld (set_sim_alpha v c) = fld c) ->
  fit_band fuel p b m = Done m' ->
  fld (cell m' q) = fld (cell m q).
Proof.
  intros Hw Ha. unfold fit_band.
  assert (fld (cell (snd (band_setup p b m)) q) = fld (cell m q)) as Hs.
  { unfold band_setup. destruct (_ =? 0)%Z; cbn [snd].
    - rewrite field_modify by (intros; apply Hw). reflexivity.
    - reflexivity. }
  destruct (band_setup p b m) as [j m1]. cbn [snd] in Hs.
  destruct (band_bracket fuel p b m1) as [[lo hi] |]; [| discriminate].
  destruct (band_candidate j lo hi m1) as [alphatemp sim_w_temp].
  intros [= <-]. rewrite <- Hs. unfold band_commit.
  destruct (negb _); [reflexivity |].
  rewrite !field_modify by (intros; first [apply Hw | apply Ha]).
  reflexivity.
Qed.

Lemma for_bands_keeps {A : Type} (fld : plasma -> A) fuel p bands m m' q :
  (forall v c, fld (set_sim_w v c) = fld c) ->
  (forall v c, fld (set_sim_alpha v c) = fld c) ->
  for_bands bands (fit_band fuel p) m = Done m' ->
  fld (cell m' q) = fld (cell m q).
Proof.
  intros Hw Ha. revert m. induction bands as [| b bands IH]; intros m.
  - intros [= <-]. reflexivity.
  - cbn [for_bands].
    destruct (fit_band fuel p b m) as [m1 | |] eqn:Hb; try discriminate.
    cbn [mbind outcome_bind]. intros Hrest.
    rewrite (IH m1 Hrest). apply (fit_band_keeps fld fuel p b m m1 q Hw Ha Hb).
Qed.

(** In the two [one_shot] modes a call that returns, returns 0: the status
    of [nebular_concentrations] is dropped inside [one_shot]. *)
Lemma ion_abundances_mode3_outcome fuel p m :
  exists m',
    ion_abundances fuel p 3 m =
      if t_r (cell m p) >? 10 then Done (0%Z, m') else Exit.
Proof.
  rewrite ion_abundances_mode3.
  destruct (one_shot_outcome p 3 (modify p history_shift m)) as [m2 ->].
  cbn [one_shot_mode Z.eqb Pos.eqb].
  assert (t_r (cell (modify p history_shift m) p) = t_r (cell m p)) as ->
    by (apply field_modify; reflexivity).
  destruct (t_r (cell m p) >? 10); cbn [mbind outcome_bind];
    [eexists; reflexivity | exists m; reflexivity].
Qed.

Lemma ion_abundances_mode5_outcome fuel p m :
  match for_bands (seq 0 nxfreq) (fit_band fuel p) m with
  | Done _ =>
      exists m',
        ion_abundances fuel p 5 m =
          if t_r (cell m p) >? 10 then Done (0%Z, m') else Exit
  | Exit => ion_abundances fuel p 5 m = Exit
  | Diverge => ion_abundances fuel p 5 m = Diverge
  end.
Proof.
  rewrite ion_abundances_mode5.
  destruct (for_bands (seq 0 nxfreq) (fit_band fuel p) m) as [m0 | |] eqn:Hfit;
    [| reflexivity | reflexivity].
  cbn [mbind outcome_bind].
  destruct (one_shot_outcome p 5 (modify p history_shift m0)) as [m2 ->].
  cbn [one_shot_mode Z.eqb Z.leb Z.geb Z.compare Pos.compare Pos.compare_cont Pos.eqb orb].
  assert (t_r (cell (modify p history_shift m0) p) = t_r (cell m p)) as ->.
  { rewrite field_modify by reflexivity.
    apply (for_bands_keeps t_r fuel p (seq 0 nxfreq) m m0 p);
      [reflexivity | reflexivity | exact Hfit]. }
  destruct (t_r (cell m p) >? 10); cbn [mbind outcome_bind];
    [eexists; reflexivity | exists m; reflexivity].
Qed.




(** C6, as amended. In modes 0, 1, 2 and 4 [ion_abundances] returns the
    status of the abundance routine it calls. In modes 3 and 5 it returns
    what [one_shot] returns, which is 0 whatever the abundance routine
    reports; [one_shot] leaves the process when [t_r] is at most 10. *)
Theorem ion_abundances_return_value (fuel p : nat) (m : mem) :
  (exists m', ion_abundances fuel p 0 m
     = Done (fst (nebular_concentrations (cell m p) 2), m')) /\
  (exists m', ion_abundances fuel p 1 m
     = Done (fst (nebular_concentrations (cell m p) 1), m')) /\
  (exists m', ion_abundances fuel p 2 m
     = Done (fst (fix_concentrations (cell m p) 0), m')) /\
  (exists m', ion_abundances fuel p 4 m
     = Done (fst (nebular_concentrations (cell m p) 5), m')) /\
  (exists m', ion_abundances fuel p 3 m
     = if t_r (cell m p) >? 10 then Done (0%Z, m') else Exit) /\
  match for_bands (seq 0 nxfreq) (fit_band fuel p) m with
  | Done _ =>
      exists m',
        ion_abundances fuel p 5 m =
          if t_r (cell m p) >? 10 then Done (0%Z, m') else Exit
  | Exit => ion_abundances fuel p 5 m = Exit
  | Diverge => ion_abundances fuel p 5 m = Diverge
  end.
Proof.
  repeat split.
  - unfold ion_abundances. cbn [Z.eqb].
    destruct (nebular_concentrations (cell m p) 2) as [status c].
    eexists. reflexivity.
  - unfold ion_abundances. cbn [Z.eqb Pos.eqb].
    destruct (nebular_concentrations (cell m p) 1) as [status c].
    eexists. reflexivity.
  - unfold ion_abundances. cbn [Z.eqb Pos.eqb].
    destruct (fix_concentrations (cell m p) 0) as [status c].
    eexists. reflexivity.
  - unfold ion_abundances. cbn [Z.eqb Pos.eqb].
    destruct (nebular_concentrations (cell m p) 5) as [status c].
    eexists. reflexivity.
  - apply ion_abundances_mode3_outcome.
  - apply ion_abundances_mode5_outcome.
Qed.

End orchestrator_facts.

(** C6, as stated, fails in mode 3: with an abundance routine that reports
    status 1 on every call, [ion_abundances] still returns 0. *)
Lemma ion_abundances_mode3_drops_status :
  let phys := Notions.sample_physics 1 Notions.sim_w_model in
  (forall c mode, fst (Ionization.nebular_concentrations c mode) = 1%Z) /\
  exists m',
    Ionization.ion_abundances 0 0 3 Notions.sample_mem = Ionization.Done (0%Z, m').
Proof.
  intros phys. split; [reflexivity |].
  destruct (ion_abundances_mode3_outcome (phys := phys) 0 0 Notions.sample_mem)
    as [m' Hm].
  exists m'. rewrite Hm.
  change (Ionization.t_r (Ionization.cell Notions.sample_mem 0)) with 20000%R.
  unfold Ionization.Rgtb. rewrite Rltb_true by lra. reflexivity.
Qed.

(** ** The machine's numbers *)

Section machine_facts.
Import Ionization.
Local Open Scope R_scope.

Lemma Rpower_2_nat (n : nat) : Rpower 2 (INR n) = 2 ^ n.
Proof. apply Rpower_pow. lra. Qed.

Lemma Rpower_2_11 : Rpower 2 11 = 2048.
Proof.
  replace 11 with (INR 11) by (simpl; lra). rewrite Rpower_2_nat. simpl. lra.
Qed.

Lemma DBL_OVERFLOW_big : 2048 <= DBL_OVERFLOW.
Proof.
  unfold DBL_OVERFLOW.
  assert (Rpower 2 (-53) <= 1) as H1.
  { rewrite <- (Rpower_O 2) by lra. apply Rle_Rpower; lra. }
  assert (2048 <= Rpower 2 1023) as H2.
  { rewrite <- Rpower_2_11. apply Rle_Rpower; lra. }
  nra.
Qed.













End machine_facts.

Section pole_facts.
Import Ionization Notions.
Local Open Scope R_scope.





End pole_facts.

Section exact_facts.
Import Ionization Notions.
Local Open Scope R_scope.


End exact_facts.

Section overflow_facts.
Import Ionization Notions.
Local Open Scope R_scope.

(** A positive result is finite or plus infinity. *)
Lemma fl_pos_cases (x : R) : 0 < x -> fl x = PInf \/ exists y, fl x = Fin y.
Proof.
  intros Hx. pose proof DBL_OVERFLOW_big as Hbig. unfold fl.
  destruct (Rle_dec DBL_OVERFLOW x); [left; reflexivity |].
  destruct (Rle_dec x (- DBL_OVERFLOW)); [exfalso; lra |].
  destruct (Rle_dec (Rabs x) DBL_UNDERFLOW); right; eexists; reflexivity.
Qed.

Lemma dpow_pos_cases (x y : R) :
  0 < x -> dpow x y = PInf \/ exists z, dpow x y = Fin z.
Proof.
  intros Hx. unfold dpow.
  destruct (Req_dec_T y 0); [right; eexists; reflexivity |].
  destruct (Rlt_dec 0 x); [| contradiction].
  apply fl_pos_cases, exp_pos.
Qed.

(** [pow] overflows to plus infinity. *)
Lemma dpow_overflow (x y : R) :
  0 < x -> DBL_OVERFLOW <= Rpower x y -> dpow x y = PInf.
Proof.
  intros Hx Hov. pose proof DBL_OVERFLOW_big as Hbig. unfold dpow.
  destruct (Req_dec_T y 0) as [-> |].
  { rewrite Rpower_O in Hov by exact Hx. lra. }
  destruct (Rlt_dec 0 x); [| contradiction].
  unfold fl. destruct (Rle_dec DBL_OVERFLOW (Rpower x y)); [reflexivity | contradiction].
Qed.

(** Infinity over infinity is not a number. *)
Lemma overflow_ratio_high (u v : dbl) :
  (u = PInf \/ exists z, u = Fin z) -> (v = PInf \/ exists z, v = Fin z) ->
  ddiv (dsub PInf u) (dsub PInf v) = NaN.
Proof. intros [-> | [z ->]] [-> | [w ->]]; reflexivity. Qed.

Lemma overflow_ratio_low (u v : dbl) :
  (u = PInf \/ exists z, u = Fin z) -> (v = PInf \/ exists z, v = Fin z) ->
  ddiv (dsub u PInf) (dsub v PInf) = NaN.
Proof. intros [-> | [z ->]] [-> | [w ->]]; reflexivity. Qed.

Lemma dmul_nan_r (d : dbl) : dmul d NaN = NaN.
Proof. destruct d; reflexivity. Qed.

(** Once both powers of the upper band edge overflow, [sim_alpha_func] is
    not a number. *)
Lemma sim_alpha_func_fp_overflow_high (m : mem) (alpha : R) :
  0 < sim_numin m -> 1 < sim_numax m ->
  DBL_OVERFLOW <= Rpower (sim_numax m) (alpha + 1) ->
  sim_alpha_func_fp m alpha = NaN.
Proof.
  intros Hmin Hmax Hov.
  assert (DBL_OVERFLOW <= Rpower (sim_numax m) (alpha + 2)) as Hov2.
  { replace (alpha + 2) with (alpha + 1 + 1) by lra.
    rewrite Rpower_plus, Rpower_1 by lra.
    pose proof DBL_OVERFLOW_big. nra. }
  unfold sim_alpha_func_fp. cbv zeta.
  rewrite (dpow_overflow (sim_numax m) (alpha + 2)) by (lra || exact Hov2).
  rewrite (dpow_overflow (sim_numax m) (alpha + 1)) by (lra || exact Hov).
  rewrite overflow_ratio_high by (apply dpow_pos_cases; exact Hmin).
  rewrite dmul_nan_r. reflexivity.
Qed.

(** The same for the powers of the lower band edge, at falling slopes. *)
Lemma sim_alpha_func_fp_overflow_low (m : mem) (alpha : R) :
  0 < sim_numin m < 1 -> 0 < sim_numax m ->
  DBL_OVERFLOW <= Rpower (sim_numin m) (alpha + 2) ->
  sim_alpha_func_fp m alpha = NaN.
Proof.
  intros [Hmin Hmin1] Hmax Hov.
  assert (DBL_OVERFLOW <= Rpower (sim_numin m) (alpha + 1)) as Hov1.
  { replace (alpha + 2) with (alpha + 1 + 1) in Hov by lra.
    rewrite Rpower_plus, Rpower_1 in Hov by lra.
    pose proof (exp_pos ((alpha + 1) * ln (sim_numin m))) as Hpos.
    fold (Rpower (sim_numin m) (alpha + 1)) in Hpos. nra. }
  unfold sim_alpha_func_fp. cbv zeta.
  rewrite (dpow_overflow (sim_numin m) (alpha + 2)) by (lra || exact Hov).
  rewrite (dpow_overflow (sim_numin m) (alpha + 1)) by (lra || exact Hov1).
  rewrite overflow_ratio_low by (apply dpow_pos_cases; exact Hmax).
  rewrite dmul_nan_r. reflexivity.
Qed.

(** A power of a base above 1 passes every bound as the exponent grows,
    and a power of a base below 1 as the exponent falls. *)
Lemma Rpower_unbounded (x B : R) :
  1 < x -> exists N : nat, forall y, INR N <= y -> B <= Rpower x y.
Proof.
  intros Hx.
  destruct (Pow_x_infinity x ltac:(rewrite Rabs_pos_eq; lra) B) as [N HN].
  exists N. intros y Hy.
  pose proof (HN N ltac:(lia)) as HB.
  rewrite Rabs_pos_eq in HB by (apply pow_le; lra).
  rewrite <- Rpower_pow in HB by lra.
  pose proof (Rle_Rpower x (INR N) y ltac:(lra) Hy). lra.
Qed.

Lemma Rpower_unbounded_neg (x B : R) :
  0 < x < 1 -> exists N : nat, forall y, y <= - INR N -> B <= Rpower x y.
Proof.
  intros [Hx0 Hx1].
  assert (1 < / x) as Hinv.
  { rewrite <- Rinv_1. apply Rinv_lt_contravar; lra. }
  destruct (Rpower_unbounded (/ x) B Hinv) as [N HN].
  exists N. intros y Hy.
  replace (Rpower x y) with (Rpower (/ x) (- y)).
  - apply HN. lra.
  - unfold Rpower. rewrite ln_Rinv by exact Hx0. f_equal. ring.
Qed.

(** The loop compares with the literal [0.0]. *)
Lemma dgt_zero (d : dbl) : dgt d 0.0 = dgt d 0.
Proof.
  destruct d as [x | | |]; try reflexivity.
  cbn [dgt]. unfold Rgtb, Rltb.
  destruct (Rlt_dec 0.0 x), (Rlt_dec 0 x); try reflexivity; exfalso; lra.
Qed.

(** If the test of the loop fails after [n] widenings, the loop stops
    after at most [n] of them, whatever fuel is left. *)
Lemma widen_stops (m : mem) (n : nat) : forall a0 b0,
  dgt (dmul (sim_alpha_func_fp m (a0 - INR n)) (sim_alpha_func_fp m (b0 + INR n))) 0
    = false ->
  exists k, (k <= n)%nat /\
    forall fuel, (n < fuel)%nat ->
      widen fuel m a0 b0 = Some (a0 - INR k, b0 + INR k).
Proof.
  induction n as [| n IH]; intros a0 b0 Hn.
  - exists 0%nat. split; [lia |]. intros [| fuel] Hf; [lia |].
    cbn [INR] in *. rewrite Rminus_0_r, Rplus_0_r in *.
    cbn [widen]. rewrite dgt_zero, Hn. reflexivity.
  - destruct (dgt (dmul (sim_alpha_func_fp m a0) (sim_alpha_func_fp m b0)) 0) eqn:Hgt.
    + destruct (IH (a0 - 1.0) (b0 + 1.0)) as (k & Hk & Hw).
      { replace (a0 - 1.0 - INR n) with (a0 - INR (S n)) by (rewrite S_INR; lra).
        replace (b0 + 1.0 + INR n) with (b0 + INR (S n)) by (rewrite S_INR; lra).
        exact Hn. }
      exists (S k). split; [lia |]. intros [| fuel] Hf; [lia |].
      cbn [widen]. rewrite dgt_zero, Hgt, Hw by lia.
      replace (a0 - INR (S k)) with (a0 - 1.0 - INR k) by (rewrite S_INR; lra).
      replace (b0 + INR (S k)) with (b0 + 1.0 + INR k) by (rewrite S_INR; lra).
      reflexivity.
    + exists 0%nat. split; [lia |]. intros [| fuel] Hf; [lia |].
      cbn [widen INR]. rewrite dgt_zero, Hgt, Rminus_0_r, Rplus_0_r. reflexivity.
Qed.

(** The bracket search of a band with edges [0 < numin < numax] always
    stops: at the latest when a power of a band edge overflows at both
    exponents, which makes the product not a number. *)
Lemma band_bracket_returns (p b : nat) (m : mem) :
  0 < sim_numin m < sim_numax m ->
  exists K k, (k <= K)%nat /\
    forall fuel, (K < fuel)%nat ->
      band_bracket fuel p b m
        = Some (sim_alpha (cell m p) !!! b - 0.1 - INR k,
                sim_alpha (cell m p) !!! b + 0.1 + INR k).
Proof.
  intros [Hmin Hmax]. unfold band_bracket. cbv zeta.
  set (alpha := sim_alpha (cell m p) !!! b).
  assert (exists K,
    dgt (dmul (sim_alpha_func_fp m (alpha - 0.1 - INR K))
              (sim_alpha_func_fp m (alpha + 0.1 + INR K))) 0 = false) as [K HK].
  { destruct (Rlt_or_le 1 (sim_numax m)) as [Hbig | Hsmall].
    - destruct (Rpower_unbounded (sim_numax m) DBL_OVERFLOW Hbig) as [N HN].
      destruct (INR_unbounded (INR N - alpha)) as [K HK].
      exists K.
      rewrite (sim_alpha_func_fp_overflow_high m (alpha + 0.1 + INR K))
        by (try apply HN; lra).
      rewrite dmul_nan_r. reflexivity.
    - destruct (Rpower_unbounded_neg (sim_numin m) DBL_OVERFLOW ltac:(lra)) as [N HN].
      destruct (INR_unbounded (INR N + alpha + 2)) as [K HK].
      exists K.
      rewrite (sim_alpha_func_fp_overflow_low m (alpha - 0.1 - INR K))
        by (try apply HN; lra).
      reflexivity. }
  destruct (widen_stops m K (alpha - 0.1) (alpha + 0.1) HK) as (k & Hk & Hw).
  exists K, k. split; [exact Hk | exact Hw].
Qed.

End overflow_facts.

Section band_one_two.
Import Ionization Notions.
Local Open Scope R_scope.





Variable m : mem.
Hypothesis Hmin : sim_numin m = 1.
Hypothesis Hmax : sim_numax m = 2.




End band_one_two.

(** ** The spectral-model fitter *)

Section fitter_facts.
Import Ionization Notions.
Local Open Scope R_scope.
Context {phys : Physics}.




(** The candidate slope is clamped to [[-3, 3]]. *)
Lemma band_candidate_clamped j lo hi m :
  -3 <= fst (band_candidate j lo hi m) <= 3.
Proof.
  unfold band_candidate.
  destruct (run (zbrent lo hi 0.00001) _ m) as [alphatemp m']. cbv zeta.
  cbn [fst].
  destruct (Rgtb_spec alphatemp 3.0) as [H3 | H3].
  - rewrite Rltb_false by lra. lra.
  - destruct (Rltb_spec alphatemp (-3.0)) as [Hm | Hm]; lra.
Qed.

(** The fit of a band returns as soon as the bracket search does. *)
Lemma fit_band_returns fuel p b m lo hi :
  let s := band_setup p b m in
  band_bracket fuel p b (snd s) = Some (lo, hi) ->
  let cand := band_candidate (fst s) lo hi (snd s) in
  fit_band fuel p b m = Done (band_commit p b (fst cand) (snd cand) (snd s)).
Proof.
  intros s Hbr cand. subst cand s. unfold fit_band.
  destruct (band_setup p b m) as [j m1]. cbn [fst snd] in *. rewrite Hbr.
  destruct (band_candidate j lo hi m1) as [alphatemp sim_w_temp]. reflexivity.
Qed.

(** With band edges [0 < numin < numax] the fit of a band returns, given
    enough fuel for the bracket search, and what it returns does not depend
    on the fuel. *)
Lemma fit_band_total p b m :
  let s := band_setup p b m in
  0 < sim_numin (snd s) < sim_numax (snd s) ->
  exists K m', forall fuel, (K < fuel)%nat -> fit_band fuel p b m = Done m'.
Proof.
  intros s Hband.
  destruct (band_bracket_returns p b (snd s) Hband) as (K & k & _ & Hw).
  exists K. eexists. intros fuel Hfuel.
  apply (fit_band_returns fuel p b m _ _ (Hw fuel Hfuel)).
Qed.




End fitter_facts.

(** ** The sample cell *)

Section sample_facts.
Import Ionization Notions.
Local Open Scope R_scope.


Variable status : Z.
Variable weight : R -> R -> R -> R -> R -> R -> option R.

Let phys : Physics := sample_physics status weight.
Existing Instance phys.


End sample_facts.





(** The dark cell, whose mean frequency 0 lies outside its band [[1, 2]]:
    no widening brings a sign change, and the fit returns all the same. *)
Lemma dark_fit_returns :
  let phys := Notions.sample_physics 0 Notions.sim_w_model in
  exists K m', forall fuel, (K < fuel)%nat ->
    Ionization.fit_band fuel 0 0 Notions.dark_mem = Ionization.Done m'.
Proof.
  intros phys. apply (fit_band_total 0 0 Notions.dark_mem). cbn. lra.
Qed.




(** ** The history shift *)

Section history_facts.
Import Ionization Notions.
Local Open Scope R_scope.
Context {phys : Physics}.


End history_facts.


(** ** The bracket search *)

Section power_law_facts.
Import Ionization Notions.
Local Open Scope R_scope.

Variables lo hi : R.
Hypothesis Hlo : 0 < lo.
Hypothesis Hhi : lo < hi.

Lemma pow_pos (x k : R) : 0 < pow x k.
Proof. unfold pow, Rpower. apply exp_pos. Qed.


Lemma pow_lt_pos (k : R) : 0 < k -> pow lo k < pow hi k.
Proof. intros Hk. apply Rlt_Rpower_l; lra. Qed.

Lemma pow_lt_neg (k : R) : k < 0 -> pow hi k < pow lo k.
Proof.
  intros Hk. unfold pow.
  replace k with (- (- k)) by lra.
  rewrite (Rpower_Ropp hi (- k)), (Rpower_Ropp lo (- k)).
  apply Rinv_0_lt_contravar.
  - apply (pow_pos lo).
  - apply Rlt_Rpower_l; lra.
Qed.

Lemma Rdiv_neg_neg (x y : R) : x < 0 -> y < 0 -> 0 < x / y.
Proof.
  intros Hx Hy. pose proof (Rinv_lt_0_compat y Hy). unfold Rdiv. nra.
Qed.

Lemma Rdiv_pos_neg (x y : R) : 0 < x -> y < 0 -> x / y < 0.
Proof.
  intros Hx Hy. pose proof (Rinv_lt_0_compat y Hy). unfold Rdiv. nra.
Qed.

Lemma Rdiv_neg_pos (x y : R) : x < 0 -> 0 < y -> x / y < 0.
Proof.
  intros Hx Hy. pose proof (Rinv_0_lt_compat y Hy). unfold Rdiv. nra.
Qed.

Lemma Rdiv_pos_pos (x y : R) : 0 < x -> 0 < y -> 0 < x / y.
Proof.
  intros Hx Hy. pose proof (Rinv_0_lt_compat y Hy). unfold Rdiv. nra.
Qed.

(** Away from the two slopes at which it is not defined, the mean
    frequency of the power law is positive. *)
Lemma power_law_mean_pos (alpha : R) :
  alpha + 1 <> 0 -> alpha + 2 <> 0 -> 0 < power_law_mean lo hi alpha.
Proof.
  intros H1 H2. unfold power_law_mean.
  destruct (Rlt_or_le 0 (alpha + 1)) as [Hp | Hn].
  - pose proof (pow_lt_pos (alpha + 1) Hp).
    pose proof (pow_lt_pos (alpha + 2) ltac:(lra)).
    apply Rmult_lt_0_compat; apply Rdiv_pos_pos; lra.
  - destruct (Rlt_or_le 0 (alpha + 2)) as [Hp2 | Hn2].
    + pose proof (pow_lt_neg (alpha + 1) ltac:(lra)).
      pose proof (pow_lt_pos (alpha + 2) Hp2).
      pose proof (Rdiv_neg_pos (alpha + 1) (alpha + 2) ltac:(lra) Hp2).
      pose proof (Rdiv_pos_neg (pow hi (alpha + 2) - pow lo (alpha + 2))
                    (pow hi (alpha + 1) - pow lo (alpha + 1)) ltac:(lra) ltac:(lra)).
      nra.
    + pose proof (pow_lt_neg (alpha + 1) ltac:(lra)).
      pose proof (pow_lt_neg (alpha + 2) ltac:(lra)).
      apply Rmult_lt_0_compat; apply Rdiv_neg_neg; lra.
Qed.



End power_law_facts.

Section widen_facts.
Import Ionization Notions.
Local Open Scope R_scope.
Context {phys : Physics}.






End widen_facts.

Section bracket_traces.
Import Ionization Notions.
Local Open Scope R_scope.

Let phys : Physics := sample_physics 0 sim_w_model.
Existing Instance phys.



End bracket_traces.



(** * Further properties *)

(** ** The partition, seen by the ranks together *)

Section partition_extras.
Import ParaUpdate Measures.
Local Open Scope Z_scope.

(** X1. When every rank asks for its own range, each cell index from 0 to
    [ntotal - 1] lies in the range of exactly one rank. *)
Theorem own_range_unique_owner (ntotal nproc n : Z) :
  1 <= nproc -> 0 <= n < ntotal ->
  exists r,
    (0 <= r < nproc /\
     my_nmin (own_range ntotal nproc r) <= n < my_nmax (own_range ntotal nproc r)) /\
    forall r',
      0 <= r' < nproc ->
      my_nmin (own_range ntotal nproc r') <= n < my_nmax (own_range ntotal nproc r') ->
      r' = r.
Proof.
  intros HP Hn.
  destruct (own_ranges_cover ntotal nproc ltac:(lia) HP n Hn) as (r & Hr & Hin).
  exists r. split; [split; assumption |].
  intros r' Hr' Hin'.
  destruct (Z.lt_trichotomy r' r) as [Hlt | [Heq | Hgt]]; [| exact Heq |].
  - pose proof (own_ranges_disjoint ntotal nproc ltac:(lia) HP r' r ltac:(lia)). lia.
  - pose proof (own_ranges_disjoint ntotal nproc ltac:(lia) HP r r' ltac:(lia)). lia.
Qed.

Lemma cells_of_first_S ntotal nproc k :
  cells_of_first ntotal nproc (S k)
    = cells_of_first ntotal nproc k + ndo (own_range ntotal nproc (Z.of_nat k)).
Proof.
  unfold cells_of_first. rewrite seq_S, fmap_app, foldr_app. cbn [fmap list_fmap foldr].
  change (foldr Z.add ?a ?l) with (fold_right Z.add a l).
  generalize ((λ r : nat, ndo (own_range ntotal nproc (Z.of_nat r))) <$> seq 0 k).
  intros l. cbn. induction l as [| y l IH]; cbn; lia.
Qed.

(** X2. When every rank asks for its own range, rank [r] takes
    [ntotal / nproc] cells, and one more if [r] is below the remainder
    [ntotal mod nproc]; the ranks below [k] take together as many cells as
    the range of rank [k] starts at, and all [nproc] ranks together take
    [ntotal] cells. *)
Theorem own_range_sizes_add_up (ntotal nproc : Z) :
  0 <= ntotal -> 1 <= nproc ->
  (forall r, 0 <= r ->
     ndo (own_range ntotal nproc r)
       = ntotal / nproc + (if r <? ntotal mod nproc then 1 else 0)) /\
  (forall k,
     cells_of_first ntotal nproc k
       = my_nmin (own_range ntotal nproc (Z.of_nat k))) /\
  cells_of_first ntotal nproc (Z.to_nat nproc) = ntotal.
Proof.
  intros HN HP.
  assert (ntotal - nproc * floor_quot ntotal nproc = ntotal mod nproc) as Hx.
  { unfold floor_quot. pose proof (Z.div_mod ntotal nproc ltac:(lia)). lia. }
  assert (forall r, 0 <= r ->
     ndo (own_range ntotal nproc r)
       = ntotal / nproc + (if r <? ntotal mod nproc then 1 else 0)) as Hsize.
  { intros r Hr.
    destruct (own_range_closed_form ntotal nproc r Hr) as (_ & _ & ->).
    cbv zeta. rewrite Hx. unfold floor_quot. destruct (r <? ntotal mod nproc); lia. }
  assert (forall k : nat,
     cells_of_first ntotal nproc k
       = my_nmin (own_range ntotal nproc (Z.of_nat k))) as Hsum.
  { induction k as [| k IH].
    - cbn [cells_of_first]. symmetry. apply (own_range_first ntotal nproc HN HP).
    - rewrite cells_of_first_S, IH.
      rewrite Nat2Z.inj_succ, <- Z.add_1_r.
      rewrite <- (own_range_adjacent ntotal nproc (Z.of_nat k)) by lia.
      unfold own_range, get_parallel_nrange.
      destruct (_ <? _); cbn; lia. }
  split; [exact Hsize | split; [exact Hsum |]].
  destruct (Z.to_nat nproc) as [| k] eqn:Hk; [lia |].
  rewrite cells_of_first_S, Hsum.
  assert (Z.of_nat k = nproc - 1) as -> by lia.
  pose proof (own_range_last ntotal nproc HN HP) as Hlast.
  unfold own_range, get_parallel_nrange in *.
  destruct (_ <? _); cbn in *; lia.
Qed.

(** X3. [get_max_cells_per_rank] is the ceiling of [n_total] over the
    number of ranks: the least number of cells per rank with which the
    ranks together hold [n_total] cells. *)
Theorem get_max_cells_per_rank_is_ceiling (g : mpi_globals) (n_total : Z) :
  1 <= np_mpi_global g ->
  n_total <= np_mpi_global g * get_max_cells_per_rank g n_total
    < n_total + np_mpi_global g.
Proof.
  intros HP. unfold get_max_cells_per_rank, ceil_quot.
  pose proof (Z.div_mod (- n_total) (np_mpi_global g) ltac:(lia)) as Hd.
  pose proof (Z.mod_pos_bound (- n_total) (np_mpi_global g) ltac:(lia)) as Hm.
  lia.
Qed.

(** X4. [get_parallel_nrange] gives the range of [rank] whenever the rank
    asks for itself ([rank_global] equals [rank]) or [rank] is at or above
    the remainder [ntotal - nproc * (ntotal / nproc)]: the global is only
    read for a rank below the remainder. *)
Theorem get_parallel_nrange_own_or_above_remainder
    (g : mpi_globals) (rank ntotal nproc : Z) :
  rank_global g = rank \/ ntotal - nproc * (ntotal / nproc) <= rank ->
  get_parallel_nrange g rank ntotal nproc = own_range ntotal nproc rank.
Proof.
  intros Hsafe. unfold own_range, get_parallel_nrange, floor_quot.
  destruct (Z.ltb_spec rank (ntotal - nproc * (ntotal / nproc))) as [Hlt | Hge].
  - destruct Hsafe as [Hg | Hge]; [| lia]. rewrite Hg. reflexivity.
  - reflexivity.
Qed.

End partition_extras.

Lemma own_range_unique_owner_witness :
  exists r,
    (0 <= r < 3 /\
     ParaUpdate.my_nmin (ParaUpdate.own_range 10 3 r) <= 5
       < ParaUpdate.my_nmax (ParaUpdate.own_range 10 3 r))%Z /\
    forall r',
      (0 <= r' < 3)%Z ->
      (ParaUpdate.my_nmin (ParaUpdate.own_range 10 3 r') <= 5
         < ParaUpdate.my_nmax (ParaUpdate.own_range 10 3 r'))%Z ->
      r' = r.
Proof. apply (own_range_unique_owner 10 3 5); lia. Defined.

Lemma own_range_sizes_add_up_witness :
  Measures.cells_of_first 10 3 (Z.to_nat 3) = 10%Z.
Proof. apply (own_range_sizes_add_up 10 3); lia. Defined.

Lemma get_max_cells_per_rank_is_ceiling_witness :
  let g := {| ParaUpdate.rank_global := 0; ParaUpdate.np_mpi_global := 3 |} in
  (10 <= 3 * ParaUpdate.get_max_cells_per_rank g 10 < 10 + 3)%Z.
Proof.
  intros g. apply (get_max_cells_per_rank_is_ceiling g 10). cbn. lia.
Defined.

Lemma get_parallel_nrange_own_or_above_remainder_witness :
  ParaUpdate.get_parallel_nrange
    {| ParaUpdate.rank_global := 1; ParaUpdate.np_mpi_global := 3 |} 2 10 3
  = ParaUpdate.own_range 10 3 2.
Proof.
  apply get_parallel_nrange_own_or_above_remainder. right.
  apply Z.leb_le. reflexivity.
Defined.

(** ** The spectral exchange, bin by bin *)

Lemma lookup_total_beyond {A : Type} `{Inhabited A} (l : list A) (i : nat) :
  (length l <= i)%nat -> l !!! i = inhabitant.
Proof.
  intros Hge. rewrite list_lookup_total_alt.
  rewrite (lookup_ge_None_2 l i) by exact Hge. reflexivity.
Qed.

Section unpack_facts.
Import ParaUpdate Notions Measures.
Context {T : Type} {T_inhabited : Inhabited T} {T_arith : Arith T}.

Variable e : extract_env.
Variable nspec : nat.
Variable b : list T.

Lemma unpack_at_insert i j (x : list (spectrum_of T)) :
  unpack_at e nspec b i j x = <[j := unpack_bin e nspec b i j (x !!! j)]> x.
Proof.
  unfold unpack_at, write_spec. cbv zeta.
  destruct (decide (j < length x)%nat) as [Hlt | Hge].
  - rewrite !list_lookup_total_insert_eq by (rewrite ?length_insert; exact Hlt).
    rewrite !list_insert_insert_eq.
    f_equal. unfold unpack_bin, Notions.slot, set_f, set_lf, set_f_wind, set_lf_wind.
    cbn [f lf f_wind lf_wind].
    replace (i * nspec + j + 0 * NWAVE_MAX e * nspec)%nat with (i * nspec + j)%nat by lia.
    replace (i * nspec + j + 1 * NWAVE_MAX e * nspec)%nat
      with (i * nspec + j + NWAVE_MAX e * nspec)%nat by lia.
    reflexivity.
  - rewrite !(list_insert_ge x) by lia. reflexivity.
Qed.

Lemma quantity_unpack_bin k i j s :
  (k < 4)%nat ->
  quantity k (unpack_bin e nspec b i j s)
    = <[i := b !!! Notions.slot e nspec k i j]> (quantity k s).
Proof.
  intros Hk.
  assert (k = 0 \/ k = 1 \/ k = 2 \/ k = 3)%nat as [-> | [-> | [-> | ->]]] by lia;
    reflexivity.
Qed.

(** One turn of the loop body writes bin [i] of spectrum [j] and nothing
    else. *)
Lemma unpack_at_quantity k i j j' (x : list (spectrum_of T)) :
  (k < 4)%nat ->
  quantity k (unpack_at e nspec b i j x !!! j')
    = if decide (j' = j)
      then <[i := b !!! Notions.slot e nspec k i j]> (quantity k (x !!! j))
      else quantity k (x !!! j').
Proof.
  intros Hk. rewrite unpack_at_insert.
  destruct (decide (j' = j)) as [-> | Hne].
  - destruct (decide (j < length x)%nat) as [Hlt | Hge].
    + rewrite list_lookup_total_insert_eq by exact Hlt.
      apply quantity_unpack_bin. exact Hk.
    + rewrite list_insert_ge by lia.
      rewrite (lookup_total_beyond x j) by lia.
      assert (k = 0 \/ k = 1 \/ k = 2 \/ k = 3)%nat as [-> | [-> | [-> | ->]]] by lia;
        reflexivity.
  - rewrite list_lookup_total_insert_ne by (intros Heq; apply Hne; symmetry; exact Heq).
    reflexivity.
Qed.

Lemma unpack_at_length i j (x : list (spectrum_of T)) :
  length (unpack_at e nspec b i j x) = length x.
Proof. rewrite unpack_at_insert. apply length_insert. Qed.

Lemma unpacked_ext (D D' : nat -> nat -> Prop) x X :
  (forall i j, D i j <-> D' i j) ->
  unpacked e nspec b D x X -> unpacked e nspec b D' x X.
Proof.
  intros HD (Hl & Hlen & Hin & Hout). split; [exact Hl | split; [exact Hlen | split]].
  - intros i j k Hk Hd. apply Hin; [exact Hk | apply HD; exact Hd].
  - intros i j k Hk Hd. apply Hout; [exact Hk |]. intros Hd'. apply Hd, HD, Hd'.
Qed.

Lemma unpacked_step (D : nat -> nat -> Prop) i j x X :
  unpacked e nspec b D x X ->
  unpacked e nspec b (fun i' j' => D i' j' \/ (i' = i /\ j' = j))
    (unpack_at e nspec b i j x) X.
Proof.
  intros (Hl & Hlen & Hin & Hout).
  split; [| split; [| split]].
  - rewrite unpack_at_length. exact Hl.
  - intros j' k Hk. rewrite unpack_at_quantity by exact Hk.
    destruct (decide (j' = j)) as [-> | Hne]; [rewrite length_insert |]; apply Hlen; exact Hk.
  - intros i' j' k Hk Hd Hj' Hi'. rewrite unpack_at_quantity by exact Hk.
    destruct (decide (j' = j)) as [-> | Hne].
    + destruct (decide (i' = i)) as [-> | Hni].
      * apply list_lookup_total_insert_eq. rewrite Hlen by exact Hk. exact Hi'.
      * rewrite list_lookup_total_insert_ne by (intros Heq; apply Hni; symmetry; exact Heq).
        apply Hin; [exact Hk | | exact Hj' | exact Hi'].
        destruct Hd as [Hd | [Heq _]]; [exact Hd | contradiction].
    + apply Hin; [exact Hk | | exact Hj' | exact Hi'].
      destruct Hd as [Hd | [_ Heq]]; [exact Hd | contradiction].
  - intros i' j' k Hk Hd. rewrite unpack_at_quantity by exact Hk.
    destruct (decide (j' = j)) as [-> | Hne].
    + rewrite list_lookup_total_insert_ne.
      * apply Hout; [exact Hk |]. intros Hd'. apply Hd. left. exact Hd'.
      * intros <-. apply Hd. right. split; reflexivity.
    + apply Hout; [exact Hk |]. intros Hd'. apply Hd. left. exact Hd'.
Qed.

(** The second pair of loops reads every bin below [NWAVE_MAX] of every
    spectrum below [nspec] from the buffer and leaves the rest alone. *)
Lemma unpack_unpacked (X : list (spectrum_of T)) :
  unpacked e nspec b (fun i j => (i < NWAVE_MAX e)%nat /\ (j < nspec)%nat)
    (unpack e nspec b X) X.
Proof.
  unfold unpack.
  apply (for_loop_invariant
           (fun m x => unpacked e nspec b
                         (fun i j => (i < m)%nat /\ (j < nspec)%nat) x X)).
  - split; [reflexivity | split; [reflexivity | split]].
    + intros i j k _ Hd. cbv beta in Hd. lia.
    + reflexivity.
  - intros m x Hm Hx.
    apply (unpacked_ext
             (fun i j => (i < m)%nat /\ (j < nspec)%nat \/ i = m /\ (j < nspec)%nat));
      [intros i j; lia |].
    apply (for_loop_invariant
             (fun n x' => unpacked e nspec b
                (fun i j => (i < m)%nat /\ (j < nspec)%nat \/ i = m /\ (j < n)%nat) x' X)).
    + apply (unpacked_ext (fun i j => (i < m)%nat /\ (j < nspec)%nat)); [intros i j; lia | exact Hx].
    + intros n x' Hn Hx'.
      apply (unpacked_ext
               (fun i j => ((i < m)%nat /\ (j < nspec)%nat \/ i = m /\ (j < n)%nat)
                           \/ (i = m /\ j = n)));
        [intros i j; lia |].
      apply unpacked_step. exact Hx'.
Qed.

End unpack_facts.

Section sum_facts.
Import ParaUpdate Notions Measures.
Context {T : Type} {T_inhabited : Inhabited T} {T_arith : Arith T}.

Lemma zip_with_add_lookup (a c : list T) (y : nat) :
  length a = length c -> (y < length a)%nat ->
  zip_with d_add a c !!! y = d_add (a !!! y) (c !!! y).
Proof.
  revert c y. induction a as [| v a IH]; intros [| w c] y Hlen Hy;
    try discriminate; cbn in Hy; [lia |].
  destruct y as [| y]; [reflexivity |]. cbn. apply IH; cbn in Hlen; lia.
Qed.

(** The element-wise sum of buffers of one length, read at one slot. *)
Lemma sum_lookup (n : nat) (bufs : list (list T)) (y : nat) :
  Forall (fun c => length c = n) bufs -> (y < n)%nat ->
  length (fold_right (zip_with d_add) (replicate n d_zero) bufs) = n /\
  fold_right (zip_with d_add) (replicate n d_zero) bufs !!! y
    = fold_right (fun c acc => d_add (c !!! y) acc) d_zero bufs.
Proof.
  intros Hall Hy.
  induction Hall as [| c bufs Hc _ [IHl IHv]]; cbn [fold_right].
  - split; [apply length_replicate |].
    rewrite list_lookup_total_alt, lookup_replicate_2 by exact Hy. reflexivity.
  - split.
    + rewrite length_zip_with, IHl, Hc. lia.
    + rewrite zip_with_add_lookup by (rewrite ?IHl, ?Hc; congruence || lia).
      rewrite IHv. reflexivity.
Qed.

End sum_facts.

Section gather_facts.
Import ParaUpdate Notions Measures.
Context {T : Type} {T_inhabited : Inhabited T} {T_arith : Arith T}.

Variable e : extract_env.

Lemma zip_with_lookup_total {A B C : Type} `{Inhabited A, Inhabited B, Inhabited C}
    (g : A -> B -> C) (a : list A) (c : list B) (i : nat) :
  (i < length a)%nat -> (i < length c)%nat ->
  zip_with g a c !!! i = g (a !!! i) (c !!! i).
Proof.
  revert c i. induction a as [| v a IH]; intros [| w c] i Ha Hc; cbn in *; try lia.
  destruct i as [| i]; [reflexivity |].
  change (zip_with g a c !!! i = g (a !!! i) (c !!! i)). apply IH; lia.
Qed.

(** What rank [r] holds after the exchange: its own arrays with the bins
    read from the element-wise sum of all packed buffers. *)
Lemma gather_rank (world : list (list (spectrum_of T))) (r : nat) :
  MPI_ON e = true -> (r < length world)%nat ->
  snd (gather_extracted_spectrum e world) !!! r
    = unpack e (nspec_of e)
        (fold_right (zip_with d_add)
           (replicate (4 * nspec_of e * NWAVE_MAX e) d_zero)
           ((fun xxspec => pack e (nspec_of e) (d_of_nat (length world)) xxspec
                             (calloc (4 * nspec_of e * NWAVE_MAX e))) <$> world))
        (world !!! r).
Proof.
  intros Hon Hr. unfold gather_extracted_spectrum. rewrite Hon. cbv zeta. cbn [snd].
  unfold MPI_Bcast, MPI_Reduce_sum.
  rewrite zip_with_lookup_total;
    [| rewrite length_fmap, length_insert, length_fmap; exact Hr | exact Hr].
  rewrite (list_lookup_total_fmap _ _ r)
    by (rewrite length_insert, length_fmap; exact Hr).
  rewrite list_lookup_total_insert_eq by (rewrite length_fmap; lia).
  reflexivity.
Qed.

Lemma gather_off (world : list (list (spectrum_of T))) :
  MPI_ON e = false -> gather_extracted_spectrum e world = (0%Z, world).
Proof. intros Hoff. unfold gather_extracted_spectrum. rewrite Hoff. reflexivity. Qed.

Lemma gather_length (world : list (list (spectrum_of T))) :
  length (snd (gather_extracted_spectrum e world)) = length world.
Proof.
  unfold gather_extracted_spectrum. destruct (MPI_ON e); [| reflexivity].
  cbv zeta. cbn [snd]. unfold MPI_Bcast, MPI_Reduce_sum.
  rewrite length_zip_with, length_fmap, length_insert, length_fmap. lia.
Qed.

Lemma packed_sum_slot (np : T) (world : list (list (spectrum_of T))) k i j :
  (k < 4)%nat -> (i < NWAVE_MAX e)%nat -> (j < nspec_of e)%nat ->
  fold_right (zip_with d_add) (replicate (4 * nspec_of e * NWAVE_MAX e) d_zero)
    ((fun xxspec => pack e (nspec_of e) np xxspec
                      (calloc (4 * nspec_of e * NWAVE_MAX e))) <$> world)
    !!! Notions.slot e (nspec_of e) k i j
  = fold_right (fun X acc => d_add (d_div (quantity k (X !!! j) !!! i) np) acc)
      d_zero world.
Proof.
  intros Hk Hi Hj.
  destruct (sum_lookup (4 * nspec_of e * NWAVE_MAX e)
              ((fun xxspec => pack e (nspec_of e) np xxspec
                      (calloc (4 * nspec_of e * NWAVE_MAX e))) <$> world)
              (Notions.slot e (nspec_of e) k i j)) as [_ ->].
  - apply Forall_fmap, Forall_forall. intros X _. cbn.
    rewrite pack_length. apply length_replicate.
  - apply slot_lt; assumption.
  - induction world as [| X world IH]; [reflexivity |].
    cbn [fmap list_fmap fold_right]. f_equal; [| exact IH].
    apply pack_slot; [unfold calloc; rewrite length_replicate; lia | assumption ..].
Qed.

(** After the exchange a bin in range holds the sum over the ranks of each
    rank's bin divided by the number of ranks. *)
Lemma gather_bin (world : list (list (spectrum_of T))) (r k i j : nat) :
  MPI_ON e = true -> (r < length world)%nat -> (k < 4)%nat ->
  (i < NWAVE_MAX e)%nat -> (j < nspec_of e)%nat ->
  Forall (holds_bin k i j) world ->
  quantity k ((snd (gather_extracted_spectrum e world) !!! r) !!! j) !!! i
    = rank_mean k i j world.
Proof.
  intros Hon Hr Hk Hi Hj Hall.
  rewrite gather_rank by assumption.
  destruct (Forall_lookup_total_1 _ world r Hall Hr) as [Hjr Hir].
  match goal with
  | |- context [unpack e ?n ?b ?X] =>
      destruct (unpack_unpacked e n b X) as (_ & _ & Hin & _)
  end.
  rewrite Hin by (try split; assumption).
  unfold rank_mean. apply packed_sum_slot; assumption.
Qed.

(** The exchange keeps the shape of the arrays of a rank and every bin out
    of range. *)
Lemma gather_shape (world : list (list (spectrum_of T))) (r j k : nat) :
  (r < length world)%nat -> (k < 4)%nat ->
  length (snd (gather_extracted_spectrum e world) !!! r) = length (world !!! r) /\
  length (quantity k ((snd (gather_extracted_spectrum e world) !!! r) !!! j))
    = length (quantity k ((world !!! r) !!! j)) /\
  forall i,
    ~ ((i < NWAVE_MAX e)%nat /\ (j < nspec_of e)%nat) ->
    quantity k ((snd (gather_extracted_spectrum e world) !!! r) !!! j) !!! i
      = quantity k ((world !!! r) !!! j) !!! i.
Proof.
  intros Hr Hk. destruct (MPI_ON e) eqn:Hon.
  - rewrite gather_rank by assumption.
    match goal with
    | |- context [unpack e ?n ?b ?X] =>
        destruct (unpack_unpacked e n b X) as (Hl & Hlen & _ & Hout)
    end.
    split; [exact Hl | split; [apply Hlen; exact Hk |]].
    intros i Hd. apply Hout; [exact Hk | exact Hd].
  - rewrite gather_off by exact Hon. cbn [snd].
    split; [reflexivity | split; [reflexivity |]]. intros i _. reflexivity.
Qed.

(** The exchange keeps every rank holding its bins. *)
Lemma gather_holds_bin (world : list (list (spectrum_of T))) (k i j : nat) :
  (k < 4)%nat -> Forall (holds_bin k i j) world ->
  Forall (holds_bin k i j) (snd (gather_extracted_spectrum e world)).
Proof.
  intros Hk Hall.
  apply (Forall_lookup_total_2 (holds_bin k i j)
           (snd (gather_extracted_spectrum e world))).
  intros s Hs. rewrite gather_length in Hs.
  destruct (Forall_lookup_total_1 _ world s Hall Hs) as [Hjs His].
  destruct (gather_shape world s j k Hs Hk) as (Hl1 & Hl2 & _).
  split; [rewrite Hl1; exact Hjs | rewrite Hl2; exact His].
Qed.

(** When a bin holds [v] on every rank, the ranks get back the sum of as
    many copies of [v] divided by their number. *)
Lemma rank_mean_const k i j (world : list (list (spectrum_of T))) (v : T) :
  (forall r, (r < length world)%nat -> quantity k ((world !!! r) !!! j) !!! i = v) ->
  rank_mean k i j world = summed_back (length world) v.
Proof.
  unfold rank_mean, summed_back.
  generalize (d_of_nat (length world)) as np. intros np Hall.
  induction world as [| X world IH]; [reflexivity |].
  cbn [fold_right length replicate].
  pose proof (Hall 0%nat ltac:(cbn; lia)) as H0.
  change ((X :: world) !!! 0%nat) with X in H0. rewrite H0.
  rewrite IH by (intros r Hr; apply (Hall (S r)); cbn; lia). reflexivity.
Qed.

End gather_facts.

Lemma rank_mean_total k i j (world : list (list ParaUpdate.spectrum)) :
  Measures.rank_mean k i j world
  = (Measures.rank_total k i j world / INR (length world))%R.
Proof.
  unfold Measures.rank_mean, Measures.rank_total.
  cbn [ParaUpdate.d_add ParaUpdate.d_div ParaUpdate.d_zero ParaUpdate.d_of_nat
       ParaUpdate.R_arith].
  generalize (INR (length world)) as np. intros np.
  induction world as [| X world IH]; cbn [fold_right].
  - unfold Rdiv. ring.
  - rewrite IH. unfold Rdiv. ring.
Qed.

(** X5. With MPI, after the exchange every rank holds, in each bin below
    [NWAVE_MAX] of each of the four arrays of each spectrum below [nspec],
    the sum over all ranks of that rank's bin divided by the number of
    ranks, which is the mean of the bin over the ranks: the same number on
    every rank. *)
Theorem gather_extracted_spectrum_rank_mean
    (e : ParaUpdate.extract_env) (world : list (list ParaUpdate.spectrum))
    (r k i j : nat) :
  ParaUpdate.MPI_ON e = true ->
  (r < length world)%nat -> (k < 4)%nat ->
  (i < ParaUpdate.NWAVE_MAX e)%nat -> (j < ParaUpdate.nspec_of e)%nat ->
  Forall (Measures.holds_bin k i j) world ->
  Notions.quantity k
    ((snd (ParaUpdate.gather_extracted_spectrum e world) !!! r) !!! j) !!! i
  = Measures.rank_mean k i j world /\
  Measures.rank_mean k i j world
  = (Measures.rank_total k i j world / INR (length world))%R.
Proof.
  intros Hon Hr Hk Hi Hj Hall.
  split; [apply gather_bin; assumption | apply rank_mean_total].
Qed.

Lemma gather_extracted_spectrum_rank_mean_witness :
  Notions.quantity 0
    ((snd (ParaUpdate.gather_extracted_spectrum Measures.sample_env Measures.sample_world)
        !!! 0%nat) !!! 1%nat) !!! 0%nat
  = Measures.rank_mean 0 0 1 Measures.sample_world /\
  Measures.rank_mean 0 0 1 Measures.sample_world = 3%R.
Proof.
  split.
  - apply (gather_extracted_spectrum_rank_mean Measures.sample_env
             Measures.sample_world 0 0 0 1);
      [reflexivity | cbn; lia | lia | cbn; lia | cbn; lia |].
    repeat constructor; cbn; lia.
  - unfold Measures.rank_mean. cbn. lra.
Defined.

(** X6. The exchange returns 0 and keeps the shape of the data: the number
    of ranks, the number of spectra of each rank and the length of each
    array. A bin at or above [NWAVE_MAX], and every bin of a spectrum at or
    above [nspec], is left as it was; without MPI nothing changes at
    all. *)
Theorem gather_extracted_spectrum_frame
    (e : ParaUpdate.extract_env) (world : list (list ParaUpdate.spectrum)) :
  let world' := snd (ParaUpdate.gather_extracted_spectrum e world) in
  fst (ParaUpdate.gather_extracted_spectrum e world) = 0%Z /\
  length world' = length world /\
  (ParaUpdate.MPI_ON e = false -> world' = world) /\
  forall r j k, (r < length world)%nat -> (k < 4)%nat ->
    length (world' !!! r) = length (world !!! r) /\
    length (Notions.quantity k ((world' !!! r) !!! j))
      = length (Notions.quantity k ((world !!! r) !!! j)) /\
    forall i,
      ~ ((i < ParaUpdate.NWAVE_MAX e)%nat /\ (j < ParaUpdate.nspec_of e)%nat) ->
      Notions.quantity k ((world' !!! r) !!! j) !!! i
        = Notions.quantity k ((world !!! r) !!! j) !!! i.
Proof.
  intros world'. subst world'.
  split; [unfold ParaUpdate.gather_extracted_spectrum;
          destruct (ParaUpdate.MPI_ON e); reflexivity |].
  split; [apply gather_length |].
  split; [intros Hoff; rewrite gather_off by exact Hoff; reflexivity |].
  intros r j k Hr Hk. apply gather_shape; assumption.
Qed.

(** X7. Running the exchange a second time, in any arithmetic: a bin in
    range, which after the first run holds one and the same number [v] on
    every rank, comes back as the sum of [P] copies of [v / P], for [P]
    ranks; a bin out of range is never written, and without MPI nothing is.
    In exact arithmetic that sum is [v]; in the arithmetic of the machine
    it can differ from [v] in the last place. *)
Theorem gather_extracted_spectrum_twice
    {T : Type} `{Inhabited T} `{ParaUpdate.Arith T}
    (e : ParaUpdate.extract_env) (world : list (list (ParaUpdate.spectrum_of T)))
    (r k i j : nat) :
  (r < length world)%nat -> (k < 4)%nat ->
  ((i < ParaUpdate.NWAVE_MAX e)%nat -> (j < ParaUpdate.nspec_of e)%nat ->
     Forall (Measures.holds_bin k i j) world) ->
  let once := snd (ParaUpdate.gather_extracted_spectrum e world) in
  let twice := snd (ParaUpdate.gather_extracted_spectrum e once) in
  Notions.quantity k ((twice !!! r) !!! j) !!! i
    = if ParaUpdate.MPI_ON e
         && (i <? ParaUpdate.NWAVE_MAX e)%nat && (j <? ParaUpdate.nspec_of e)%nat
      then Measures.summed_back (length world)
             (Notions.quantity k ((once !!! r) !!! j) !!! i)
      else Notions.quantity k ((once !!! r) !!! j) !!! i.
Proof.
  intros Hr Hk Hsized once twice. subst twice.
  assert (length once = length world) as Hlen by apply gather_length.
  destruct (ParaUpdate.MPI_ON e) eqn:Hon;
    [| rewrite (gather_off e once) by exact Hon; reflexivity].
  cbn [andb].
  destruct (Nat.ltb_spec i (ParaUpdate.NWAVE_MAX e)) as [Hi | Hi];
    [destruct (Nat.ltb_spec j (ParaUpdate.nspec_of e)) as [Hj | Hj] |]; cbn [andb].
  - specialize (Hsized Hi Hj).
    assert (Forall (Measures.holds_bin k i j) once) as Hsized'
      by (apply gather_holds_bin; assumption).
    rewrite gather_bin by (try rewrite Hlen; assumption).
    rewrite <- Hlen. apply rank_mean_const.
    intros s Hs. rewrite Hlen in Hs. subst once.
    rewrite !gather_bin by assumption. reflexivity.
  - destruct (gather_shape e once r j k ltac:(lia) Hk) as (_ & _ & Hsame).
    apply Hsame. lia.
  - destruct (gather_shape e once r j k ltac:(lia) Hk) as (_ & _ & Hsame).
    apply Hsame. lia.
Qed.

Lemma gather_extracted_spectrum_twice_witness :
  let world := replicate 3 (Measures.one_bin Measures.b64_0_9) in
  let once := snd (ParaUpdate.gather_extracted_spectrum Measures.one_bin_env world) in
  let twice := snd (ParaUpdate.gather_extracted_spectrum Measures.one_bin_env once) in
  Notions.quantity 0 ((twice !!! 0%nat) !!! 0%nat) !!! 0%nat
    = Measures.summed_back 3 (Notions.quantity 0 ((once !!! 0%nat) !!! 0%nat) !!! 0%nat).
Proof.
  apply (gather_extracted_spectrum_twice Measures.one_bin_env
           (replicate 3 (Measures.one_bin Measures.b64_0_9)) 0 0 0 0);
    [cbn; lia | lia |].
  intros _ _. repeat constructor; cbn; lia.
Defined.

(** ** The convergence monitor, call after call *)

Section convergence_extras.
Import Ionization.
Local Open Scope R_scope.

(** The residuals [convergence] stores, the flags it derives from them
    and its return value. *)
Lemma convergence_residuals (c : plasma) :
  let r := convergence c in
  let c' := snd r in
  converge_t_r c' = fabs (t_r_old c - t_r c) / (t_r_old c + t_r c) /\
  converge_t_e c' = fabs (t_e_old c - t_e c) / (t_e_old c + t_e c) /\
  converge_hc c'
    = fabs (heat_tot c - (lum_rad c + lum_adiabatic c))
      / (heat_tot c + lum_rad c + lum_adiabatic c) /\
  trcheck c' = (if converge_t_r c' >? 0.05 then 1%Z else 0%Z) /\
  techeck c' = (if converge_t_e c' >? 0.05 then 1%Z else 0%Z) /\
  hccheck c' = (if converge_hc c' >? 0.05 then 1%Z else 0%Z) /\
  fst r = converge_whole c' /\
  converge_whole c' = (trcheck c' + techeck c' + hccheck c')%Z /\
  converging c'
    = (if (dt_e_old c * dt_e c <? 0) && (fabs (dt_e c) >? fabs (dt_e_old c))
       then 1%Z else 0%Z).
Proof.
  intros r c'. subst r c'. unfold convergence. cbv zeta.
  cbn -[Rltb Rgtb Rmult Rabs Rdiv Rplus Rminus fabs].
  set (xr := fabs (t_r_old c - t_r c) / (t_r_old c + t_r c)).
  set (xe := fabs (t_e_old c - t_e c) / (t_e_old c + t_e c)).
  set (xh := fabs (heat_tot c - (lum_rad c + lum_adiabatic c))
             / (heat_tot c + lum_rad c + lum_adiabatic c)).
  destruct (Rgtb_spec xr 0.05) as [Hr | Hr];
    cbn -[Rltb Rgtb Rmult Rabs Rdiv Rplus Rminus fabs Z.add]; fold xe;
    (destruct (Rgtb_spec xe 0.05) as [He | He];
     cbn -[Rltb Rgtb Rmult Rabs Rdiv Rplus Rminus fabs Z.add]; fold xh;
     (destruct (Rgtb_spec xh 0.05) as [Hh | Hh];
      cbn -[Rltb Rgtb Rmult Rabs Rdiv Rplus Rminus fabs Z.add];
      (destruct ((dt_e_old c * dt_e c <? 0) && (fabs (dt_e c) >? fabs (dt_e_old c)));
       cbn -[Rltb Rgtb Rmult Rabs Rdiv Rplus Rminus fabs Z.add];
       (match goal with
        | |- context [if ?b then set_gain _ _ else _] => destruct b
        end;
        cbn -[Rltb Rgtb Rmult Rabs Rdiv Rplus Rminus fabs Z.add];
        clearbody xr xe xh;
        repeat match goal with |- _ /\ _ => split end;
        try reflexivity;
        unfold Rgtb, Rgt in *;
        first [rewrite Rltb_true by assumption | rewrite Rltb_false by assumption];
        reflexivity)))).
Qed.

(** [convergence] writes the three residuals, the five flags and the gain,
    and nothing else. *)
Lemma convergence_keeps_field {A : Type} (fld : plasma -> A) (c : plasma) :
  (forall v x, fld (set_hccheck v x) = fld x) ->
  (forall v x, fld (set_techeck v x) = fld x) ->
  (forall v x, fld (set_trcheck v x) = fld x) ->
  (forall v x, fld (set_converge_t_r v x) = fld x) ->
  (forall v x, fld (set_converge_t_e v x) = fld x) ->
  (forall v x, fld (set_converge_hc v x) = fld x) ->
  (forall v x, fld (set_converge_whole v x) = fld x) ->
  (forall v x, fld (set_converging v x) = fld x) ->
  (forall v x, fld (set_gain v x) = fld x) ->
  fld (snd (convergence c)) = fld c.
Proof.
  intros H1 H2 H3 H4 H5 H6 H7 H8 H9. unfold convergence. cbv zeta.
  destruct (converge_t_r _ >? _); destruct (converge_t_e _ >? _);
    destruct (converge_hc _ >? _); cbv beta iota;
    (destruct (_ && _);
     [change (1 =? 1)%Z with true | change (0 =? 1)%Z with false];
     cbv beta iota;
     match goal with
     | |- context [if ?b then set_gain _ _ else _] => destruct b
     end;
     cbn [snd];
     repeat match goal with
            | |- fld (_ _ ?x) = _ =>
                transitivity (fld x);
                [first [apply H1 | apply H2 | apply H3 | apply H4 | apply H5
                       | apply H6 | apply H7 | apply H8 | apply H9] |]
            end;
     reflexivity).
Qed.

Lemma convergence_keeps (c : plasma) :
  let c' := snd (convergence c) in
  (t_e c' = t_e c /\ t_r c' = t_r c /\ t_e_old c' = t_e_old c /\
   t_r_old c' = t_r_old c /\ dt_e c' = dt_e c /\ dt_e_old c' = dt_e_old c) /\
  (heat_tot c' = heat_tot c /\ heat_lines c' = heat_lines c /\
   heat_lines_macro c' = heat_lines_macro c /\ heat_photo c' = heat_photo c /\
   heat_photo_macro c' = heat_photo_macro c) /\
  (lum_rad c' = lum_rad c /\ lum_rad_old c' = lum_rad_old c /\
   lum_adiabatic c' = lum_adiabatic c /\ lum_dr c' = lum_dr c /\
   lum_comp c' = lum_comp c) /\
  (ave_freq c' = ave_freq c /\ ne c' = ne c /\ xj c' = xj c /\
   xave_freq c' = xave_freq c /\ nxtot c' = nxtot c /\
   sim_alpha c' = sim_alpha c /\ sim_w c' = sim_w c /\ nwind c' = nwind c).
Proof.
  intros c'. subst c'.
  repeat split; apply convergence_keeps_field; intros; reflexivity.
Qed.

(** X8. On a cell whose three divisors (the sum of the old and the new
    radiation temperature, the sum of the old and the new electron
    temperature, the sum of heating and cooling) are not 0, [convergence]
    stores the three relative residuals (radiation temperature, electron
    temperature, heating against cooling), raises a flag for each residual
    above 0.05, and returns the number of raised flags, which it also
    stores in [converge_whole]: a number from 0 to 3 that is 0 exactly when
    no residual is above 0.05. *)
Theorem convergence_flags (c : plasma) :
  t_r_old c + t_r c <> 0 ->
  t_e_old c + t_e c <> 0 ->
  heat_tot c + lum_rad c + lum_adiabatic c <> 0 ->
  let r := convergence c in
  let c' := snd r in
  converge_t_r c' = fabs (t_r_old c - t_r c) / (t_r_old c + t_r c) /\
  converge_t_e c' = fabs (t_e_old c - t_e c) / (t_e_old c + t_e c) /\
  converge_hc c'
    = fabs (heat_tot c - (lum_rad c + lum_adiabatic c))
      / (heat_tot c + lum_rad c + lum_adiabatic c) /\
  (trcheck c' = 1%Z <-> converge_t_r c' > 0.05) /\
  (techeck c' = 1%Z <-> converge_t_e c' > 0.05) /\
  (hccheck c' = 1%Z <-> converge_hc c' > 0.05) /\
  fst r = converge_whole c' /\
  converge_whole c' = (trcheck c' + techeck c' + hccheck c')%Z /\
  (0 <= fst r <= 3)%Z /\
  (fst r = 0%Z <->
     converge_t_r c' <= 0.05 /\ converge_t_e c' <= 0.05 /\ converge_hc c' <= 0.05).
Proof.
  intros _ _ _ r c'.
  destruct (convergence_residuals c)
    as (Hxr & Hxe & Hxh & Hr & He & Hh & Hret & Hwhole & _).
  subst r c'. set (c' := snd (convergence c)) in *.
  rewrite Hret, Hwhole, Hr, He, Hh.
  split; [exact Hxr | split; [exact Hxe | split; [exact Hxh |]]].
  clear Hxr Hxe Hxh Hr He Hh Hret Hwhole.
  destruct (Rgtb_spec (converge_t_r c') 0.05) as [Hr | Hr];
    destruct (Rgtb_spec (converge_t_e c') 0.05) as [He | He];
    destruct (Rgtb_spec (converge_hc c') 0.05) as [Hh | Hh];
    unfold Rgt in *;
    repeat match goal with
           | |- _ /\ _ => split
           | |- _ <-> _ => split; intros
           end;
    try reflexivity; try lia; try lra; try discriminate; try contradiction.
Qed.

Lemma convergence_flags_witness :
  let r := convergence Notions.sample_cell in
  let c' := snd r in
  converge_t_r c' = fabs (20000 - 20000) / (20000 + 20000) /\
  converge_t_e c' = fabs (10000 - 10000) / (10000 + 10000) /\
  converge_hc c' = fabs (10000 - (0 + 0)) / (10000 + 0 + 0) /\
  (trcheck c' = 1%Z <-> converge_t_r c' > 0.05) /\
  (techeck c' = 1%Z <-> converge_t_e c' > 0.05) /\
  (hccheck c' = 1%Z <-> converge_hc c' > 0.05) /\
  fst r = converge_whole c' /\
  converge_whole c' = (trcheck c' + techeck c' + hccheck c')%Z /\
  (0 <= fst r <= 3)%Z /\
  (fst r = 0%Z <->
     converge_t_r c' <= 0.05 /\ converge_t_e c' <= 0.05 /\ converge_hc c' <= 0.05).
Proof.
  apply (convergence_flags Notions.sample_cell);
    unfold Notions.sample_cell;
    cbn [t_r_old t_r t_e_old t_e heat_tot lum_rad lum_adiabatic]; lra.
Defined.

(** X9. A second call of [convergence] on the cell the first call left
    returns the same number and stores the same residuals and flags: these
    depend only on fields the call does not write. Neither call changes a
    temperature, its history, the heating and cooling totals or the
    spectral model. *)
Theorem convergence_twice (c : plasma) :
  let c1 := snd (convergence c) in
  let c2 := snd (convergence c1) in
  fst (convergence c1) = fst (convergence c) /\
  (converge_t_r c2 = converge_t_r c1 /\ converge_t_e c2 = converge_t_e c1 /\
   converge_hc c2 = converge_hc c1) /\
  (trcheck c2 = trcheck c1 /\ techeck c2 = techeck c1 /\ hccheck c2 = hccheck c1 /\
   converge_whole c2 = converge_whole c1 /\ converging c2 = converging c1) /\
  (t_e c2 = t_e c /\ t_r c2 = t_r c /\ t_e_old c2 = t_e_old c /\
   t_r_old c2 = t_r_old c /\ heat_tot c2 = heat_tot c /\ lum_rad c2 = lum_rad c /\
   sim_alpha c2 = sim_alpha c /\ sim_w c2 = sim_w c).
Proof.
  intros c1 c2.
  destruct (convergence_keeps c)
    as ((K1 & K2 & K3 & K4 & K5 & K6) & (K7 & _) & (K8 & _ & K9 & _)
        & (_ & _ & _ & _ & _ & K10 & K11 & _)).
  destruct (convergence_keeps c1)
    as ((L1 & L2 & L3 & L4 & L5 & L6) & (L7 & _) & (L8 & _ & L9 & _)
        & (_ & _ & _ & _ & _ & L10 & L11 & _)).
  destruct (convergence_residuals c)
    as (Hxr & Hxe & Hxh & Hr & He & Hh & Hret & Hwhole & Hcg).
  destruct (convergence_residuals c1)
    as (Hxr' & Hxe' & Hxh' & Hr' & He' & Hh' & Hret' & Hwhole' & Hcg').
  subst c2. set (c2 := snd (convergence c1)) in *.
  subst c1. set (c1 := snd (convergence c)) in *.
  clearbody c2. clearbody c1.
  assert (converge_t_r c2 = converge_t_r c1) as Er
    by (rewrite Hxr', Hxr, K2, K4; reflexivity).
  assert (converge_t_e c2 = converge_t_e c1) as Ee
    by (rewrite Hxe', Hxe, K1, K3; reflexivity).
  assert (converge_hc c2 = converge_hc c1) as Eh
    by (rewrite Hxh', Hxh, K7, K8, K9; reflexivity).
  assert (trcheck c2 = trcheck c1) as Fr by (rewrite Hr', Hr, Er; reflexivity).
  assert (techeck c2 = techeck c1) as Fe by (rewrite He', He, Ee; reflexivity).
  assert (hccheck c2 = hccheck c1) as Fh by (rewrite Hh', Hh, Eh; reflexivity).
  assert (converge_whole c2 = converge_whole c1) as Fw
    by (rewrite Hwhole', Hwhole, Fr, Fe, Fh; reflexivity).
  split; [rewrite Hret', Hret; exact Fw |].
  split; [auto |].
  split; [repeat split; try assumption; rewrite Hcg', Hcg, K5, K6; reflexivity |].
  repeat split; etransitivity; eassumption.
Qed.

End convergence_extras.

Section check_convergence_extras.
Import Ionization Notions.
Local Open Scope Z_scope.

Lemma count_zero_bounds fld cells :
  0 <= count_zero fld cells <= Z.of_nat (length cells) /\
  (count_zero fld cells = Z.of_nat (length cells)
     <-> Forall (fun c => fld c = 0) cells).
Proof.
  induction cells as [| c cells [IHb IHa]].
  - unfold count_zero. cbn. split; [lia | split; [constructor | reflexivity]].
  - rewrite count_zero_cons. cbn [length].
    destruct (Z.eqb_spec (fld c) 0) as [H0 | H0]; (split; [lia |]); split.
    + intros Heq. constructor; [exact H0 | apply IHa; lia].
    + intros Hall. apply Forall_cons in Hall as [_ Hall]. apply IHa in Hall. lia.
    + intros Heq. lia.
    + intros Hall. apply Forall_cons in Hall as [Hc _]. contradiction.
Qed.

Lemma check_convergence_fractions_def (nte0 ntr0 nhc0 : Z) (m : mem) :
  let s := snd (check_convergence nte0 ntr0 nhc0 m) in
  log_xconverge s = (IZR (log_nconverge s) / IZR (log_ntot s))%R /\
  log_xconverging s = (IZR (log_nconverging s) / IZR (log_ntot s))%R.
Proof. split; reflexivity. Qed.

Lemma fraction_bounds (a n : Z) :
  0 <= a <= n -> 0 < n ->
  (0 <= IZR a / IZR n <= 1)%R /\ ((IZR a / IZR n = 1)%R <-> a = n).
Proof.
  intros Ha Hn.
  assert (0 < IZR n)%R as Hn' by (apply IZR_lt in Hn; exact Hn).
  assert (0 <= IZR a <= IZR n)%R as Ha'
    by (split; [apply (IZR_le 0) | apply IZR_le]; lia).
  split; [split |].
  - apply Rmult_le_pos; [lra | left; apply Rinv_0_lt_compat; exact Hn'].
  - apply (Rmult_le_reg_r (IZR n)); [exact Hn' |]. unfold Rdiv.
    rewrite Rmult_assoc, Rinv_l by lra. lra.
  - split.
    + intros Heq. apply eq_IZR.
      apply (Rmult_eq_compat_r (IZR n)) in Heq. unfold Rdiv in Heq.
      rewrite Rmult_assoc, Rinv_l in Heq by lra. lra.
    + intros ->. unfold Rdiv. apply Rinv_r. lra.
Qed.

End check_convergence_extras.

(** X10. On a grid with at least one cell, [check_convergence] logs
    counts between 0 and the number of cells and fractions between 0 and 1;
    the converged fraction is 1 exactly when every cell has
    [converge_whole = 0], and the fraction of cells that are not
    oscillating is 1 exactly when every cell has [converging = 0]. Each
    per-criterion count lies between the value its counter had on entry
    and that value plus the number of cells. *)
Theorem check_convergence_fractions (nte0 ntr0 nhc0 : Z) (m : Ionization.mem) :
  (0 < Ionization.NPLASMA m)%nat ->
  let s := snd (Ionization.check_convergence nte0 ntr0 nhc0 m) in
  Ionization.log_ntot s = Z.of_nat (Ionization.NPLASMA m) /\
  (0 <= Ionization.log_nconverge s <= Ionization.log_ntot s)%Z /\
  (0 <= Ionization.log_nconverging s <= Ionization.log_ntot s)%Z /\
  (0 <= Ionization.log_xconverge s <= 1)%R /\
  (0 <= Ionization.log_xconverging s <= 1)%R /\
  (Ionization.log_xconverge s = 1%R <->
     Forall (fun c => Ionization.converge_whole c = 0%Z) (Ionization.plasmamain m)) /\
  (Ionization.log_xconverging s = 1%R <->
     Forall (fun c => Ionization.converging c = 0%Z) (Ionization.plasmamain m)) /\
  (ntr0 <= Ionization.log_ntr s <= ntr0 + Ionization.log_ntot s)%Z /\
  (nte0 <= Ionization.log_nte s <= nte0 + Ionization.log_ntot s)%Z /\
  (nhc0 <= Ionization.log_nhc s <= nhc0 + Ionization.log_ntot s)%Z.
Proof.
  intros Hn s.
  destruct (check_convergence_logs nte0 ntr0 nhc0 m)
    as (_ & Hc & Hg & Ht & Hr & He & Hh).
  destruct (check_convergence_fractions_def nte0 ntr0 nhc0 m) as (Hxc & Hxg).
  fold s in Hc, Hg, Ht, Hr, He, Hh, Hxc, Hxg.
  unfold Ionization.NPLASMA in *.
  destruct (count_zero_bounds Ionization.converge_whole (Ionization.plasmamain m))
    as [Bc Ac].
  destruct (count_zero_bounds Ionization.converging (Ionization.plasmamain m))
    as [Bg Ag].
  destruct (count_zero_bounds Ionization.trcheck (Ionization.plasmamain m)) as [Br _].
  destruct (count_zero_bounds Ionization.techeck (Ionization.plasmamain m)) as [Be _].
  destruct (count_zero_bounds Ionization.hccheck (Ionization.plasmamain m)) as [Bh _].
  destruct (fraction_bounds (Ionization.log_nconverge s) (Ionization.log_ntot s))
    as [Fc Gc]; [lia | lia |].
  destruct (fraction_bounds (Ionization.log_nconverging s) (Ionization.log_ntot s))
    as [Fg Gg]; [lia | lia |].
  rewrite Hxc, Hxg.
  split; [exact Ht |]. split; [lia |]. split; [lia |].
  split; [exact Fc |]. split; [exact Fg |].
  split; [rewrite Gc, Hc, Ht; exact Ac |].
  split; [rewrite Gg, Hg, Ht; exact Ag |].
  lia.
Qed.

Lemma check_convergence_fractions_witness :
  let s := snd (Ionization.check_convergence 3 5 7 Notions.sample_mem) in
  Ionization.log_ntot s = 1%Z /\ Ionization.log_xconverge s = 1%R.
Proof.
  intros s.
  destruct (check_convergence_fractions 3 5 7 Notions.sample_mem) as (Ht & _ & _ & _ & _ & Hx & _).
  - cbn. lia.
  - split; [exact Ht |]. apply Hx. repeat constructor.
Defined.

(** ** What the per-cell routines leave alone *)

Section frame_facts.
Import Ionization Notions Measures.
Local Open Scope R_scope.
Context {phys : Physics}.

Lemma cell_modify_other p q upd m :
  q <> p -> cell (modify p upd m) q = cell m q.
Proof.
  intros Hq. unfold modify. apply cell_store_other.
  intros Heq. apply Hq. symmetry. exact Heq.
Qed.

Lemma same_elsewhere_refl p m : same_elsewhere p m m.
Proof. split; [reflexivity | intros; reflexivity]. Qed.

Lemma same_elsewhere_trans p m1 m2 m3 :
  same_elsewhere p m1 m2 -> same_elsewhere p m2 m3 -> same_elsewhere p m1 m3.
Proof.
  intros [Hn1 Hc1] [Hn2 Hc2]. split; [congruence |].
  intros q Hq. rewrite Hc2, Hc1 by exact Hq. reflexivity.
Qed.

Lemma same_elsewhere_modify p upd m : same_elsewhere p m (modify p upd m).
Proof.
  split; [apply NPLASMA_modify | intros q Hq; apply cell_modify_other; exact Hq].
Qed.

Lemma same_elsewhere_store p c m : same_elsewhere p m (store p c m).
Proof.
  split; [apply NPLASMA_store |].
  intros q Hq. apply cell_store_other. intros Heq. apply Hq. symmetry. exact Heq.
Qed.

(** A change of the scratch pointer or of the three globals of the fit
    changes no cell. *)
Lemma same_elsewhere_globals p m m' :
  plasmamain m' = plasmamain m -> same_elsewhere p m m'.
Proof.
  intros Heq. unfold same_elsewhere, NPLASMA, cell. rewrite Heq.
  split; [reflexivity | intros; reflexivity].
Qed.

Lemma zero_emit_elsewhere t m :
  same_elsewhere (xxxplasma m) m (snd (zero_emit t m)).
Proof.
  unfold zero_emit. cbv zeta. cbn [snd]. split.
  - rewrite !NPLASMA_modify, NPLASMA_compute_dr_coeffs, !NPLASMA_modify.
    reflexivity.
  - intros q Hq.
    rewrite !cell_modify_other by exact Hq. rewrite cell_compute_dr_coeffs.
    rewrite !cell_modify_other by exact Hq. reflexivity.
Qed.

Lemma run_zero_emit_elsewhere sv m :
  xxxplasma (snd (run sv zero_emit m)) = xxxplasma m /\
  same_elsewhere (xxxplasma m) m (snd (run sv zero_emit m)).
Proof.
  apply (run_invariant
           (fun s => xxxplasma s = xxxplasma m /\ same_elsewhere (xxxplasma m) m s)).
  - intros t s [Hx Hs]. destruct (zero_emit_frame t s) as [_ Hx'].
    split; [congruence |].
    apply (same_elsewhere_trans _ _ s); [exact Hs |].
    rewrite <- Hx. apply zero_emit_elsewhere.
  - split; [reflexivity | apply same_elsewhere_refl].
Qed.

(** [calc_te] writes to the cell it is given and to no other; it leaves
    the scratch pointer on that cell. *)
Lemma calc_te_elsewhere p tmin tmax m :
  xxxplasma (snd (calc_te p tmin tmax m)) = p /\
  same_elsewhere p m (snd (calc_te p tmin tmax m)).
Proof.
  unfold calc_te.
  set (m0 := modify p (set_t_e tmin) (set_xxxplasma p m)).
  assert (xxxplasma m0 = p /\ same_elsewhere p m m0) as [X0 S0].
  { subst m0. split; [reflexivity |].
    apply (same_elsewhere_trans _ _ (set_xxxplasma p m));
      [apply same_elsewhere_globals; reflexivity | apply same_elsewhere_modify]. }
  pose proof (zero_emit_frame tmin m0) as [_ X1].
  pose proof (zero_emit_elsewhere tmin m0) as S1. rewrite X0 in S1, X1.
  destruct (zero_emit tmin m0) as [z1 m1]. cbn [snd] in X1, S1.
  set (m1' := modify p (set_t_e tmax) m1).
  pose proof (zero_emit_frame tmax m1') as [_ X2].
  pose proof (zero_emit_elsewhere tmax m1') as S2.
  assert (xxxplasma m1' = p) as X1' by (subst m1'; exact X1).
  rewrite X1' in S2, X2.
  assert (same_elsewhere p m m1') as S1'.
  { apply (same_elsewhere_trans _ _ m0); [exact S0 |].
    apply (same_elsewhere_trans _ _ m1); [exact S1 | apply same_elsewhere_modify]. }
  destruct (zero_emit tmax m1') as [z2 m2]. cbn [snd] in X2, S2.
  assert (same_elsewhere p m m2) as S2'
    by (apply (same_elsewhere_trans _ _ m1'); assumption).
  assert (forall x mm, xxxplasma mm = p -> same_elsewhere p m mm ->
    let mfinal :=
      modify p (fun c => set_heat_photo (heat_photo c + heat_photo_macro c) c)
     (modify p (fun c => set_heat_tot (heat_tot c + heat_photo_macro c) c)
     (modify p (fun c => set_heat_photo_macro (macro_bf_heating c (t_e c)) c)
     (modify p (fun c => set_heat_photo (heat_photo c - heat_photo_macro c) c)
     (modify p (fun c => set_heat_tot (heat_tot c - heat_photo_macro c) c)
     (modify p (fun c => set_heat_lines (heat_lines c + heat_lines_macro c) c)
     (modify p (fun c => set_heat_tot (heat_tot c + heat_lines_macro c) c)
     (modify p (fun c => set_heat_lines_macro (macro_bb_heating c (t_e c)) c)
     (modify p (fun c => set_heat_lines (heat_lines c - heat_lines_macro c) c)
     (modify p (fun c => set_heat_tot (heat_tot c - heat_lines_macro c) c)
     (modify p (set_t_e x) mm)))))))))) in
    xxxplasma mfinal = p /\ same_elsewhere p m mfinal) as Htail.
  { intros x mm Hx [Hn Hc] mfinal. subst mfinal. split.
    - rewrite !xxxplasma_modify. exact Hx.
    - split.
      + rewrite !NPLASMA_modify. exact Hn.
      + intros q Hq. rewrite !cell_modify_other by exact Hq. apply Hc. exact Hq. }
  destruct (z1 * z2 <? 0).
  - destruct (run_zero_emit_elsewhere (zbrent tmin tmax 50) m2) as [X3 S3].
    rewrite X2 in X3, S3.
    destruct (run (zbrent tmin tmax 50) zero_emit m2) as [root m3].
    cbn [snd] in *. apply Htail; [exact X3 |].
    apply (same_elsewhere_trans _ _ m2); assumption.
  - destruct (fabs z1 <? fabs z2); cbn [snd]; apply Htail; assumption.
Qed.

Lemma one_shot_elsewhere p mode m :
  match one_shot p mode m with
  | Done (_, m') => same_elsewhere p m m'
  | _ => True
  end.
Proof.
  unfold one_shot.
  pose proof (calc_te_elsewhere p (0.7 * t_e (cell m p)) (1.3 * t_e (cell m p)) m)
    as [_ S1].
  destruct (calc_te p (0.7 * t_e (cell m p)) (1.3 * t_e (cell m p)) m) as [te_new m1].
  cbn [snd] in S1. cbv zeta.
  set (m2 := modify p _ m1).
  assert (same_elsewhere p m m2) as S2
    by (apply (same_elsewhere_trans _ _ m1); [exact S1 | apply same_elsewhere_modify]).
  destruct (mode =? 3)%Z; [| destruct ((mode <=? 1) || (mode >=? 6))%Z; [exact I |]];
    cbn [mbind outcome_bind];
    (destruct (t_r (cell m2 p) >? 10); [| exact I];
     destruct (nebular_concentrations _ _) as [status c];
     apply (same_elsewhere_trans _ _ m2); [exact S2 | apply same_elsewhere_store]).
Qed.

Lemma band_setup_elsewhere p b m :
  same_elsewhere p m (snd (band_setup p b m)).
Proof.
  unfold band_setup. destruct (_ =? 0)%Z; cbn [snd].
  - match goal with
    | |- same_elsewhere _ _ (modify _ _ ?mm) =>
        apply (same_elsewhere_trans _ _ mm);
          [apply same_elsewhere_globals; reflexivity | apply same_elsewhere_modify]
    end.
  - apply same_elsewhere_globals. reflexivity.
Qed.

Lemma band_commit_elsewhere p b alphatemp sim_w_temp m :
  same_elsewhere p m (band_commit p b alphatemp sim_w_temp m).
Proof.
  unfold band_commit. destruct (negb _); [apply same_elsewhere_refl |].
  match goal with
  | |- same_elsewhere _ _ (modify _ _ ?mm) =>
      apply (same_elsewhere_trans _ _ mm); apply same_elsewhere_modify
  end.
Qed.

Lemma fit_band_elsewhere fuel p b m :
  match fit_band fuel p b m with
  | Done m' => same_elsewhere p m m'
  | _ => True
  end.
Proof.
  unfold fit_band.
  pose proof (band_setup_elsewhere p b m) as S1.
  destruct (band_setup p b m) as [j m1]. cbn [snd] in S1.
  destruct (band_bracket fuel p b m1) as [[lo hi] |]; [| exact I].
  destruct (band_candidate j lo hi m1) as [alphatemp sim_w_temp].
  apply (same_elsewhere_trans _ _ m1); [exact S1 | apply band_commit_elsewhere].
Qed.

Lemma for_bands_elsewhere fuel p bands m :
  match for_bands bands (fit_band fuel p) m with
  | Done m' => same_elsewhere p m m'
  | _ => True
  end.
Proof.
  revert m. induction bands as [| b bands IH]; intros m.
  - apply same_elsewhere_refl.
  - cbn [for_bands]. pose proof (fit_band_elsewhere fuel p b m) as S1.
    destruct (fit_band fuel p b m) as [m1 | |]; [| exact I | exact I].
    cbn [mbind outcome_bind]. specialize (IH m1).
    destruct (for_bands bands (fit_band fuel p) m1) as [m2 | |]; [| exact I | exact I].
    apply (same_elsewhere_trans _ _ m1); assumption.
Qed.

Lemma auger_step_elsewhere p m : same_elsewhere p m (auger_step p m).
Proof.
  unfold auger_step. destruct (_ =? 1)%Z;
    [apply same_elsewhere_modify | apply same_elsewhere_refl].
Qed.

Lemma ion_abundances_outside_modes fuel p mode m :
  (mode < 0 \/ 5 < mode)%Z -> ion_abundances fuel p mode m = Exit.
Proof.
  intros Hmode. unfold ion_abundances.
  destruct (Z.eqb_spec mode 0); [lia |]. destruct (Z.eqb_spec mode 1); [lia |].
  destruct (Z.eqb_spec mode 2); [lia |]. destruct (Z.eqb_spec mode 3); [lia |].
  destruct (Z.eqb_spec mode 4); [lia |]. destruct (Z.eqb_spec mode 5); [lia |].
  reflexivity.
Qed.

Lemma ion_abundances_simple_mode fuel p mode m
    (routine : plasma -> Z -> Z * plasma) (arg : Z) :
  ion_abundances fuel p mode m
    = ('(ireturn, m) ← (let '(ireturn, c) := routine (cell m p) arg in
                         Done (ireturn, store p c m));
       Done (ireturn, auger_step p m)) ->
  exists r m',
    ion_abundances fuel p mode m = Done (r, m') /\ same_elsewhere p m m'.
Proof.
  intros ->. destruct (routine (cell m p) arg) as [ireturn c].
  cbn [mbind outcome_bind].
  exists ireturn, (auger_step p (store p c m)). split; [reflexivity |].
  apply (same_elsewhere_trans _ _ (store p c m));
    [apply same_elsewhere_store | apply auger_step_elsewhere].
Qed.

End frame_facts.

(** X11. Whatever the mode, a call of [ion_abundances] that returns has
    changed no cell but the one it was given, and the grid has as many
    cells as before; a mode below 0 or above 5 ends the process. *)
Theorem ion_abundances_other_cells `{phys : Ionization.Physics}
    (fuel p : nat) (mode : Z) (m : Ionization.mem) :
  match Ionization.ion_abundances fuel p mode m with
  | Ionization.Done (_, m') =>
      (0 <= mode <= 5)%Z /\
      Ionization.NPLASMA m' = Ionization.NPLASMA m /\
      forall q, q <> p -> Ionization.cell m' q = Ionization.cell m q
  | Ionization.Exit => True
  | Ionization.Diverge => mode = 5%Z
  end.
Proof.
  destruct (Z_lt_le_dec mode 0) as [Hneg | Hpos];
    [rewrite ion_abundances_outside_modes by lia; exact I |].
  destruct (Z_lt_le_dec 5 mode) as [Hbig | Hsmall];
    [rewrite ion_abundances_outside_modes by lia; exact I |].
  assert (mode = 0 \/ mode = 1 \/ mode = 2 \/ mode = 3 \/ mode = 4 \/ mode = 5)%Z
    as [-> | [-> | [-> | [-> | [-> | ->]]]]] by lia.
  - destruct (ion_abundances_simple_mode fuel p 0 m
                Ionization.nebular_concentrations 2 eq_refl) as (r & m' & -> & H).
    split; [lia | exact H].
  - destruct (ion_abundances_simple_mode fuel p 1 m
                Ionization.nebular_concentrations 1 eq_refl) as (r & m' & -> & H).
    split; [lia | exact H].
  - destruct (ion_abundances_simple_mode fuel p 2 m
                Ionization.fix_concentrations 0 eq_refl) as (r & m' & -> & H).
    split; [lia | exact H].
  - rewrite ion_abundances_mode3.
    pose proof (one_shot_elsewhere p 3 (Ionization.modify p Notions.history_shift m)) as H.
    destruct (Ionization.one_shot p 3 (Ionization.modify p Notions.history_shift m))
      as [[r m2] | |] eqn:Hone; cbn [mbind Ionization.outcome_bind]; [| exact I |].
    + split; [lia |].
      apply (same_elsewhere_trans _ _ (Ionization.modify p Notions.history_shift m));
        [apply same_elsewhere_modify |].
      apply (same_elsewhere_trans _ _ m2); [exact H |].
      match goal with
      | |- Measures.same_elsewhere _ _ (Notions.auger_step _ ?mm) =>
          apply (same_elsewhere_trans _ _ mm);
            [apply same_elsewhere_modify | apply auger_step_elsewhere]
      end.
    + destruct (one_shot_outcome p 3 (Ionization.modify p Notions.history_shift m))
        as [m3 Hout].
      rewrite Hone in Hout. cbn in Hout.
      destruct (Ionization.Rgtb _ _) in Hout; discriminate Hout.
  - destruct (ion_abundances_simple_mode fuel p 4 m
                Ionization.nebular_concentrations 5 eq_refl) as (r & m' & -> & H).
    split; [lia | exact H].
  - rewrite ion_abundances_mode5.
    pose proof (for_bands_elsewhere fuel p (seq 0 Ionization.nxfreq) m) as H0.
    destruct (Ionization.for_bands (seq 0 Ionization.nxfreq)
                (Ionization.fit_band fuel p) m) as [m0 | |];
      cbn [mbind Ionization.outcome_bind]; [| exact I | reflexivity].
    pose proof (one_shot_elsewhere p 5 (Ionization.modify p Notions.history_shift m0)) as H.
    destruct (Ionization.one_shot p 5 (Ionization.modify p Notions.history_shift m0))
      as [[r m2] | |] eqn:Hone; cbn [mbind Ionization.outcome_bind];
      [| exact I | reflexivity].
    split; [lia |].
    apply (same_elsewhere_trans _ _ m0); [exact H0 |].
    apply (same_elsewhere_trans _ _ (Ionization.modify p Notions.history_shift m0));
      [apply same_elsewhere_modify |].
    apply (same_elsewhere_trans _ _ m2); [exact H |].
    match goal with
    | |- Measures.same_elsewhere _ _ (Notions.auger_step _ ?mm) =>
        apply (same_elsewhere_trans _ _ mm);
          [apply same_elsewhere_modify | apply auger_step_elsewhere]
    end.
Qed.

(** ** The temperature update *)

Section heating_facts.
Import Ionization Notions Measures.
Local Open Scope R_scope.
Context {phys : Physics}.

(** Swapping the macro-atom line heating for a new value keeps the
    heating without its macro-atom parts. *)
Lemma lines_block_base (M : plasma -> R) p q m :
  base_heating
    (cell
       (modify p (fun c => set_heat_lines (heat_lines c + heat_lines_macro c) c)
       (modify p (fun c => set_heat_tot (heat_tot c + heat_lines_macro c) c)
       (modify p (fun c => set_heat_lines_macro (M c) c)
       (modify p (fun c => set_heat_lines (heat_lines c - heat_lines_macro c) c)
       (modify p (fun c => set_heat_tot (heat_tot c - heat_lines_macro c) c) m)))))
       q)
  = base_heating (cell m q).
Proof.
  rewrite !modify_modify. apply field_modify.
  intros c. unfold base_heating. cbn.
  apply pair_equal_spec; split; [apply pair_equal_spec; split |]; ring.
Qed.

Lemma photo_block_base (M : plasma -> R) p q m :
  base_heating
    (cell
       (modify p (fun c => set_heat_photo (heat_photo c + heat_photo_macro c) c)
       (modify p (fun c => set_heat_tot (heat_tot c + heat_photo_macro c) c)
       (modify p (fun c => set_heat_photo_macro (M c) c)
       (modify p (fun c => set_heat_photo (heat_photo c - heat_photo_macro c) c)
       (modify p (fun c => set_heat_tot (heat_tot c - heat_photo_macro c) c) m)))))
       q)
  = base_heating (cell m q).
Proof.
  rewrite !modify_modify. apply field_modify.
  intros c. unfold base_heating. cbn.
  apply pair_equal_spec; split; [apply pair_equal_spec; split |]; ring.
Qed.

Lemma zero_emit_base t m q :
  base_heating (cell (snd (zero_emit t m)) q) = base_heating (cell m q).
Proof.
  unfold zero_emit. cbv zeta. cbn [snd].
  rewrite (field_modify base_heating) by reflexivity.
  rewrite (field_modify base_heating) by reflexivity.
  rewrite cell_compute_dr_coeffs.
  rewrite (field_modify base_heating) by reflexivity.
  rewrite (photo_block_base (fun c => macro_bf_heating c t)).
  rewrite (lines_block_base (fun c => macro_bb_heating c t)).
  apply field_modify. reflexivity.
Qed.

Lemma run_zero_emit_base sv m q :
  base_heating (cell (snd (run sv zero_emit m)) q) = base_heating (cell m q).
Proof.
  apply (run_invariant
           (fun s => base_heating (cell s q) = base_heating (cell m q)));
    [| reflexivity].
  intros t s Hs. rewrite zero_emit_base. exact Hs.
Qed.

Lemma calc_te_base p tmin tmax m q :
  base_heating (cell (snd (calc_te p tmin tmax m)) q) = base_heating (cell m q).
Proof.
  unfold calc_te.
  set (m0 := modify p (set_t_e tmin) (set_xxxplasma p m)).
  assert (base_heating (cell m0 q) = base_heating (cell m q)) as H0.
  { subst m0. rewrite (field_modify base_heating) by reflexivity. reflexivity. }
  pose proof (zero_emit_base tmin m0 q) as H1.
  destruct (zero_emit tmin m0) as [z1 m1]. cbn [snd] in H1.
  pose proof (zero_emit_base tmax (modify p (set_t_e tmax) m1) q) as H2.
  rewrite (field_modify base_heating) in H2 by reflexivity.
  destruct (zero_emit tmax (modify p (set_t_e tmax) m1)) as [z2 m2].
  cbn [snd] in H2. cbn [snd].
  rewrite (photo_block_base (fun c => macro_bf_heating c (t_e c))).
  rewrite (lines_block_base (fun c => macro_bb_heating c (t_e c))).
  destruct (z1 * z2 <? 0).
  - pose proof (run_zero_emit_base (zbrent tmin tmax 50) m2 q) as H3.
    destruct (run (zbrent tmin tmax 50) zero_emit m2) as [root m3].
    cbn [snd] in H3. rewrite (field_modify base_heating) by reflexivity.
    congruence.
  - destruct (fabs z1 <? fabs z2);
      rewrite (field_modify base_heating) by reflexivity; congruence.
Qed.

(** The temperature [calc_te] returns is one of the two ends of the
    bracket or what the root finder returns. *)
Lemma calc_te_cases p tmin tmax m :
  (p < NPLASMA m)%nat ->
  (exists s, fst (calc_te p tmin tmax m)
             = fst (run (zbrent tmin tmax 50) zero_emit s)) \/
  fst (calc_te p tmin tmax m) = tmin \/
  fst (calc_te p tmin tmax m) = tmax.
Proof.
  intros Hp. unfold calc_te.
  set (m0 := modify p (set_t_e tmin) (set_xxxplasma p m)).
  assert (NPLASMA m0 = NPLASMA m) as H0
    by (subst m0; rewrite NPLASMA_modify; reflexivity).
  pose proof (zero_emit_frame tmin m0) as [H1 _].
  destruct (zero_emit tmin m0) as [z1 m1]. cbn [fst snd] in *.
  pose proof (zero_emit_frame tmax (modify p (set_t_e tmax) m1)) as [H2 _].
  rewrite NPLASMA_modify in H2.
  destruct (zero_emit tmax (modify p (set_t_e tmax) m1)) as [z2 m2].
  cbn [fst snd] in *.
  assert (p < NPLASMA m2)%nat as Hp2 by (rewrite H2, H1, H0; exact Hp).
  assert (forall x mm, (p < NPLASMA mm)%nat ->
    let mfinal :=
      modify p (fun c => set_heat_photo (heat_photo c + heat_photo_macro c) c)
     (modify p (fun c => set_heat_tot (heat_tot c + heat_photo_macro c) c)
     (modify p (fun c => set_heat_photo_macro (macro_bf_heating c (t_e c)) c)
     (modify p (fun c => set_heat_photo (heat_photo c - heat_photo_macro c) c)
     (modify p (fun c => set_heat_tot (heat_tot c - heat_photo_macro c) c)
     (modify p (fun c => set_heat_lines (heat_lines c + heat_lines_macro c) c)
     (modify p (fun c => set_heat_tot (heat_tot c + heat_lines_macro c) c)
     (modify p (fun c => set_heat_lines_macro (macro_bb_heating c (t_e c)) c)
     (modify p (fun c => set_heat_lines (heat_lines c - heat_lines_macro c) c)
     (modify p (fun c => set_heat_tot (heat_tot c - heat_lines_macro c) c)
     (modify p (set_t_e x) mm)))))))))) in
    t_e (cell mfinal p) = x) as Htail.
  { intros x mm Hmm mfinal. subst mfinal.
    rewrite !cell_modify by (rewrite ?NPLASMA_modify; exact Hmm).
    reflexivity. }
  destruct (z1 * z2 <? 0).
  - left. exists m2.
    pose proof (run_zero_emit_frame (zbrent tmin tmax 50) m2) as H3.
    destruct (run (zbrent tmin tmax 50) zero_emit m2) as [root m3].
    cbn [fst snd] in *. apply Htail. rewrite H3. exact Hp2.
  - right. destruct (fabs z1 <? fabs z2); [left | right]; apply Htail; exact Hp2.
Qed.

Lemma run_returns_within {S : Type} lo hi sv (func : R -> S -> R * S) (s : S) :
  returns_within lo hi sv -> lo <= fst (run sv func s) <= hi.
Proof.
  revert s. induction sv as [x | t k IH]; intros s Hsv; [exact Hsv |].
  cbn [run]. destruct (func t s) as [y s']. apply IH. apply Hsv.
Qed.

(** With a root finder that stays in its bracket, so does [calc_te]. *)
Lemma calc_te_within p tmin tmax m :
  (p < NPLASMA m)%nat -> tmin <= tmax ->
  returns_within tmin tmax (zbrent tmin tmax 50) ->
  tmin <= fst (calc_te p tmin tmax m) <= tmax.
Proof.
  intros Hp Hle Hsv.
  destruct (calc_te_cases p tmin tmax m Hp) as [[s ->] | [-> | ->]];
    [apply run_returns_within; exact Hsv | lra | lra].
Qed.

Lemma bisect_within n lo hi a b fa :
  lo <= a -> a <= b -> b <= hi -> returns_within lo hi (bisect n a b fa).
Proof.
  revert a b fa. induction n as [| n IH]; intros a b fa Ha Hab Hb; cbn.
  - lra.
  - intros fm. destruct (Req_dec_T fm 0); [cbn; lra |].
    destruct (Rlt_dec (fa * fm) 0); apply IH; lra.
Qed.

Lemma bisection_within x1 x2 tol :
  x1 <= x2 -> returns_within x1 x2 (bisection x1 x2 tol).
Proof.
  intros Hle fa fb. destruct (Req_dec_T fa 0); [cbn; lra |].
  destruct (Req_dec_T fb 0); [cbn; lra |].
  apply bisect_within; lra.
Qed.

End heating_facts.

(** X12. The heating of every cell without its macro-atom parts (the
    total, the line and the photoionization heating, each minus the
    macro-atom share it contains) is the same after [zero_emit], after any
    root search on [zero_emit], and after [calc_te]: the three routines
    only swap the macro-atom shares for their value at the trial
    temperature. *)
Theorem calc_te_keeps_base_heating `{phys : Ionization.Physics}
    (p : nat) (tmin tmax t : R) (sv : Ionization.solver)
    (m : Ionization.mem) (q : nat) :
  Measures.base_heating (Ionization.cell (snd (Ionization.zero_emit t m)) q)
    = Measures.base_heating (Ionization.cell m q) /\
  Measures.base_heating
    (Ionization.cell (snd (Ionization.run sv Ionization.zero_emit m)) q)
    = Measures.base_heating (Ionization.cell m q) /\
  Measures.base_heating (Ionization.cell (snd (Ionization.calc_te p tmin tmax m)) q)
    = Measures.base_heating (Ionization.cell m q).
Proof.
  split; [apply zero_emit_base |].
  split; [apply run_zero_emit_base | apply calc_te_base].
Qed.

(** X13. [one_shot] never hangs. It leaves the process exactly when the
    mode is not one of 2, 3, 4, 5 or the radiation temperature of the cell
    is not above 10; otherwise it returns 0 and has changed no cell but its
    own. *)
Theorem one_shot_outcomes `{phys : Ionization.Physics}
    (p : nat) (mode : Z) (m : Ionization.mem) :
  match Ionization.one_shot p mode m with
  | Ionization.Done (r, m') =>
      r = 0%Z /\ (2 <= mode <= 5)%Z /\
      (Ionization.t_r (Ionization.cell m p) > 10)%R /\
      Ionization.NPLASMA m' = Ionization.NPLASMA m /\
      forall q, q <> p -> Ionization.cell m' q = Ionization.cell m q
  | Ionization.Exit =>
      ~ (2 <= mode <= 5)%Z \/ ~ (Ionization.t_r (Ionization.cell m p) > 10)%R
  | Ionization.Diverge => False
  end.
Proof.
  pose proof (one_shot_elsewhere p mode m) as Hframe.
  destruct (one_shot_outcome p mode m) as [m2 Hout].
  assert (Notions.one_shot_mode mode = None <-> ~ (2 <= mode <= 5)%Z) as Hmode.
  { unfold Notions.one_shot_mode.
    destruct (Z.eqb_spec mode 3) as [-> | H3]; [split; [discriminate | lia] |].
    destruct (Z.leb_spec mode 1); destruct (Z.geb_spec mode 6); cbn;
      split; first [reflexivity | discriminate | lia]. }
  destruct (Notions.one_shot_mode mode) as [mode' |].
  - assert (2 <= mode <= 5)%Z as Hin.
    { destruct (Z_le_dec 2 mode); [| exfalso; assert (Some mode' = None) by (apply Hmode; lia); discriminate].
      destruct (Z_le_dec mode 5); [lia |].
      exfalso. assert (Some mode' = None) by (apply Hmode; lia). discriminate. }
    destruct (Rgtb_spec (Ionization.t_r (Ionization.cell m p)) 10) as [Ht | Ht];
      rewrite Hout in *.
    + split; [reflexivity | split; [exact Hin | split; [exact Ht | exact Hframe]]].
    + right. exact Ht.
  - rewrite Hout. left. apply Hmode. reflexivity.
Qed.

(** X14. With a gain between 0 and 1, a temperature that is not negative
    and a root finder that stays in its bracket, [one_shot] hands to
    [nebular_concentrations] a cell whose electron temperature is the old
    one changed by at most 30 per cent times the gain, and stores the cell
    that comes back; it returns 0, or leaves the process when the mode is
    refused or the radiation temperature is not above 10. *)
Theorem one_shot_damped_step `{phys : Ionization.Physics}
    (p : nat) (mode : Z) (m : Ionization.mem) :
  let te_old := Ionization.t_e (Ionization.cell m p) in
  let gain := Ionization.gain (Ionization.cell m p) in
  (p < Ionization.NPLASMA m)%nat ->
  (0 <= te_old)%R -> (0 <= gain <= 1)%R ->
  Measures.returns_within (0.7 * te_old) (1.3 * te_old)
    (Ionization.zbrent (0.7 * te_old) (1.3 * te_old) 50) ->
  exists m1,
    (p < Ionization.NPLASMA m1)%nat /\
    ((1 - 0.3 * gain) * te_old <= Ionization.t_e (Ionization.cell m1 p)
       <= (1 + 0.3 * gain) * te_old)%R /\
    Ionization.one_shot p mode m =
      match Notions.one_shot_mode mode with
      | None => Ionization.Exit
      | Some mode' =>
          if Ionization.Rgtb (Ionization.t_r (Ionization.cell m p)) 10
          then Ionization.Done
                 (0%Z,
                  Ionization.store p
                    (snd (Ionization.nebular_concentrations
                            (Ionization.cell m1 p) mode')) m1)
          else Ionization.Exit
      end.
Proof.
  intros te_old gain Hp Hte Hgain Hsv.
  pose proof (calc_te_within p (0.7 * te_old) (1.3 * te_old) m Hp ltac:(lra) Hsv)
    as Hnew.
  pose proof (calc_te_elsewhere p (0.7 * te_old) (1.3 * te_old) m) as [_ [Hn _]].
  pose proof (calc_te_t_r p (0.7 * te_old) (1.3 * te_old) m p) as Htr.
  unfold Ionization.one_shot. fold te_old. fold gain.
  destruct (Ionization.calc_te p (0.7 * te_old) (1.3 * te_old) m) as [te_new m0].
  cbn [fst snd] in Hnew, Hn, Htr. cbv zeta.
  set (m1 := Ionization.modify p
               (Ionization.set_t_e ((1 - gain) * te_old + gain * te_new)) m0).
  exists m1.
  assert (p < Ionization.NPLASMA m1)%nat as Hp1
    by (subst m1; rewrite NPLASMA_modify, Hn; exact Hp).
  split; [exact Hp1 |]. split.
  - subst m1. rewrite cell_modify by (rewrite Hn; exact Hp).
    cbn [Ionization.t_e Ionization.set_t_e]. nra.
  - assert (Ionization.t_r (Ionization.cell m1 p)
              = Ionization.t_r (Ionization.cell m p)) as ->.
    { subst m1. rewrite field_modify by reflexivity. exact Htr. }
    unfold Notions.one_shot_mode.
    destruct (mode =? 3)%Z.
    + cbn [mbind Ionization.outcome_bind].
      destruct (Ionization.Rgtb _ _); [| reflexivity].
      destruct (Ionization.nebular_concentrations _ 2) as [status c]. reflexivity.
    + destruct ((mode <=? 1) || (mode >=? 6))%Z; [reflexivity |].
      cbn [mbind Ionization.outcome_bind].
      destruct (Ionization.Rgtb _ _); [| reflexivity].
      destruct (Ionization.nebular_concentrations _ mode) as [status c]. reflexivity.
Qed.

Lemma one_shot_damped_step_witness :
  let phys := Notions.sample_physics 0 Notions.sim_w_overflow in
  exists m1,
    (0 < Ionization.NPLASMA m1)%nat /\
    ((1 - 0.3 * 0.5) * 10000 <= Ionization.t_e (Ionization.cell m1 0)
       <= (1 + 0.3 * 0.5) * 10000)%R /\
    Ionization.one_shot 0 3 Notions.sample_mem =
      Ionization.Done
        (0%Z,
         Ionization.store 0
           (snd (Ionization.nebular_concentrations (Ionization.cell m1 0) 2)) m1).
Proof.
  intros phys.
  destruct (one_shot_damped_step (phys := phys) 0 3 Notions.sample_mem)
    as (m1 & Hp & Hte & Hone).
  - cbn. lia.
  - cbn. lra.
  - cbn. lra.
  - apply bisection_within. cbn. lra.
  - exists m1. split; [exact Hp |]. split; [exact Hte |].
    rewrite Hone. cbn [Notions.one_shot_mode Z.eqb Pos.eqb].
    unfold Ionization.Rgtb. rewrite Rltb_true by (cbn; lra). reflexivity.
Defined.

(** ** The band fit *)

Section band_facts.
Import Ionization Notions Measures.
Local Open Scope R_scope.
Context {phys : Physics}.

(** A property of cells that every update keeps is kept by a write through
    any pointer. *)
Lemma rel_modify (P : plasma -> plasma -> Prop) p q upd m :
  (forall c, P c c) -> (forall c, P c (upd c)) ->
  P (cell m q) (cell (modify p upd m) q).
Proof.
  intros Hrefl Hupd. destruct (decide (q = p)) as [-> | Hne].
  - destruct (decide (p < NPLASMA m)%nat) as [Hp | Hp].
    + rewrite cell_modify by exact Hp. apply Hupd.
    + unfold modify. rewrite store_out_of_range by lia. apply Hrefl.
  - rewrite cell_modify_other by exact Hne. apply Hrefl.
Qed.

Lemma same_other_bands_refl b c : same_other_bands b c c.
Proof. split; [reflexivity | split; [reflexivity | intros; split; reflexivity]]. Qed.

Lemma same_other_bands_trans b c1 c2 c3 :
  same_other_bands b c1 c2 -> same_other_bands b c2 c3 -> same_other_bands b c1 c3.
Proof.
  intros (Ha1 & Hw1 & H1) (Ha2 & Hw2 & H2).
  split; [congruence | split; [congruence |]].
  intros b' Hb'. destruct (H1 b' Hb') as [<- <-]. apply H2. exact Hb'.
Qed.

Lemma same_other_bands_sim_w b v c :
  same_other_bands b c (set_sim_w (<[b := v]> (sim_w c)) c).
Proof.
  split; [reflexivity | split; [apply length_insert |]].
  intros b' Hb'. split; [reflexivity |].
  apply list_lookup_total_insert_ne. intros Heq. apply Hb'. symmetry. exact Heq.
Qed.

Lemma same_other_bands_sim_alpha b v c :
  same_other_bands b c (set_sim_alpha (<[b := v]> (sim_alpha c)) c).
Proof.
  split; [apply length_insert | split; [reflexivity |]].
  intros b' Hb'. split; [| reflexivity].
  apply list_lookup_total_insert_ne. intros Heq. apply Hb'. symmetry. exact Heq.
Qed.

Lemma same_but_model_refl c : same_but_model c c.
Proof. destruct c. reflexivity. Qed.

Lemma same_but_model_sim_w v c : same_but_model c (set_sim_w v c).
Proof. destruct c. reflexivity. Qed.

Lemma same_but_model_sim_alpha v c : same_but_model c (set_sim_alpha v c).
Proof. destruct c. reflexivity. Qed.

Lemma same_but_model_trans c1 c2 c3 :
  same_but_model c1 c2 -> same_but_model c2 c3 -> same_but_model c1 c3.
Proof.
  unfold same_but_model. intros <- <-. destruct c3. reflexivity.
Qed.

(** The two relations, for every cell of the grid. *)
Lemma band_setup_model p b m q :
  same_other_bands b (cell m q) (cell (snd (band_setup p b m)) q) /\
  same_but_model (cell m q) (cell (snd (band_setup p b m)) q).
Proof.
  unfold band_setup. destruct (_ =? 0)%Z; cbn [snd].
  - match goal with
    | |- context [modify p ?u ?mm] =>
        change (cell m q) with (cell mm q); split;
          [apply (rel_modify (same_other_bands b) p q u mm)
          | apply (rel_modify same_but_model p q u mm)]
    end.
    + apply same_other_bands_refl.
    + intros c. apply same_other_bands_sim_w.
    + apply same_but_model_refl.
    + intros c. apply same_but_model_sim_w.
  - split; [apply same_other_bands_refl | apply same_but_model_refl].
Qed.

Lemma band_commit_model p b alphatemp sim_w_temp m q :
  same_other_bands b (cell m q) (cell (band_commit p b alphatemp sim_w_temp m) q) /\
  same_but_model (cell m q) (cell (band_commit p b alphatemp sim_w_temp m) q).
Proof.
  unfold band_commit. destruct (negb _);
    [split; [apply same_other_bands_refl | apply same_but_model_refl] |].
  set (m1 := modify p (fun c => set_sim_alpha (<[b := alphatemp]> (sim_alpha c)) c) m).
  split.
  - apply (same_other_bands_trans _ _ (cell m1 q)).
    + subst m1. apply (rel_modify (same_other_bands b));
        [apply same_other_bands_refl | intros c; apply same_other_bands_sim_alpha].
    + apply (rel_modify (same_other_bands b));
        [apply same_other_bands_refl | intros c; apply same_other_bands_sim_w].
  - apply (same_but_model_trans _ (cell m1 q)).
    + subst m1. apply (rel_modify same_but_model);
        [apply same_but_model_refl | intros c; apply same_but_model_sim_alpha].
    + apply (rel_modify same_but_model);
        [apply same_but_model_refl | intros c; apply same_but_model_sim_w].
Qed.

(** A property of cells that every update keeps. *)
Lemma pred_modify (P : plasma -> Prop) p q upd m :
  (forall c, P c -> P (upd c)) -> P (cell m q) -> P (cell (modify p upd m) q).
Proof.
  intros Hupd Hc. destruct (decide (q = p)) as [-> | Hne].
  - destruct (decide (p < NPLASMA m)%nat) as [Hp | Hp].
    + rewrite cell_modify by exact Hp. apply Hupd. exact Hc.
    + unfold modify. rewrite store_out_of_range by lia. exact Hc.
  - rewrite cell_modify_other by exact Hne. exact Hc.
Qed.

Lemma fit_band_clamped fuel p b m q :
  match fit_band fuel p b m with
  | Done m' => slopes_clamped (cell m q) -> slopes_clamped (cell m' q)
  | _ => True
  end.
Proof.
  unfold fit_band.
  assert (slopes_clamped (cell m q) ->
          slopes_clamped (cell (snd (band_setup p b m)) q)) as Hs.
  { unfold band_setup. destruct (_ =? 0)%Z; cbn [snd]; [| intros H; exact H].
    intros H. apply pred_modify; [intros c Hc; exact Hc | exact H]. }
  destruct (band_setup p b m) as [j m1]. cbn [snd] in Hs.
  destruct (band_bracket fuel p b m1) as [[lo hi] |]; [| exact I].
  pose proof (band_candidate_clamped j lo hi m1) as Hcl.
  destruct (band_candidate j lo hi m1) as [alphatemp sim_w_temp].
  cbn [fst] in Hcl. intros H. apply Hs in H.
  unfold band_commit. destruct (negb _); [exact H |].
  apply pred_modify; [intros c Hc; exact Hc |].
  apply pred_modify; [| exact H].
  intros c Hc. unfold slopes_clamped in *.
  cbn [sim_alpha set_sim_alpha]. apply Forall_insert; [exact Hc | exact Hcl].
Qed.

End band_facts.

(** X15. A fit of band [b] that returns has changed, in every cell, at
    most the slope and the weight of band [b]: the other bands of the
    spectral model and the number of bands are as before, and so is every
    other field of the cell. *)
Theorem fit_band_writes_one_band `{phys : Ionization.Physics}
    (fuel p b : nat) (m : Ionization.mem) :
  match Ionization.fit_band fuel p b m with
  | Ionization.Done m' =>
      Ionization.NPLASMA m' = Ionization.NPLASMA m /\
      forall q,
        Measures.same_other_bands b (Ionization.cell m q) (Ionization.cell m' q) /\
        Measures.same_but_model (Ionization.cell m q) (Ionization.cell m' q)
  | _ => True
  end.
Proof.
  pose proof (fit_band_elsewhere fuel p b m) as Hframe.
  unfold Ionization.fit_band in *.
  pose proof (band_setup_model p b m) as Hs.
  destruct (Ionization.band_setup p b m) as [j m1]. cbn [snd] in Hs.
  destruct (Ionization.band_bracket fuel p b m1) as [[lo hi] |]; [| exact I].
  destruct (Ionization.band_candidate j lo hi m1) as [alphatemp sim_w_temp].
  split; [apply Hframe |]. intros q.
  destruct (Hs q) as [Hs1 Hs2].
  destruct (band_commit_model p b alphatemp sim_w_temp m1 q) as [Hc1 Hc2].
  split.
  - apply (same_other_bands_trans _ _ (Ionization.cell m1 q)); assumption.
  - apply (same_but_model_trans _ (Ionization.cell m1 q)); assumption.
Qed.

(** X16. The loop over the bands keeps the slopes clamped: if every slope
    of a cell is in [[-3, 3]] before the bands are fitted, every slope of
    that cell is in [[-3, 3]] after. *)
Theorem for_bands_keeps_slopes_clamped `{phys : Ionization.Physics}
    (fuel p : nat) (bands : list nat) (m : Ionization.mem) (q : nat) :
  match Ionization.for_bands bands (Ionization.fit_band fuel p) m with
  | Ionization.Done m' =>
      Measures.slopes_clamped (Ionization.cell m q) ->
      Measures.slopes_clamped (Ionization.cell m' q)
  | _ => True
  end.
Proof.
  revert m. induction bands as [| b bands IH]; intros m.
  - intros H. exact H.
  - cbn [Ionization.for_bands].
    pose proof (fit_band_clamped fuel p b m q) as H1.
    destruct (Ionization.fit_band fuel p b m) as [m1 | |]; [| exact I | exact I].
    cbn [mbind Ionization.outcome_bind]. specialize (IH m1).
    destruct (Ionization.for_bands bands (Ionization.fit_band fuel p) m1)
      as [m2 | |]; [| exact I | exact I].
    intros H. apply IH, H1, H.
Qed.

(** ** The bracket search, step by step *)

Section bracket_facts.
Import Ionization Notions Measures.
Local Open Scope R_scope.


End bracket_facts.


Section flat_facts.
Import Ionization Notions Measures.
Local Open Scope R_scope.

Lemma pow_two x : 0 < x -> pow x (0 + 2) = x * x.
Proof.
  intros Hx. unfold pow.
  replace (0 + 2) with (1 + 1) by lra.
  rewrite Rpower_plus, Rpower_1 by exact Hx. reflexivity.
Qed.

End flat_facts.

(** X18. For a band with positive, distinct edges, [sim_alpha_func] at
    slope 0 is the centre of the band minus the observed mean frequency: a
    flat spectrum fits exactly when the mean frequency is the centre of
    the band. *)
Theorem sim_alpha_func_flat (m : Ionization.mem) :
  (0 < Ionization.sim_numin m)%R -> (0 < Ionization.sim_numax m)%R ->
  Ionization.sim_numin m <> Ionization.sim_numax m ->
  Ionization.sim_alpha_func m 0
    = ((Ionization.sim_numin m + Ionization.sim_numax m) / 2
       - Ionization.sim_meanfreq m)%R /\
  (Ionization.sim_alpha_func m 0 = 0%R <->
     Ionization.sim_meanfreq m
       = ((Ionization.sim_numin m + Ionization.sim_numax m) / 2)%R).
Proof.
  intros Hlo Hhi Hne.
  assert (Ionization.sim_alpha_func m 0
            = ((Ionization.sim_numin m + Ionization.sim_numax m) / 2
               - Ionization.sim_meanfreq m)%R) as Hflat.
  { unfold Ionization.sim_alpha_func. cbv zeta.
    rewrite !pow_two by assumption.
    replace (0 + 1)%R with 1%R by lra.
    unfold Ionization.pow. rewrite !Rpower_1 by assumption.
    field. lra. }
  split; [exact Hflat |]. rewrite Hflat. split; intros H; lra.
Qed.

Lemma sim_alpha_func_flat_witness :
  let m := Ionization.set_sim_numin 1 (Ionization.set_sim_numax 2
             (Ionization.set_sim_meanfreq 1.5 Notions.sample_mem)) in
  Ionization.sim_alpha_func m 0 = 0%R.
Proof.
  intros m.
  destruct (sim_alpha_func_flat m) as [_ Hroot]; [cbn; lra | cbn; lra | cbn; lra |].
  apply Hroot. cbn. lra.
Defined.

(** ** The trial temperature and the foreign rank *)

Section zero_emit_extras.
Import Ionization Notions Measures.
Local Open Scope R_scope.
Context {phys : Physics}.

Lemma dr_coeffs_modify p upd m : dr_coeffs (modify p upd m) = dr_coeffs m.
Proof. reflexivity. Qed.

Lemma zero_emit_dr_coeffs t m : dr_coeffs (snd (zero_emit t m)) = t.
Proof.
  unfold zero_emit. cbv zeta. cbn [snd].
  rewrite !dr_coeffs_modify. reflexivity.
Qed.

End zero_emit_extras.

(** X19. [zero_emit] works on the cell the scratch pointer [xxxplasma]
    points to: for a valid pointer it leaves that cell with [t_e] equal to
    the trial temperature and returns the heating minus the four cooling
    terms of the cell as it leaves it, with the recombination table
    prepared for the trial temperature; it moves neither the pointer nor
    the radiation temperature, and touches no other cell. *)
Theorem zero_emit_balance `{phys : Ionization.Physics}
    (t : R) (m : Ionization.mem) :
  (Ionization.xxxplasma m < Ionization.NPLASMA m)%nat ->
  let r := Ionization.zero_emit t m in
  let c := Ionization.cell (snd r) (Ionization.xxxplasma m) in
  Ionization.t_e c = t /\
  fst r = (Ionization.heat_tot c - Ionization.lum_adiabatic c - Ionization.lum_dr c
           - Ionization.lum_comp c
           - Ionization.total_emission c 0 Ionization.VERY_BIG)%R /\
  Ionization.dr_coeffs (snd r) = t /\
  Ionization.xxxplasma (snd r) = Ionization.xxxplasma m /\
  Ionization.NPLASMA (snd r) = Ionization.NPLASMA m /\
  Ionization.t_r c = Ionization.t_r (Ionization.cell m (Ionization.xxxplasma m)) /\
  forall q, q <> Ionization.xxxplasma m ->
    Ionization.cell (snd r) q = Ionization.cell m q.
Proof.
  intros Hp r c. subst c r.
  destruct (zero_emit_value t m Hp) as [Hval Hte].
  destruct (zero_emit_frame t m) as [Hn Hx].
  destruct (zero_emit_elsewhere t m) as [_ Hother].
  split; [exact Hte |]. split; [exact Hval |].
  split; [apply zero_emit_dr_coeffs |].
  split; [exact Hx |]. split; [exact Hn |].
  split; [apply zero_emit_t_r | exact Hother].
Qed.

Lemma zero_emit_balance_witness :
  let phys := Notions.sample_physics 0 Notions.sim_w_overflow in
  Ionization.t_e
    (Ionization.cell (snd (Ionization.zero_emit 12000 Notions.sample_mem)) 0)
  = 12000%R /\
  Ionization.dr_coeffs (snd (Ionization.zero_emit 12000 Notions.sample_mem))
  = 12000%R.
Proof.
  intros phys.
  destruct (zero_emit_balance (phys := phys) 12000 Notions.sample_mem)
    as (Hte & _ & Hdr & _); [apply Nat.ltb_lt; reflexivity |].
  split; [exact Hte | exact Hdr].
Defined.

Section foreign_rank.
Import ParaUpdate.
Local Open Scope Z_scope.

(** X20. Asked about a rank below the remainder, [get_parallel_nrange]
    answers with [ntotal / nproc + 1] cells that start at [rank_global]
    times that number, whatever rank was asked about: when the calling
    rank is below the remainder as well, this is the caller's own range,
    not the range of the rank in the argument. *)
Theorem get_parallel_nrange_below_remainder
    (g : mpi_globals) (rank ntotal nproc : Z) :
  rank < ntotal - nproc * (ntotal / nproc) ->
  let r := get_parallel_nrange g rank ntotal nproc in
  ndo r = ntotal / nproc + 1 /\
  my_nmin r = rank_global g * (ntotal / nproc + 1) /\
  my_nmax r = my_nmin r + ndo r /\
  (rank_global g < ntotal - nproc * (ntotal / nproc) ->
     r = own_range ntotal nproc (rank_global g)).
Proof.
  intros Hlow r. subst r. unfold own_range, get_parallel_nrange, floor_quot.
  destruct (Z.ltb_spec rank (ntotal - nproc * (ntotal / nproc))) as [_ | Hge];
    [| lia].
  cbn [ndo my_nmin my_nmax]. split; [lia | split; [reflexivity | split; [lia |]]].
  intros Hg. cbn [rank_global on_rank].
  destruct (Z.ltb_spec (rank_global g) (ntotal - nproc * (ntotal / nproc)))
    as [_ | Hge]; [reflexivity | lia].
Qed.

End foreign_rank.

Lemma get_parallel_nrange_below_remainder_witness :
  let g := {| ParaUpdate.rank_global := 1; ParaUpdate.np_mpi_global := 4 |} in
  let r := ParaUpdate.get_parallel_nrange g 0 10 4 in
  ParaUpdate.my_nmin r = 3%Z /\ r = ParaUpdate.own_range 10 4 1.
Proof.
  intros g r.
  destruct (get_parallel_nrange_below_remainder g 0 10 4) as (_ & Hmin & _ & Hown).
  - apply Z.ltb_lt. reflexivity.
  - split; [exact Hmin |]. apply Hown. apply Z.ltb_lt. reflexivity.
Defined.
